(** * DeXAcademy: the credential pool, the retry loop, the layer engine,
      the canvas gestures and the camera capture geometry

    A shallow embedding of
    - [src/services/apiKeyManager.ts]   (class [ApiKeyManager], and of
      [FirestoreService] the credits and the lists of assets and mockups),
    - [src/services/geminiService.ts]   ([callGeminiWithRetry],
      [extractImageFromResponse], [ensureBase64Data]),
    - [src/hooks/useStudioState.ts]     (the layer list and its history),
    - [src/hooks/useKeyboardShortcuts.ts] (the [useCanvasGestures] hook with
      its wheel zoom, and [useKeyboardShortcuts]),
    - the try-on screen's [handleCapture] (the WYSIWYG crop),
    - the studio screen's shortcut callbacks and the credits of its
      [handleGenerate],
    - the global state provider (credits, assets, saved mockups),
    followed by the properties the specification states about them and by
    further properties of the code.

    Conventions of the embedding.
    - Timestamps, counters and HTTP status codes are JavaScript numbers that
      only ever hold integers far below 2^53; they are [Z].
    - A call that reads [Date.now()] takes the reading as its argument [now];
      the reads inside one synchronous call are taken at the same instant.
    - Strings are byte strings; [toLowerCase] folds the ASCII letters.
    - Layer geometry is held in JavaScript doubles.  They are modelled by the
      type [num]: exact rationals extended with [Infinity], [-Infinity] and
      [NaN] as IEEE 754 arithmetic produces them.  Rounding, overflow and the
      sign of zero are outside the model.
    - A React callback is run on the state of the latest render: one call is
      one transition of the hook's state. *)

From Stdlib Require Import ZArith QArith Qround Qminmax Qabs Lia Lqa String Ascii List Bool.
From stdpp Require Import gmap strings list fin_maps.
Import ListNotations.

Local Open Scope Z_scope.

(** ** JavaScript helpers *)

Module JS.

(** Truthiness of a [number | null]: [null] and [0] are falsy. *)
Definition truthy (o : option Z) : bool :=
  match o with
  | Some t => negb (t =? 0)
  | None => false
  end.

(** [o || 0] on a [number | null]. *)
Definition or_zero (o : option Z) : Z :=
  match o with
  | Some t => t
  | None => 0
  end.

(** [Array.prototype.sort]: a stable sort by a comparator whose sign
    orders the elements.  Insertion from the right keeps an element in
    front of the later elements it compares equal to. *)
Section Sort.
Context {A : Type} (cmp : A -> A -> Z).

Fixpoint insert_sorted (x : A) (l : list A) : list A :=
  match l with
  | [] => [x]
  | y :: l' => if cmp x y <=? 0 then x :: l else y :: insert_sorted x l'
  end.

Fixpoint sort (l : list A) : list A :=
  match l with
  | [] => []
  | x :: l' => insert_sorted x (sort l')
  end.
End Sort.

(** [Array.from(new Set(l))]: the distinct elements in order of first
    occurrence. *)
Fixpoint uniq (seen l : list string) : list string :=
  match l with
  | [] => []
  | x :: l' =>
      if bool_decide (x ∈ seen) then uniq seen l' else x :: uniq (x :: seen) l'
  end.

(** [String.prototype.toLowerCase] on ASCII text. *)
Definition lower_ascii (c : ascii) : ascii :=
  let n := nat_of_ascii c in
  if (65 <=? n)%nat && (n <=? 90)%nat then ascii_of_nat (n + 32) else c.

Fixpoint toLowerCase (s : string) : string :=
  match s with
  | EmptyString => EmptyString
  | String c s' => String (lower_ascii c) (toLowerCase s')
  end.

(** [s.includes(sub)] *)
Fixpoint includes (s sub : string) : bool :=
  String.prefix sub s
  || match s with
     | EmptyString => false
     | String _ s' => includes s' sub
     end.

(** [s.slice(-n)]: the last [n] characters. *)
Definition slice_last (n : nat) (s : string) : string :=
  String.substring (String.length s - n) n s.

End JS.

(** ** JavaScript numbers that hold geometry *)

Module Num.

Inductive num :=
| Fin (q : Q)
| PInf
| NInf
| NaN.

(** Equality of numbers: that of the rationals on finite values. *)
Definition eqn (a b : num) : Prop :=
  match a, b with
  | Fin x, Fin y => (x == y)%Q
  | PInf, PInf | NInf, NInf | NaN, NaN => True
  | _, _ => False
  end.

(** The sign of a number; [None] for [NaN]. *)
Definition sign (a : num) : option comparison :=
  match a with
  | Fin x => Some (x ?= 0)%Q
  | PInf => Some Gt
  | NInf => Some Lt
  | NaN => None
  end.

Definition sign_mul (c d : comparison) : comparison :=
  match c, d with
  | Eq, _ | _, Eq => Eq
  | Gt, Gt | Lt, Lt => Gt
  | _, _ => Lt
  end.

(** The infinity of a sign; a zero sign stands for [0 * Infinity] or
    [0 / 0] and gives [NaN]. *)
Definition inf_of (c : comparison) : num :=
  match c with
  | Gt => PInf
  | Lt => NInf
  | Eq => NaN
  end.

Definition neg (a : num) : num :=
  match a with
  | Fin x => Fin (- x)
  | PInf => NInf
  | NInf => PInf
  | NaN => NaN
  end.

Definition add (a b : num) : num :=
  match a, b with
  | NaN, _ | _, NaN => NaN
  | Fin x, Fin y => Fin (x + y)
  | PInf, NInf | NInf, PInf => NaN
  | PInf, _ | _, PInf => PInf
  | NInf, _ | _, NInf => NInf
  end.

Definition sub (a b : num) : num := add a (neg b).

Definition mul (a b : num) : num :=
  match a, b with
  | Fin x, Fin y => Fin (x * y)
  | _, _ =>
      match sign a, sign b with
      | Some c, Some d => inf_of (sign_mul c d)
      | _, _ => NaN
      end
  end.

(** Division; a zero divisor is the positive zero. *)
Definition div (a b : num) : num :=
  match a, b with
  | NaN, _ | _, NaN => NaN
  | Fin x, Fin y => if Qeq_bool y 0 then inf_of (x ?= 0)%Q else Fin (x / y)
  | Fin _, _ => Fin 0
  | _, Fin y =>
      match sign a with
      | Some c => inf_of (sign_mul c (if Qeq_bool y 0 then Gt else (y ?= 0)%Q))
      | None => NaN
      end
  | _, _ => NaN
  end.

(** [a > b]; false when either side is [NaN]. *)
Definition gt (a b : num) : bool :=
  match a, b with
  | NaN, _ | _, NaN => false
  | Fin x, Fin y => match (x ?= y)%Q with Gt => true | _ => false end
  | PInf, PInf | NInf, _ | Fin _, PInf => false
  | _, _ => true
  end.

(** [Math.max(a, b)] and [Math.min(a, b)]. *)
Definition max (a b : num) : num :=
  match a, b with
  | NaN, _ | _, NaN => NaN
  | Fin x, Fin y => Fin (Qmax x y)
  | _, _ => if gt a b then a else b
  end.

Definition min (a b : num) : num :=
  match a, b with
  | NaN, _ | _, NaN => NaN
  | Fin x, Fin y => Fin (Qmin x y)
  | _, _ => if gt a b then b else a
  end.

(** Rounding toward zero. *)
Definition trunc (q : Q) : Z := Z.quot (Qnum q) (Zpos (Qden q)).

(** [a % b]: the remainder of the division truncated toward zero; it has
    the sign of the dividend. *)
Definition rem (a b : num) : num :=
  match a, b with
  | Fin x, Fin y =>
      if Qeq_bool y 0 then NaN else Fin (x - y * inject_Z (trunc (x / y)))
  | Fin x, (PInf | NInf) => Fin x
  | _, _ => NaN
  end.


End Num.

(** ** The credential pool: [ApiKeyManager] *)

Module KeyPool.

Inductive Circuit := CLOSED | OPEN | HALF_OPEN.

#[global] Instance Circuit_eq_dec : EqDecision Circuit.
Proof. solve_decision. Defined.

Record KeyState := mkKeyState {
  key : string;
  failCount : Z;
  failedAt : option Z;
  isQuotaError : bool;
  circuitState : Circuit;
  lastUsed : Z;
  successCount : Z;
  totalRequests : Z;
  halfOpenTestTime : option Z
}.

(** [CONFIG] *)
Definition MAX_CONSECUTIVE_FAILURES : Z := 5.
Definition COOLDOWN_TRANSIENT : Z := 60 * 1000.
Definition COOLDOWN_QUOTA : Z := 5 * 60 * 1000.
Definition HALF_OPEN_TEST_DELAY : Z := 60 * 1000.

(** One entry of the JSON object kept under ['api_rotation_state'].
    [saveState] writes all six properties; an entry written by another
    context may lack some, and [Object.assign] copies the ones present.
    A property that is present and [null] is [Some None]. *)
Record Persisted := mkPersisted {
  pFailCount : option Z;
  pCircuitState : option Circuit;
  pLastUsed : option Z;
  pFailedAt : option (option Z);
  pHalfOpenTestTime : option (option Z);
  pIsQuotaError : option bool
}.

(** The [storage] constructor argument.  [NoStorage] is [undefined] (no
    [window]); [Slot None] is a storage whose item is missing, empty or
    not the JSON text of an object; [Slot (Some m)] holds the object [m]. *)
Inductive Storage :=
| NoStorage
| Slot (item : option (gmap string Persisted)).

Record Pool := mkPool {
  keys : list KeyState;
  storage : Storage
}.

Definition set_circuit (c : Circuit) (k : KeyState) : KeyState :=
  mkKeyState (key k) (failCount k) (failedAt k) (isQuotaError k) c
    (lastUsed k) (successCount k) (totalRequests k) (halfOpenTestTime k).

Definition set_lastUsed (t : Z) (k : KeyState) : KeyState :=
  mkKeyState (key k) (failCount k) (failedAt k) (isQuotaError k)
    (circuitState k) t (successCount k) (totalRequests k) (halfOpenTestTime k).

(** [isOnCooldown(k)]: the answer and the record as the call leaves it
    (the OPEN to HALF_OPEN transition is written into [k]). *)
Definition isOnCooldown (now : Z) (k : KeyState) : bool * KeyState :=
  match circuitState k with
  | OPEN =>
      if JS.truthy (halfOpenTestTime k)
         && (JS.or_zero (halfOpenTestTime k) <=? now)
      then (false, set_circuit HALF_OPEN k)
      else (true, k)
  | _ =>
      if JS.truthy (failedAt k)
         && (now - JS.or_zero (failedAt k)
             <? (if isQuotaError k then COOLDOWN_QUOTA else COOLDOWN_TRANSIENT))
      then (true, k)
      else (false, k)
  end.

(** The object [saveState] writes for one record. *)
Definition persist (k : KeyState) : Persisted :=
  mkPersisted (Some (failCount k)) (Some (circuitState k)) (Some (lastUsed k))
    (Some (failedAt k)) (Some (halfOpenTestTime k)) (Some (isQuotaError k)).

Definition snapshot (ks : list KeyState) : gmap string Persisted :=
  foldl (fun acc k => <[key k := persist k]> acc) ∅ ks.

Definition saveState (s : Pool) : Pool :=
  match storage s with
  | NoStorage => s
  | Slot _ => mkPool (keys s) (Slot (Some (snapshot (keys s))))
  end.

(** [Object.assign(k, p)] *)
Definition assign (k : KeyState) (p : Persisted) : KeyState :=
  mkKeyState (key k)
    (default (failCount k) (pFailCount p))
    (default (failedAt k) (pFailedAt p))
    (default (isQuotaError k) (pIsQuotaError p))
    (default (circuitState k) (pCircuitState p))
    (default (lastUsed k) (pLastUsed p))
    (successCount k) (totalRequests k)
    (default (halfOpenTestTime k) (pHalfOpenTestTime p)).

Definition loadState (s : Pool) : Pool :=
  match storage s with
  | Slot (Some data) =>
      mkPool (map (fun k => match data !! key k with
                            | Some p => assign k p
                            | None => k
                            end) (keys s))
             (storage s)
  | _ => s
  end.

(** The constructor. *)
Definition fresh (k : string) : KeyState :=
  mkKeyState k 0 None false CLOSED 0 0 0 None.

Definition new (initialKeys : list string) (st : Storage) : Pool :=
  loadState
    (mkPool (map fresh (List.filter (fun k => negb (String.eqb k ""))
                                    (JS.uniq [] initialKeys)))
            st).

(** The records after the [filter] callback has run on each of them,
    paired with their positions in [this.keys], and the [candidates]
    array: the entries that were not on cool-down. *)
Definition checked (now : Z) (ks : list KeyState) : list (bool * KeyState) :=
  map (isOnCooldown now) ks.

Definition candidates (now : Z) (ks : list KeyState) : list (nat * KeyState) :=
  omap (fun '(i, (c, k)) => if c : bool then None else Some (i, k))
       (imap (fun i ck => (i, ck)) (checked now ks)).

Definition byHealth (a b : nat * KeyState) : Z :=
  if negb (failCount (snd a) =? failCount (snd b))
  then failCount (snd a) - failCount (snd b)
  else lastUsed (snd a) - lastUsed (snd b).

Definition byFailedAt (a b : KeyState) : Z :=
  JS.or_zero (failedAt a) - JS.or_zero (failedAt b).

(** [x || null] on a string. *)
Definition nonempty_or_null (x : string) : option string :=
  if String.eqb x "" then None else Some x.

(** [getKey()]: the returned key and the pool as the call leaves it. *)
Definition getKey (now : Z) (s : Pool) : option string * Pool :=
  let s1 := loadState s in
  match keys s1 with
  | [] => (None, s1)
  | _ :: _ =>
      let ks := map snd (checked now (keys s1)) in
      match JS.sort byHealth (candidates now (keys s1)) with
      | [] =>
          (match JS.sort byFailedAt ks with
           | [] => None
           | k :: _ => nonempty_or_null (key k)
           end,
           mkPool ks (storage s1))
      | (i, selected) :: _ =>
          (Some (key selected),
           saveState (mkPool (<[i := set_lastUsed now selected]> ks) (storage s1)))
      end
  end.

Definition getKeyCount (s : Pool) : nat := length (keys s).

(** The keys [getKey] would find eligible at [now]: those of the
    [candidates] array. *)
Definition eligible (now : Z) (s : Pool) : list string :=
  map (fun c => key (snd c)) (candidates now (keys (loadState s))).

(** [getPoolStatus()] runs [isOnCooldown] on every record and so may move
    records to HALF_OPEN; it does not save. *)
Record Status := mkStatus {
  st_id : string;
  st_state : Circuit;
  st_failures : Z;
  st_total : Z;
  st_lastUsed : Z;
  st_isCoolingDown : bool
}.

Definition getPoolStatus (now : Z) (s : Pool) : list Status * Pool :=
  (map (fun k => let (c, k') := isOnCooldown now k in
                 mkStatus (JS.slice_last 4 (key k)) (circuitState k)
                          (failCount k) (totalRequests k) (lastUsed k) c)
        (keys s),
   mkPool (map snd (checked now (keys s))) (storage s)).

Definition find_key (name : string) (ks : list KeyState) : option (nat * KeyState) :=
  list_find (fun x => key x = name) ks.

Definition succeeded (k : KeyState) : KeyState :=
  mkKeyState (key k) 0 None false CLOSED (lastUsed k)
    (successCount k + 1) (totalRequests k + 1) (halfOpenTestTime k).

Definition markSuccess (name : string) (s : Pool) : Pool :=
  match find_key name (keys s) with
  | None => s
  | Some (i, k) => saveState (mkPool (<[i := succeeded k]> (keys s)) (storage s))
  end.

Definition failed (isQuota : bool) (now : Z) (k : KeyState) : KeyState :=
  let n := failCount k + 1 in
  match circuitState k with
  | HALF_OPEN =>
      mkKeyState (key k) n (Some now) isQuota OPEN (lastUsed k)
        (successCount k) (totalRequests k + 1) (Some (now + HALF_OPEN_TEST_DELAY))
  | c =>
      if (MAX_CONSECUTIVE_FAILURES <=? n) || isQuota
      then mkKeyState (key k) n (Some now) isQuota OPEN (lastUsed k)
             (successCount k) (totalRequests k + 1)
             (Some (now + (if isQuota then COOLDOWN_QUOTA else HALF_OPEN_TEST_DELAY)))
      else mkKeyState (key k) n (Some now) isQuota c (lastUsed k)
             (successCount k) (totalRequests k + 1) (halfOpenTestTime k)
  end.

Definition markFailed (name : string) (isQuota : bool) (now : Z) (s : Pool) : Pool :=
  match find_key name (keys s) with
  | None => s
  | Some (i, k) =>
      saveState (mkPool (<[i := failed isQuota now k]> (keys s)) (storage s))
  end.

(** The ['storage'] event listener: another context has written [item],
    and the listener reloads. *)
Definition onStorageEvent (item : option (gmap string Persisted)) (s : Pool) : Pool :=
  match storage s with
  | NoStorage => s
  | Slot _ => loadState (mkPool (keys s) (Slot item))
  end.

(** The keys of the pool in the order of [this.keys], and the record
    [this.keys.find(x => x.key === name)] finds. *)
Definition names (s : Pool) : list string := map key (keys s).

Definition record (name : string) (s : Pool) : option KeyState :=
  snd <$> find_key name (keys s).

(** The pool as the constructor builds it: distinct, non-empty keys. *)
Definition wf (s : Pool) : Prop :=
  NoDup (map key (keys s)) /\ Forall (fun k => key k <> ""%string) (keys s).

(** What can happen to a manager after its construction: the calls of its
    public methods and the storage events, and a run of them. *)
Inductive Call :=
| GetKey (now : Z)
| GetPoolStatus (now : Z)
| MarkSuccess (name : string)
| MarkFailed (name : string) (isQuota : bool) (now : Z)
| StorageEvent (item : option (gmap string Persisted)).

Definition step (s : Pool) (c : Call) : Pool :=
  match c with
  | GetKey now => snd (getKey now s)
  | GetPoolStatus now => snd (getPoolStatus now s)
  | MarkSuccess name => markSuccess name s
  | MarkFailed name isQuota now => markFailed name isQuota now s
  | StorageEvent item => onStorageEvent item s
  end.

Definition run (cs : list Call) (s : Pool) : Pool := foldl step s cs.

End KeyPool.


(** ** The retry loop: [callGeminiWithRetry] *)

Module Invoker.
Import KeyPool.

(** What the [catch] block reads of a thrown value: [errObj.status] when
    it is a number, and [String(error)]. *)
Record JsError := mkJsError {
  status : option Z;
  text : string
}.

Inductive Outcome (T : Type) :=
| Resolved (v : T)
| Rejected (e : JsError).
Arguments Resolved {T} v.
Arguments Rejected {T} e.

(** The surroundings of one pass of the loop: the clock when the key is
    taken, what [operation] does with a client built on a given key, and
    the clock when the outcome is reported. *)
Record Attempt (T : Type) := mkAttempt {
  at_select : Z;
  run : string -> Outcome T;
  at_report : Z
}.
Arguments mkAttempt {T} _ _ _.
Arguments at_select {T} _.
Arguments run {T} _ _.
Arguments at_report {T} _.

(** The quota test of the [catch] block. *)
Definition isQuota (e : JsError) : bool :=
  let msg := JS.toLowerCase (text e) in
  bool_decide (status e = Some 429)
  || JS.includes msg "quota"
  || JS.includes msg "limit"
  || JS.includes msg "429"
  || JS.includes msg "exhausted".

Inductive Result (T : Type) :=
| Return (v : T)
| Throw (e : JsError).
Arguments Return {T} v.
Arguments Throw {T} e.

Definition noKeysError : JsError :=
  mkJsError None "Error: No API keys configured or all keys are exhausted.".
Definition exhaustedError : JsError :=
  mkJsError None "Error: All API keys exhausted.".

(** What the loop told the pool in one pass, next to what happened in it:
    the key [getKey] gave and, on failure, the value thrown, the key and
    the flag passed to [markFailed], and whether the loop then slept. *)
Inductive Report :=
| ReportSuccess (used reported : string)
| ReportFailure (used : string) (e : JsError) (reported : string)
                (quota : bool) (slept : bool).

Section Loop.
Context {T : Type} (world : nat -> Attempt T).

(** The [for] loop with [remaining = MAX_ATTEMPTS - attempt] passes to go. *)
Fixpoint loop (remaining attempt : nat) (s : Pool)
  : Result T * Pool * list Report :=
  match remaining with
  | O => (Throw exhaustedError, s, [])
  | S remaining' =>
      let w := world attempt in
      let (got, s1) := getKey (at_select w) s in
      match got with
      | None => (Throw noKeysError, s1, [])
      | Some k =>
          if String.eqb k "" then (Throw noKeysError, s1, []) else
          match run w k with
          | Resolved v =>
              (Return v, markSuccess k s1, [ReportSuccess k k])
          | Rejected e =>
              let q := isQuota e in
              let s2 := markFailed k q (at_report w) s1 in
              match remaining' with
              | O => (Throw e, s2, [ReportFailure k e k q false])
              | S _ =>
                  let '(r, s3, log) := loop remaining' (S attempt) s2 in
                  (r, s3, ReportFailure k e k q (negb q) :: log)
              end
          end
      end
  end.

Definition callGeminiWithRetry (s : Pool) : Result T * Pool * list Report :=
  loop (Nat.max 1 (getKeyCount s + 1)) 0 s.
End Loop.



End Invoker.

(** ** The layer engine: [useStudioState] *)

Module Studio.
Import Num.

Inductive BlendMode := normal | multiply | screen.

(** [PlacedLayer] (declared in [types.ts]; the fields are those the hooks
    and the screens read and write). *)
Record PlacedLayer := mkLayer {
  uid : string;
  assetId : string;
  x : num;
  y : num;
  scale : num;
  rotation : num;
  blendMode : option BlendMode
}.

(** [Partial<PlacedLayer>]: the properties an update carries. *)
Record Updates := mkUpdates {
  u_uid : option string;
  u_assetId : option string;
  u_x : option num;
  u_y : option num;
  u_scale : option num;
  u_rotation : option num;
  u_blendMode : option (option BlendMode)
}.

(** [{ ...l, ...updates }] *)
Definition patch (l : PlacedLayer) (u : Updates) : PlacedLayer :=
  mkLayer (default (uid l) (u_uid u)) (default (assetId l) (u_assetId u))
    (default (x l) (u_x u)) (default (y l) (u_y u))
    (default (scale l) (u_scale u)) (default (rotation l) (u_rotation u))
    (default (blendMode l) (u_blendMode u)).

Record State := mkState {
  layers : list PlacedLayer;
  activeLayerId : option string;
  history : list (list PlacedLayer);
  historyIndex : nat
}.

(** [useStudioState(initialLayers)] on its first render. *)
Definition init (initialLayers : list PlacedLayer) : State :=
  mkState initialLayers None [initialLayers] 0.

Definition HISTORY_LIMIT : nat := 20.

(** [nextHistory] of [commit]: the entries up to the cursor, the new
    entry, and the oldest entry shifted out when there are more than 20. *)
Definition nextHistory (h : list (list PlacedLayer)) (i : nat)
    (newLayers : list PlacedLayer) : list (list PlacedLayer) :=
  let n := take (i + 1) h ++ [newLayers] in
  if (HISTORY_LIMIT <? length n)%nat then tail n else n.

Definition commit (newLayers : list PlacedLayer) (s : State) : State :=
  let n := nextHistory (history s) (historyIndex s) newLayers in
  mkState newLayers (activeLayerId s) n (length n - 1).

(** [l => l.uid === id], and [ls.some(l => l.uid === id)]. *)
Definition has_uid (id : string) (l : PlacedLayer) : bool := String.eqb (uid l) id.

Definition some_uid (id : string) (ls : list PlacedLayer) : bool :=
  existsb (has_uid id) ls.

(** The selection after [undo] or [redo] has restored [ls]: a selected
    id (a non-empty string) that [ls] no longer holds is cleared. *)
Definition restore_selection (a : option string) (ls : list PlacedLayer)
    : option string :=
  match a with
  | Some id =>
      if negb (String.eqb id "") && negb (some_uid id ls) then None else a
  | None => None
  end.

(** [undo()] and [redo()].  [None] stands for the case that the cursor
    points outside the stack, where the source reads [undefined] from it. *)
Definition undo (s : State) : option State :=
  if (0 <? historyIndex s)%nat then
    let prevIndex := (historyIndex s - 1)%nat in
    match history s !! prevIndex with
    | Some prevLayers =>
        Some (mkState prevLayers (restore_selection (activeLayerId s) prevLayers)
                      (history s) prevIndex)
    | None => None
    end
  else Some s.

Definition redo (s : State) : option State :=
  if (historyIndex s <? length (history s) - 1)%nat then
    let nextIndex := (historyIndex s + 1)%nat in
    match history s !! nextIndex with
    | Some nextLayers =>
        Some (mkState nextLayers (restore_selection (activeLayerId s) nextLayers)
                      (history s) nextIndex)
    | None => None
    end
  else Some s.

Definition canUndo (s : State) : bool := (0 <? historyIndex s)%nat.
Definition canRedo (s : State) : bool :=
  (historyIndex s <? length (history s) - 1)%nat.

Definition setLayers (ls : list PlacedLayer) (s : State) : State :=
  mkState ls (activeLayerId s) (history s) (historyIndex s).

Definition setActiveLayerId (a : option string) (s : State) : State :=
  mkState (layers s) a (history s) (historyIndex s).

(** [addLayer(assetId)]; [newUid] is what [generateId()] returns. *)
Definition addLayer (newUid asset : string) (s : State) : State :=
  let newLayer := mkLayer newUid asset (Fin 50) (Fin 50) (Fin 1) (Fin 0) (Some normal) in
  setActiveLayerId (Some newUid) (commit (layers s ++ [newLayer]) s).

Definition patched (id : string) (u : Updates) (ls : list PlacedLayer)
    : list PlacedLayer :=
  map (fun l => if has_uid id l then patch l u else l) ls.

Definition updateLayer (id : string) (u : Updates) (s : State) : State :=
  setLayers (patched id u (layers s)) s.

Definition commitUpdate (id : string) (u : Updates) (s : State) : State :=
  commit (patched id u (layers s)) s.

Definition removeLayer (id : string) (s : State) : State :=
  let s' := commit (List.filter (fun l => negb (has_uid id l)) (layers s)) s in
  if bool_decide (activeLayerId s = Some id) then setActiveLayerId None s' else s'.

Inductive Direction := forward | backward.

(** [layers.findIndex(l => l.uid === id)] *)
Definition findIndex (id : string) (ls : list PlacedLayer) : option nat :=
  fst <$> list_find (fun l => has_uid id l = true) ls.

(** The swap of the entries at [i] and [j] of a copy of the array. *)
Definition swap (i j : nat) (ls : list PlacedLayer) : list PlacedLayer :=
  match ls !! i, ls !! j with
  | Some a, Some b => <[j := a]> (<[i := b]> ls)
  | _, _ => ls
  end.

(** [reorderLayer(id, direction)].  The entries of the array are distinct
    objects, so [newLayers[index] !== layers[index]] holds exactly when
    one of the two swaps ran. *)
Definition reorderLayer (id : string) (d : Direction) (s : State) : State :=
  match findIndex id (layers s) with
  | None => s
  | Some index =>
      match d with
      | backward =>
          if (0 <? index)%nat
          then commit (swap index (index - 1) (layers s)) s
          else s
      | forward =>
          if (index <? length (layers s) - 1)%nat
          then commit (swap index (index + 1) (layers s)) s
          else s
      end
  end.

Definition clearCanvas (s : State) : State :=
  setActiveLayerId None (commit [] s).

(** The invariant of the hook's state: the cursor points into the stack,
    and the stack holds at most 20 snapshots. *)
Definition inv (s : State) : Prop :=
  (historyIndex s < length (history s))%nat /\
  (length (history s) <= HISTORY_LIMIT)%nat.

(** The calls a screen makes on the hook, and their runs. *)
Inductive Call :=
| Commit (ls : list PlacedLayer)
| Undo
| Redo
| AddLayer (newUid asset : string)
| UpdateLayer (id : string) (u : Updates)
| CommitUpdate (id : string) (u : Updates)
| RemoveLayer (id : string)
| ReorderLayer (id : string) (d : Direction)
| ClearCanvas
| SetLayers (ls : list PlacedLayer)
| SetActiveLayerId (a : option string).

Definition step (c : Call) (s : State) : option State :=
  match c with
  | Commit ls => Some (commit ls s)
  | Undo => undo s
  | Redo => redo s
  | AddLayer u a => Some (addLayer u a s)
  | UpdateLayer id u => Some (updateLayer id u s)
  | CommitUpdate id u => Some (commitUpdate id u s)
  | RemoveLayer id => Some (removeLayer id s)
  | ReorderLayer id d => Some (reorderLayer id d s)
  | ClearCanvas => Some (clearCanvas s)
  | SetLayers ls => Some (setLayers ls s)
  | SetActiveLayerId a => Some (setActiveLayerId a s)
  end.

Fixpoint steps (cs : list Call) (s : State) : option State :=
  match cs with
  | [] => Some s
  | c :: cs' =>
      match step c s with
      | Some s' => steps cs' s'
      | None => None
      end
  end.

End Studio.

(** ** The canvas gestures: [useCanvasGestures] *)

Module Gestures.
Import Num Studio.

Inductive GestureType := drag | pinch.

Record GestureState := mkGesture {
  layerId : string;
  type : GestureType;
  startX : num;
  startY : num;
  startScale : num;
  startRot : num;
  initialLayerX : num;
  initialLayerY : num;
  initialDist : num;
  initialAngle : num;
  hasMoved : bool
}.

(** A mouse position or a touch point. *)
Record Point := mkPoint {
  clientX : num;
  clientY : num
}.

(** A mouse event, or a touch event with its [touches] list. *)
Inductive PointerEvent :=
| MouseEvent (p : Point)
| TouchEvent (touches : list Point).

(** [canvasRef.current.getBoundingClientRect()] *)
Record Rect := mkRect {
  width : num;
  height : num
}.

(** What a handler finds around it: the canvas element when it is
    mounted, and the [isProcessing] argument of the hook. *)
Record Env := mkEnv {
  canvas : option Rect;
  isProcessing : bool
}.

(** The hook's own state next to the studio state it is wired to in the
    studio screen ([layers], [setLayers], [setActiveLayerId], [commit]). *)
Record Hook := mkHook {
  studio : State;
  gesture : option GestureState
}.

Definition moved (g : GestureState) : GestureState :=
  mkGesture (layerId g) (type g) (startX g) (startY g) (startScale g)
    (startRot g) (initialLayerX g) (initialLayerY g) (initialDist g)
    (initialAngle g) true.

(** [getDist] and [getAngle] on two touches that lie on one horizontal or
    one vertical line, where the square root and the arc tangent are
    rational; [NaN] marks the other pairs. *)
Definition axisDist (t1 t2 : Point) : num :=
  match sub (clientX t1) (clientX t2), sub (clientY t1) (clientY t2) with
  | Fin dx, Fin dy =>
      if Qeq_bool dx 0 then Fin (Qabs dy)
      else if Qeq_bool dy 0 then Fin (Qabs dx)
      else NaN
  | _, _ => NaN
  end.

Definition axisAngle (t1 t2 : Point) : num :=
  match sub (clientX t2) (clientX t1), sub (clientY t2) (clientY t1) with
  | Fin dx, Fin dy =>
      match (dx ?= 0)%Q, (dy ?= 0)%Q with
      | Eq, Eq => Fin 0
      | Eq, Gt => Fin 90
      | Eq, Lt => Fin (-90)
      | Gt, Eq => Fin 0
      | Lt, Eq => Fin 180
      | _, _ => NaN
      end
  | _, _ => NaN
  end.

(** A point of finite coordinates. *)
Definition pt (p : Q * Q) : Point := mkPoint (Fin (fst p)) (Fin (snd p)).

(** The point a drag reads from an event: the mouse position, or the first
    touch ([touches[0]]). *)
Definition first_point (e : PointerEvent) : option Point :=
  match e with
  | MouseEvent p => Some p
  | TouchEvent (p :: _) => Some p
  | TouchEvent [] => None
  end.

(** [isTouch && touches.length === 2] *)
Definition two_touches (e : PointerEvent) : bool :=
  match e with
  | TouchEvent [_; _] => true
  | _ => false
  end.

(** The gesture after a move event has marked it. *)
Definition marked (g : GestureState) : GestureState :=
  if hasMoved g then g else moved g.

Section Handlers.
(** [getDist] and [getAngle] take a square root and an arc tangent,
    which the rational model of numbers does not have: they are
    parameters. *)
Variable getDist : Point -> Point -> num.
Variable getAngle : Point -> Point -> num.

(** [handlePointerDown(e, layerId)].  [None] is the [TypeError] of
    reading [touches[0]] on a touch event without touches. *)
Definition handlePointerDown (e : PointerEvent) (id : string) (env : Env)
    (h : Hook) : option Hook :=
  if isProcessing env then Some h else
  let st := setActiveLayerId (Some id) (studio h) in
  match List.find (has_uid id) (layers (studio h)), canvas env with
  | Some layer, Some _ =>
      match e with
      | TouchEvent [t1; t2] =>
          Some (mkHook st (Some (mkGesture id pinch (Fin 0) (Fin 0)
                  (scale layer) (rotation layer) (Fin 0) (Fin 0)
                  (getDist t1 t2) (getAngle t1 t2) false)))
      | TouchEvent [] => None
      | TouchEvent (p :: _) | MouseEvent p =>
          Some (mkHook st (Some (mkGesture id drag (clientX p) (clientY p)
                  (scale layer) (rotation layer) (x layer) (y layer)
                  (Fin 0) (Fin 0) false)))
      end
  | _, _ => Some (mkHook st (gesture h))
  end.

Definition pinched (g : GestureState) (dist angle : num) (l : PlacedLayer)
    : PlacedLayer :=
  let scaleRatio := div dist (initialDist g) in
  let angleDelta := sub angle (initialAngle g) in
  mkLayer (uid l) (assetId l) (x l) (y l)
    (max (Fin 0.1) (min (Fin 5) (mul (startScale g) scaleRatio)))
    (rem (add (startRot g) angleDelta) (Fin 360))
    (blendMode l).

Definition dragged (g : GestureState) (rect : Rect) (p : Point) (l : PlacedLayer)
    : PlacedLayer :=
  let deltaXPixels := sub (clientX p) (startX g) in
  let deltaYPixels := sub (clientY p) (startY g) in
  let deltaXPercent := mul (div deltaXPixels (width rect)) (Fin 100) in
  let deltaYPercent := mul (div deltaYPixels (height rect)) (Fin 100) in
  mkLayer (uid l) (assetId l)
    (max (Fin 0) (min (Fin 100) (add (initialLayerX g) deltaXPercent)))
    (max (Fin 0) (min (Fin 100) (add (initialLayerY g) deltaYPercent)))
    (scale l) (rotation l) (blendMode l).

Definition on_layer (id : string) (f : PlacedLayer -> PlacedLayer)
    (ls : list PlacedLayer) : list PlacedLayer :=
  map (fun l => if has_uid id l then f l else l) ls.

(** [handleMove(e)] *)
Definition handleMove (e : PointerEvent) (env : Env) (h : Hook) : option Hook :=
  match gesture h, canvas env with
  | Some g, Some rect =>
      if isProcessing env then Some h else
      let g' := marked g in
      match type g, e with
      | pinch, TouchEvent [t1; t2] =>
          Some (mkHook
                  (setLayers (on_layer (layerId g)
                                (pinched g (getDist t1 t2) (getAngle t1 t2))
                                (layers (studio h))) (studio h))
                  (Some g'))
      | pinch, _ => Some (mkHook (studio h) (Some g'))
      | drag, TouchEvent [] => None
      | drag, (TouchEvent (p :: _) | MouseEvent p) =>
          Some (mkHook
                  (setLayers (on_layer (layerId g) (dragged g rect p)
                                (layers (studio h))) (studio h))
                  (Some g'))
      end
  | _, _ => Some h
  end.

(** [handleUp()] *)
Definition handleUp (h : Hook) : Hook :=
  match gesture h with
  | Some g =>
      mkHook (if hasMoved g then commit (layers (studio h)) (studio h)
              else studio h)
             None
  | None => h
  end.

(** The layer list after a run of mouse moves of a drag. *)
Definition drag_layers (g : GestureState) (rect : Rect) (pts : list (Q * Q))
    (ls : list PlacedLayer) : list PlacedLayer :=
  foldl (fun ls p => on_layer (layerId g) (dragged g rect (pt p)) ls) ls pts.

(** A run of move events. *)
Fixpoint moves (es : list PointerEvent) (env : Env) (h : Hook) : option Hook :=
  match es with
  | [] => Some h
  | e :: es' =>
      match handleMove e env h with
      | Some h' => moves es' env h'
      | None => None
      end
  end.
End Handlers.

End Gestures.

(** ** The camera capture: the crop of [handleCapture] *)

Module Capture.
Import Num.




End Capture.

(** ** The image services: [extractImageFromResponse], [ensureBase64Data] *)

Module Response.
Import Invoker.

(** Truthiness of an optional string: [undefined] and [""] are falsy. *)
Definition truthy (o : option string) : bool :=
  match o with
  | Some s => negb (String.eqb s "")
  | None => false
  end.

(** What [extractImageFromResponse] reads of a [GenerateContentResponse]:
    [promptFeedback?.blockReason], and of the candidates their
    [finishReason] and [content?.parts] with the [inlineData] of each
    part. *)
Record InlineData := mkInlineData {
  data : option string;
  mimeType : option string
}.

Record Part := mkPart {
  inlineData : option InlineData
}.

Record Candidate := mkCandidate {
  finishReason : option string;
  parts : option (list Part)
}.

Record GenerateContentResponse := mkResponse {
  blockReason : option string;
  candidates : option (list Candidate)
}.

(** [new Error(message)] as the retry loop reads it: no [status], and
    [String(error)] is the message behind ["Error: "]. *)
Definition error (message : string) : JsError :=
  mkJsError None ("Error: " +:+ message).

(** The [for] loop over the parts: the data URL of the first part with
    inline data that is not empty. *)
Fixpoint firstImage (ps : list Part) : option string :=
  match ps with
  | [] => None
  | p :: ps' =>
      match inlineData p with
      | Some d =>
          if truthy (data d)
          then Some ("data:" +:+ (if truthy (mimeType d)
                                  then default "" (mimeType d)
                                  else "image/png")
                     +:+ ";base64," +:+ default "" (data d))
          else firstImage ps'
      | None => firstImage ps'
      end
  end.

Definition extractImageFromResponse (response : GenerateContentResponse)
    : Result string :=
  if truthy (blockReason response)
  then Throw (error ("Generation blocked: " +:+ default "" (blockReason response)))
  else
    match head (default [] (candidates response)) with
    | None => Throw (error "No response candidates returned from AI.")
    | Some candidate =>
        if truthy (finishReason candidate)
           && negb (String.eqb (default "" (finishReason candidate)) "STOP")
        then Throw (error ("Generation stopped: "
                           +:+ default "" (finishReason candidate)))
        else
          match firstImage (default [] (parts candidate)) with
          | Some url => Return url
          | None => Throw (error "AI returned text/metadata but no image data.")
          end
    end.

(** [s.split(sep)] for a separator of one character. *)
Fixpoint split (sep : ascii) (s : string) : list string :=
  match s with
  | EmptyString => [EmptyString]
  | String c s' =>
      if Ascii.eqb c sep then EmptyString :: split sep s'
      else match split sep s' with
           | w :: ws => String c w :: ws
           | [] => [String c EmptyString]
           end
  end.

(** What fetching a remote asset and reading it as a data URL gives. *)
Inductive Fetched :=
| Unreachable
| Unreadable (event : JsError)
| DataUrl (res : string).

(** [ensureBase64Data(input)]: the promise's outcome.  [Resolved None]
    is a promise resolved with [undefined], which [split(',')[1]] is on
    a text without a comma. *)
Definition ensureBase64Data (fetch : string -> Fetched) (input : string)
    : Outcome (option string) :=
  if String.prefix "data:" input then Resolved (split "," input !! 1%nat)
  else if String.prefix "http" input then
    match fetch input with
    | Unreachable => Rejected (error "Could not download remote asset.")
    | Unreadable event => Rejected event
    | DataUrl res => Resolved (split "," res !! 1%nat)
    end
  else Resolved (Some input).

(** The operation [generateAsset] and its siblings hand to
    [callGeminiWithRetry]: the request is sent with a client built on the
    key, and the response goes through [extractImageFromResponse]; a
    request that fails and a response that holds no image both reject. *)
Inductive Answer :=
| Answered (response : GenerateContentResponse)
| Failed (e : JsError).

Definition generate (api : string -> Answer) (key : string) : Outcome string :=
  match api key with
  | Answered response =>
      match extractImageFromResponse response with
      | Return url => Resolved url
      | Throw e => Rejected e
      end
  | Failed e => Rejected e
  end.

End Response.

(** ** The wheel zoom of [useCanvasGestures] and its debounced commit *)

Module Wheel.
Import Num Studio Gestures.

(** [Math.sign] *)
Definition mathSign (a : num) : num :=
  match a with
  | Fin q =>
      match (q ?= 0)%Q with
      | Gt => Fin 1
      | Lt => Fin (-1)
      | Eq => Fin 0
      end
  | PInf => Fin 1
  | NInf => Fin (-1)
  | NaN => NaN
  end.

(** What the pending timer of [wheelCommitTimeout] will run: the
    [commitHistory] of the render the wheel event was handled in, which
    is the [commit] of [useStudioState] closed over that render's
    [history] and [historyIndex], applied to that event's [newLayers]. *)
Record Pending := mkPending {
  seenHistory : list (list PlacedLayer);
  seenIndex : nat;
  newLayers : list PlacedLayer
}.

(** The studio state with the timer the hook keeps in its ref. *)
Record Canvas := mkCanvas {
  studio : State;
  wheelCommitTimeout : option Pending
}.

(** [{ ...l, scale: newScale }] *)
Definition scaled (newScale : num) (l : PlacedLayer) : PlacedLayer :=
  mkLayer (uid l) (assetId l) (x l) (y l) newScale (rotation l) (blendMode l).

(** [handleWheel(e)], with [deltaY = e.deltaY]. *)
Definition handleWheel (deltaY : num) (isProcessing : bool) (c : Canvas) : Canvas :=
  match activeLayerId (studio c) with
  | None => c
  | Some id =>
      if String.eqb id "" || isProcessing then c else
      match List.find (has_uid id) (layers (studio c)) with
      | None => c
      | Some layer =>
          let delta := mul (mathSign deltaY) (Fin (-0.1)) in
          let newScale := max (Fin 0.1) (min (Fin 5) (add (scale layer) delta)) in
          let newLayers := on_layer id (scaled newScale) (layers (studio c)) in
          mkCanvas (setLayers newLayers (studio c))
                   (Some (mkPending (history (studio c)) (historyIndex (studio c))
                                    newLayers))
      end
  end.

(** The timer fires, 500 ms after the last wheel event that set it: the
    captured [commit] sets the layers, the history and the cursor from
    what it closed over; the selection is not its to set. *)
Definition fire (c : Canvas) : Canvas :=
  match wheelCommitTimeout c with
  | None => c
  | Some p =>
      mkCanvas (commit (newLayers p)
                  (mkState (layers (studio c)) (activeLayerId (studio c))
                           (seenHistory p) (seenIndex p)))
               None
  end.

(** Calls on the studio state made while the timer is pending. *)
Definition between (calls : list Studio.Call) (c : Canvas) : option Canvas :=
  match steps calls (studio c) with
  | Some s => Some (mkCanvas s (wheelCommitTimeout c))
  | None => None
  end.

End Wheel.

(** ** The keyboard shortcuts: [useKeyboardShortcuts] in the studio screen *)

Module Keyboard.
Import Num Studio.

Record KeyboardEvent := mkKeyboardEvent {
  key : string;
  metaKey : bool;
  ctrlKey : bool;
  shiftKey : bool;
  tagName : string
}.

(** The callbacks a [ShortcutConfig] has, and the call [handleKeyDown]
    makes on it. *)
Record ShortcutConfig := mkShortcutConfig {
  onDelete : bool;
  onUndo : bool;
  onRedo : bool;
  onNudge : bool;
  onDeselect : bool
}.

Inductive Shortcut :=
| Delete
| Undo
| Redo
| Deselect
| Nudge (dx dy : num).

Record Handled := mkHandled {
  defaultPrevented : bool;
  called : option Shortcut
}.

Definition ignored : Handled := mkHandled false None.

(** [case k:] of the [switch (e.key)]. *)
Definition keyIs (k : string) (e : KeyboardEvent) : bool := String.eqb (key e) k.

(** [handleKeyDown(e)] *)
Definition handleKeyDown (config : ShortcutConfig) (e : KeyboardEvent) : Handled :=
  if String.eqb (tagName e) "INPUT" || String.eqb (tagName e) "TEXTAREA"
  then ignored else
  let isCmdOrCtrl := metaKey e || ctrlKey e in
  let step := if shiftKey e then Fin 5 else Fin 0.5 in
  if keyIs "Backspace" e || keyIs "Delete" e then
    if onDelete config then mkHandled true (Some Delete) else ignored
  else if keyIs "z" e || keyIs "Z" e then
    if isCmdOrCtrl then
      if shiftKey e
      then mkHandled true (if onRedo config then Some Redo else None)
      else mkHandled true (if onUndo config then Some Undo else None)
    else ignored
  else if keyIs "y" e || keyIs "Y" e then
    if isCmdOrCtrl
    then mkHandled true (if onRedo config then Some Redo else None)
    else ignored
  else if keyIs "Escape" e then
    if onDeselect config then mkHandled true (Some Deselect) else ignored
  else if keyIs "ArrowUp" e then
    if onNudge config then mkHandled true (Some (Nudge (Fin 0) (neg step)))
    else ignored
  else if keyIs "ArrowDown" e then
    if onNudge config then mkHandled true (Some (Nudge (Fin 0) step))
    else ignored
  else if keyIs "ArrowLeft" e then
    if onNudge config then mkHandled true (Some (Nudge (neg step) (Fin 0)))
    else ignored
  else if keyIs "ArrowRight" e then
    if onNudge config then mkHandled true (Some (Nudge step (Fin 0)))
    else ignored
  else ignored.

(** The config of the studio screen: all five callbacks. *)
Definition studioConfig : ShortcutConfig := mkShortcutConfig true true true true true.

(** The updates of [onNudge]. *)
Definition nudged (l : PlacedLayer) (dx dy : num) : Updates :=
  mkUpdates None None
    (Some (max (Fin 0) (min (Fin 100) (add (x l) dx))))
    (Some (max (Fin 0) (min (Fin 100) (add (y l) dy))))
    None None None.

(** The callbacks of the studio screen, on the state of
    [useStudioState]. *)
Definition run (c : Shortcut) (s : State) : option State :=
  match c with
  | Delete =>
      match activeLayerId s with
      | Some id => if String.eqb id "" then Some s else Some (removeLayer id s)
      | None => Some s
      end
  | Undo => if canUndo s then undo s else Some s
  | Redo => if canRedo s then redo s else Some s
  | Deselect => Some (setActiveLayerId None s)
  | Nudge dx dy =>
      match activeLayerId s with
      | Some id =>
          if String.eqb id "" then Some s else
          match List.find (has_uid id) (layers s) with
          | Some l => Some (updateLayer id (nudged l dx dy) s)
          | None => Some s
          end
      | None => Some s
      end
  end.

(** A key press in the studio screen.  The listener is installed while
    [enabled] ([!isProcessing && !isAiCommanding]). *)
Definition keydown (enabled : bool) (e : KeyboardEvent) (s : State) : option State :=
  if enabled then
    match called (handleKeyDown studioConfig e) with
    | Some c => run c s
    | None => Some s
    end
  else Some s.

End Keyboard.

(** ** Credits: the global state, the profile store, a generation *)

Module Credits.

Inductive TransactionType := purchase | reward | spend | adjustment.

(** A [TransactionRecord] without its [id], which is drawn at random. *)
Record TransactionRecord := mkTransaction {
  amount : Z;
  type : TransactionType;
  description : string;
  timestamp : Z
}.

(** The two items [adjustCredits] keeps for a user in [AsyncStorage],
    as [updateObject] reads them: [None] is an item that is missing or
    does not parse; the profile is the number under [credits]. *)
Record Store := mkStore {
  profile : option Z;
  transactions : option (list TransactionRecord)
}.

(** [FirestoreService.getProfile]: the credits of the profile it
    returns. *)
Definition getProfile (st : Store) : Z := default 3 (profile st).

(** [FirestoreService.adjustCredits(userId, amount, type, description)] *)
Definition adjustCredits (now : Z) (amount : Z) (type : TransactionType)
    (description : string) (st : Store) : Store :=
  mkStore (Some (default 3 (profile st) + amount))
          (Some (mkTransaction amount type description now
                 :: default [] (transactions st))).

(** The global state: [state.credits], whether a user is signed in, and
    that user's items in the store. *)
Record App := mkApp {
  credits : Z;
  user : bool;
  store : Store
}.

(** The hydration effect for a signed-in user: [HYDRATE_SUCCESS] with
    [profile?.credits ?? 3]. *)
Definition hydrate (a : App) : App :=
  if user a then mkApp (getProfile (store a)) (user a) (store a)
  else mkApp 3 (user a) (store a).

(** [addCredits] and [spendCredits] as a render creates them: the
    callbacks close over that render's [state.credits], here [seen], and
    dispatch [SET_CREDITS] with a value computed from it. *)
Definition addCredits (seen : Z) (now : Z) (amount : Z) (a : App) : App :=
  mkApp (seen + amount) (user a)
        (if user a
         then adjustCredits now amount purchase "Reward/Purchase" (store a)
         else store a).

Definition spendCredits (seen : Z) (now : Z) (amount : Z) (a : App) : bool * App :=
  if amount <=? seen then
    (true,
     mkApp (seen - amount) (user a)
           (if user a
            then adjustCredits now (- amount) spend "Generation Cost" (store a)
            else store a))
  else (false, a).

(** What [handleGenerate] of the studio screen does to the credits once
    a product and a layer are in place.  The handler belongs to one
    render and uses that render's [spendCredits] and [addCredits];
    [generated] tells whether [generateMockup] resolved. *)
Definition handleGenerate (generated : bool) (spentAt refundedAt : Z) (a : App) : App :=
  let seen := credits a in
  let (ok, a1) := spendCredits seen spentAt 1 a in
  if ok then
    if generated then a1 else addCredits seen refundedAt 1 a1
  else a.

End Credits.

(** ** The library: assets and mockups in the global state and in the store *)

Module Library.

Section Items.
(** An [Asset] or a [GeneratedMockup]; the functions below read only
    its [id]. *)
Context {A : Type} (id : A -> string).

(** The updater of [FirestoreService.saveAsset] and of [saveMockup], on
    the list [updateObject] read ([None]: no item, or one that does not
    parse).  [StorageService.uploadImage] returns the data URL it is
    given, so the item is stored as it came. *)
Definition saveItem (item : A) (stored : option (list A)) : list A :=
  let currentList := default [] stored in
  match list_find (fun a => id a = id item) currentList with
  | Some (idx, _) => <[idx := item]> currentList
  | None => item :: currentList
  end.

(** The updater of [deleteAsset] and of [deleteMockup]. *)
Definition deleteItem (itemId : string) (stored : option (list A)) : list A :=
  List.filter (fun a => negb (String.eqb (id a) itemId)) (default [] stored).

(** [getList], behind [getAssets] and [getMockups]. *)
Definition getList (stored : option (list A)) : list A := default [] stored.

(** The cases of [appReducer] on the two lists. *)
Definition ADD_ASSET (payload : A) (assets : list A) : list A := payload :: assets.

Definition ADD_MOCKUP (payload : A) (savedMockups : list A) : list A :=
  if existsb (fun m => String.eqb (id m) (id payload)) savedMockups
  then map (fun m => if String.eqb (id m) (id payload) then payload else m)
           savedMockups
  else payload :: savedMockups.

Definition REMOVE_MOCKUP (payload : string) (savedMockups : list A) : list A :=
  List.filter (fun m => negb (String.eqb (id m) payload)) savedMockups.
End Items.

Section Provider.
Context {Asset Mockup : Type} (assetId : Asset -> string) (mockupId : Mockup -> string).

(** The two lists of the global state, whether a user is signed in, and
    that user's two lists in the store. *)
Record Lib := mkLib {
  assets : list Asset;
  savedMockups : list Mockup;
  user : bool;
  storedAssets : option (list Asset);
  storedMockups : option (list Mockup)
}.

(** The action wrappers of [GlobalStateProvider]. *)
Definition addAsset (a : Asset) (l : Lib) : Lib :=
  mkLib (ADD_ASSET a (assets l)) (savedMockups l) (user l)
        (if user l then Some (saveItem assetId a (storedAssets l))
         else storedAssets l)
        (storedMockups l).

Definition saveMockup (m : Mockup) (l : Lib) : Lib :=
  mkLib (assets l) (ADD_MOCKUP mockupId m (savedMockups l)) (user l)
        (storedAssets l)
        (if user l then Some (saveItem mockupId m (storedMockups l))
         else storedMockups l).

Definition deleteMockup (i : string) (l : Lib) : Lib :=
  mkLib (assets l) (REMOVE_MOCKUP mockupId i (savedMockups l)) (user l)
        (storedAssets l)
        (if user l then Some (deleteItem mockupId i (storedMockups l))
         else storedMockups l).

(** [loadTemplates], over the list [DEMO_ASSETS]. *)
Definition loadTemplates (DEMO_ASSETS : list Asset) (l : Lib) : Lib :=
  foldl (fun l asset => addAsset asset l) l DEMO_ASSETS.

(** The calls on the mockup list, and a run of them. *)
Inductive MockupCall :=
| SaveMockup (m : Mockup)
| DeleteMockup (i : string).

Definition call (l : Lib) (c : MockupCall) : Lib :=
  match c with
  | SaveMockup m => saveMockup m l
  | DeleteMockup i => deleteMockup i l
  end.
End Provider.

End Library.

(** * Properties *)

(** ** Sorting *)

Section SortFacts.
Context {A : Type} (cmp : A -> A -> Z).

Lemma insert_sorted_perm (a : A) (l : list A) :
  JS.insert_sorted cmp a l ≡ₚ a :: l.
Proof.
  induction l as [|b l IH]; simpl; [done|].
  destruct (cmp a b <=? 0); [done|].
  rewrite IH. apply Permutation_swap.
Qed.

Lemma sort_perm (l : list A) : JS.sort cmp l ≡ₚ l.
Proof.
  induction l as [|a l IH]; simpl; [done|].
  rewrite insert_sorted_perm. by f_equiv.
Qed.

Lemma sort_nil_inv (l : list A) : JS.sort cmp l = [] -> l = [].
Proof.
  intros H. apply Permutation_nil_r. rewrite <- H. symmetry. apply sort_perm.
Qed.

Lemma sort_head_elem (l : list A) (a : A) (r : list A) :
  JS.sort cmp l = a :: r -> a ∈ l.
Proof.
  intros H. rewrite <- (sort_perm l), H. apply list_elem_of_here.
Qed.
End SortFacts.

(** ** The credential pool *)

Module KeyPoolFacts.
Import KeyPool.

Lemma isOnCooldown_key now k : key (snd (isOnCooldown now k)) = key k.
Proof.
  unfold isOnCooldown.
  destruct (circuitState k); repeat case_match; reflexivity.
Qed.

Lemma checked_names now ks : map key (map snd (checked now ks)) = map key ks.
Proof.
  unfold checked. rewrite !map_map. apply map_ext. intros k.
  apply isOnCooldown_key.
Qed.

Lemma loadState_names s : names (loadState s) = names s.
Proof.
  unfold loadState, names.
  destruct (storage s) as [|[data|]]; try reflexivity. simpl.
  rewrite map_map. apply map_ext. intros k.
  destruct (data !! key k); reflexivity.
Qed.

Lemma loadState_storage s : storage (loadState s) = storage s.
Proof. destruct s as [ks [|[data|]]]; reflexivity. Qed.

Lemma saveState_keys s : keys (saveState s) = keys s.
Proof. destruct s as [ks [|item]]; reflexivity. Qed.

Lemma insert_names (ks : list KeyState) i k k' :
  ks !! i = Some k -> key k' = key k ->
  map key (<[i := k']> ks) = map key ks.
Proof.
  intros Hi Hk. rewrite list_fmap_insert, Hk.
  apply list_insert_id. rewrite list_lookup_fmap, Hi. reflexivity.
Qed.

Lemma find_key_Some name ks i k :
  find_key name ks = Some (i, k) -> ks !! i = Some k /\ key k = name.
Proof.
  unfold find_key. intros H. apply list_find_Some in H. tauto.
Qed.

Lemma find_key_None name ks :
  find_key name ks = None <-> forall k, k ∈ ks -> key k <> name.
Proof.
  unfold find_key. rewrite list_find_None, Forall_forall. reflexivity.
Qed.

(** The [candidates] array holds, with its position, each record whose
    cool-down check answered [false], as the check left it. *)
Lemma elem_of_candidates now ks i k :
  (i, k) ∈ candidates now ks <->
  exists k0, ks !! i = Some k0 /\ isOnCooldown now k0 = (false, k).
Proof.
  unfold candidates, checked. rewrite list_elem_of_omap. split.
  - intros [[j [c k1]] [Hin Hsel]].
    apply elem_of_lookup_imap in Hin as (j' & ck & Heq & Hlk).
    destruct c; simplify_eq.
    rewrite list_lookup_fmap in Hlk.
    destruct (ks !! j') as [k0|] eqn:Hk0; simplify_eq/=.
    by exists k0.
  - intros (k0 & Hk0 & Hc).
    exists (i, (false, k)). split; [|reflexivity].
    apply elem_of_lookup_imap. exists i, (false, k). split; [reflexivity|].
    rewrite list_lookup_fmap, Hk0. simpl. by rewrite Hc.
Qed.

Lemma getKey_names now s : names (snd (getKey now s)) = names s.
Proof.
  unfold getKey.
  destruct (keys (loadState s)) as [|k0 ks0] eqn:Hks.
  - simpl. apply loadState_names.
  - rewrite <- Hks.
    destruct (JS.sort byHealth (candidates now (keys (loadState s))))
      as [|[i sel] r] eqn:Hsort.
    + simpl. unfold names. simpl. rewrite checked_names. apply loadState_names.
    + simpl. unfold names. rewrite saveState_keys. simpl.
      apply sort_head_elem in Hsort.
      apply elem_of_candidates in Hsort as (k1 & Hk1 & Hc).
      rewrite (insert_names _ i (snd (isOnCooldown now k1))).
      * rewrite checked_names. apply loadState_names.
      * unfold checked. rewrite list_lookup_fmap, list_lookup_fmap, Hk1. reflexivity.
      * rewrite Hc. reflexivity.
Qed.

Lemma markSuccess_names name s : names (markSuccess name s) = names s.
Proof.
  unfold markSuccess. destruct (find_key name (keys s)) as [[i k]|] eqn:Hf; [|done].
  apply find_key_Some in Hf as [Hi _].
  unfold names. rewrite saveState_keys. simpl.
  by apply (insert_names _ i k).
Qed.

Lemma failed_key q now k : key (failed q now k) = key k.
Proof. unfold failed. repeat case_match; reflexivity. Qed.

Lemma markFailed_names name q now s : names (markFailed name q now s) = names s.
Proof.
  unfold markFailed. destruct (find_key name (keys s)) as [[i k]|] eqn:Hf; [|done].
  apply find_key_Some in Hf as [Hi _].
  unfold names. rewrite saveState_keys. simpl.
  apply (insert_names _ i k); [done|apply failed_key].
Qed.

Lemma onStorageEvent_names item s : names (onStorageEvent item s) = names s.
Proof.
  unfold onStorageEvent. destruct (storage s); [done|].
  rewrite loadState_names. reflexivity.
Qed.

Lemma getPoolStatus_names now s : names (snd (getPoolStatus now s)) = names s.
Proof. unfold getPoolStatus, names. simpl. apply checked_names. Qed.

Lemma wf_names s s' : names s' = names s -> wf s -> wf s'.
Proof.
  unfold wf, names. intros Hn [Hnd Hne]. split.
  - by rewrite Hn.
  - rewrite Forall_forall in *. intros k Hk.
    assert (key k ∈ map key (keys s)) as Hin.
    { rewrite <- Hn. apply list_elem_of_fmap. by exists k. }
    apply list_elem_of_fmap in Hin as (k' & -> & Hk'). by apply Hne.
Qed.

Lemma uniq_spec seen l :
  NoDup (JS.uniq seen l) /\
  forall a, a ∈ JS.uniq seen l <-> a ∈ l /\ a ∉ seen.
Proof.
  revert seen. induction l as [|b l IH]; intros seen; simpl.
  - split; [constructor|]. intros a. rewrite elem_of_nil. tauto.
  - case_bool_decide as Hb.
    + destruct (IH seen) as [Hnd Hin]. split; [done|].
      intros a. rewrite Hin, elem_of_cons. split; [tauto|].
      intros [[->|Ha] Hs]; tauto.
    + destruct (IH (b :: seen)) as [Hnd Hin]. split.
      * constructor; [|done]. rewrite Hin, elem_of_cons. tauto.
      * intros a. rewrite elem_of_cons, Hin, !elem_of_cons.
        destruct (decide (a = b)) as [->|Hab]; tauto.
Qed.

(** The constructor builds a well-formed pool. *)
Lemma new_wf initialKeys st : wf (new initialKeys st).
Proof.
  unfold new. eapply wf_names; [apply loadState_names|].
  unfold wf. simpl. rewrite map_map. simpl. rewrite map_id. split.
  - apply NoDup_ListNoDup, List.NoDup_filter, NoDup_ListNoDup, uniq_spec.
  - rewrite Forall_forall. intros k Hk.
    apply list_elem_of_fmap in Hk as (n & -> & Hn). simpl.
    apply list_elem_of_In, filter_In in Hn as [_ Hn].
    intros ->. discriminate.
Qed.

End KeyPoolFacts.

Module KeyPoolSelect.
Import KeyPool KeyPoolFacts.

Lemma getKey_in_names now s name :
  fst (getKey now s) = Some name -> name ∈ names s.
Proof.
  unfold getKey.
  destruct (keys (loadState s)) as [|k0 ks0] eqn:Hks; [discriminate|].
  rewrite <- Hks. rewrite <- (loadState_names s). unfold names.
  destruct (JS.sort byHealth (candidates now (keys (loadState s))))
    as [|[i sel] r] eqn:Hsort; simpl.
  - destruct (JS.sort byFailedAt (map snd (checked now (keys (loadState s)))))
      as [|k r] eqn:Hs2; [discriminate|].
    apply sort_head_elem in Hs2.
    unfold nonempty_or_null. destruct (String.eqb (key k) ""); [discriminate|].
    intros [= <-]. rewrite <- (checked_names now).
    apply list_elem_of_fmap. by exists k.
  - intros [= <-]. apply sort_head_elem in Hsort.
    apply elem_of_candidates in Hsort as (k1 & Hk1 & Hc).
    replace (key sel) with (key k1)
      by (rewrite <- (isOnCooldown_key now k1), Hc; reflexivity).
    apply list_elem_of_fmap. exists k1. split; [done|].
    by apply list_elem_of_lookup_2 in Hk1.
Qed.

Lemma getKey_is_Some now s :
  Forall (fun k => key k <> ""%string) (keys s) -> keys s <> [] ->
  exists name, fst (getKey now s) = Some name.
Proof.
  intros Hne Hnil. unfold getKey.
  assert (Forall (fun n => n <> ""%string) (names (loadState s))) as Hne'.
  { rewrite loadState_names. unfold names. by rewrite Forall_fmap. }
  destruct (keys (loadState s)) as [|k0 ks0] eqn:Hks.
  { apply (f_equal (map key)) in Hks. fold (names (loadState s)) in Hks.
    rewrite loadState_names in Hks. unfold names in Hks.
    destruct (keys s); [done|discriminate]. }
  rewrite <- Hks.
  destruct (JS.sort byHealth (candidates now (keys (loadState s))))
    as [|[i sel] r] eqn:Hsort; simpl; [|by eexists].
  destruct (JS.sort byFailedAt (map snd (checked now (keys (loadState s)))))
    as [|k r] eqn:Hs2.
  { apply sort_nil_inv in Hs2. rewrite Hks in Hs2. discriminate. }
  apply sort_head_elem in Hs2.
  assert (key k ∈ names (loadState s)) as Hin.
  { unfold names. rewrite <- (checked_names now).
    apply list_elem_of_fmap. by exists k. }
  rewrite Forall_forall in Hne'. apply Hne' in Hin.
  unfold nonempty_or_null.
  destruct (String.eqb (key k) "") eqn:E; [|by eexists].
  by apply String.eqb_eq in E.
Qed.

Lemma names_new_single (k : string) st : k <> ""%string -> names (new [k] st) = [k].
Proof.
  intros Hk. unfold new. rewrite loadState_names. unfold names. simpl.
  destruct (String.eqb k "") eqn:E; [|reflexivity].
  by apply String.eqb_eq in E.
Qed.

End KeyPoolSelect.

(** C10: [markSuccess] and [markFailed] on a key that no record of the pool
    carries return the pool as it was: every record and the stored state
    are unchanged. *)
Theorem C10_unknown_key_leaves_pool_unchanged
    (s : KeyPool.Pool) (name : string) (isQuota : bool) (now : Z) :
  (forall k, k ∈ KeyPool.keys s -> KeyPool.key k <> name) ->
  KeyPool.markSuccess name s = s /\ KeyPool.markFailed name isQuota now s = s.
Proof.
  intros H. apply KeyPoolFacts.find_key_None in H.
  unfold KeyPool.markSuccess, KeyPool.markFailed. rewrite H. split; reflexivity.
Qed.

Lemma C10_witness :
  let s := KeyPool.new ["key1"; "key2"]%string (KeyPool.Slot None) in
  KeyPool.markSuccess "other" s = s /\ KeyPool.markFailed "other" true 1000 s = s.
Proof.
  apply C10_unknown_key_leaves_pool_unchanged.
  intros k Hk. vm_compute in Hk.
  repeat (apply elem_of_cons in Hk as [->|Hk]; [discriminate|]).
  by apply elem_of_nil in Hk.
Defined.

(** Every pool a manager can be in is well formed. *)
Lemma run_wf cs s : KeyPool.wf s -> KeyPool.wf (KeyPool.run cs s).
Proof.
  unfold KeyPool.run. revert s. induction cs as [|c cs IH]; intros s Hs; simpl; [done|].
  apply IH. eapply KeyPoolFacts.wf_names; [|exact Hs].
  destruct c; simpl.
  - apply KeyPoolFacts.getKey_names.
  - apply KeyPoolFacts.getPoolStatus_names.
  - apply KeyPoolFacts.markSuccess_names.
  - apply KeyPoolFacts.markFailed_names.
  - apply KeyPoolFacts.onStorageEvent_names.
Qed.

Lemma getKey_null_iff s now :
  KeyPool.wf s ->
  fst (KeyPool.getKey now s) = None <-> KeyPool.getKeyCount s = 0%nat.
Proof.
  intros [_ Hne]. unfold KeyPool.getKeyCount. split.
  - intros Hnone. destruct (decide (KeyPool.keys s = [])) as [->|Hks]; [done|].
    destruct (KeyPoolSelect.getKey_is_Some now s Hne Hks) as [n Hn].
    congruence.
  - intros Hlen. apply nil_length_inv in Hlen.
    destruct (fst (KeyPool.getKey now s)) as [n|] eqn:Hn; [|done].
    apply KeyPoolSelect.getKey_in_names in Hn.
    unfold KeyPool.names in Hn. rewrite Hlen in Hn.
    by apply elem_of_nil in Hn.
Qed.

(** C2: in every state a manager can reach from its construction (any
    configured keys, any storage content, any run of calls and storage
    events), [getKey] returns [null] exactly when the pool has no
    credentials; and on a pool of the single credential [k], [getKey]
    right after [markFailed(k, true)] returns [k]. *)
Theorem C2_getKey_null_iff_pool_empty :
  (forall initialKeys st cs now,
     let s := KeyPool.run cs (KeyPool.new initialKeys st) in
     fst (KeyPool.getKey now s) = None <-> KeyPool.getKeyCount s = 0%nat) /\
  (forall (k : string) st t now, k <> ""%string ->
     fst (KeyPool.getKey now
            (KeyPool.markFailed k true t (KeyPool.new [k] st))) = Some k).
Proof.
  split.
  - intros initialKeys st cs now s. apply getKey_null_iff.
    apply run_wf, KeyPoolFacts.new_wf.
  - intros k st t now Hk.
    set (s := KeyPool.markFailed k true t (KeyPool.new [k] st)).
    assert (KeyPool.names s = [k]) as Hnames.
    { unfold s. rewrite KeyPoolFacts.markFailed_names.
      by apply KeyPoolSelect.names_new_single. }
    assert (KeyPool.wf s) as [_ Hne].
    { eapply KeyPoolFacts.wf_names; [|apply (KeyPoolFacts.new_wf [k] st)].
      apply KeyPoolFacts.markFailed_names. }
    destruct (KeyPoolSelect.getKey_is_Some now s Hne) as [n Hn].
    { unfold KeyPool.names in Hnames. destruct (KeyPool.keys s); [discriminate|done]. }
    rewrite Hn. f_equal.
    apply KeyPoolSelect.getKey_in_names in Hn. rewrite Hnames in Hn.
    by apply list_elem_of_singleton in Hn.
Qed.

Lemma C2_witness :
  fst (KeyPool.getKey 1000
         (KeyPool.markFailed "singleKey" true 1000
            (KeyPool.new ["singleKey"%string] (KeyPool.Slot None))))
  = Some "singleKey"%string.
Proof.
  apply (proj2 C2_getKey_null_iff_pool_empty). discriminate.
Defined.

(** ** Persistence: what [loadState] reads back *)

Module KeyPoolStore.
Import KeyPool KeyPoolFacts.

Lemma snapshot_skip (ks : list KeyState) (acc : gmap string Persisted) name :
  name ∉ map key ks ->
  foldl (fun acc k => <[key k := persist k]> acc) acc ks !! name = acc !! name.
Proof.
  revert acc. induction ks as [|k ks IH]; intros acc Hn; simpl; [done|].
  simpl in Hn. apply not_elem_of_cons in Hn as [Hne Hn].
  rewrite IH by done. by rewrite lookup_insert_ne.
Qed.

Lemma snapshot_lookup (ks : list KeyState) k :
  NoDup (map key ks) -> k ∈ ks -> snapshot ks !! key k = Some (persist k).
Proof.
  unfold snapshot. generalize (∅ : gmap string Persisted).
  induction ks as [|k0 ks IH]; intros acc Hnd Hin; simpl.
  - by apply elem_of_nil in Hin.
  - simpl in Hnd. apply NoDup_cons in Hnd as [Hk0 Hnd].
    apply elem_of_cons in Hin as [->|Hin].
    + rewrite snapshot_skip by done. apply lookup_insert_eq.
    + by apply IH.
Qed.

Lemma assign_persist k : assign k (persist k) = k.
Proof. by destruct k. Qed.

(** A pool that has just been saved reads itself back. *)
Lemma loadState_saveState ks st :
  NoDup (map key ks) ->
  loadState (saveState (mkPool ks st)) = saveState (mkPool ks st).
Proof.
  intros Hnd. destruct st as [|item]; [reflexivity|].
  unfold saveState, loadState. simpl. f_equal.
  transitivity (map id ks); [|apply map_id].
  apply map_ext_in. intros k Hk. apply list_elem_of_In in Hk.
  rewrite (snapshot_lookup ks k Hnd Hk). apply assign_persist.
Qed.

Lemma loadState_idem s : loadState (loadState s) = loadState s.
Proof.
  destruct s as [ks [|[data|]]]; try reflexivity.
  unfold loadState. simpl. f_equal. rewrite map_map.
  apply map_ext. intros k.
  destruct (data !! key k) as [p|] eqn:Hp; simpl; rewrite Hp; [|done].
  by destruct k, p as [[?|] [?|] [?|] [?|] [?|] [?|]].
Qed.

Lemma isOnCooldown_true now k k' : isOnCooldown now k = (true, k') -> k' = k.
Proof.
  unfold isOnCooldown. destruct (circuitState k); repeat case_match; congruence.
Qed.

Lemma candidates_nil now ks :
  candidates now ks = [] -> map snd (checked now ks) = ks.
Proof.
  intros Hnil. unfold checked. rewrite map_map.
  transitivity (map id ks); [|apply map_id].
  apply map_ext_in. intros k Hk. apply list_elem_of_In in Hk.
  apply list_elem_of_lookup in Hk as [i Hi].
  destruct (isOnCooldown now k) as [[|] k'] eqn:Hc; simpl.
  - by apply isOnCooldown_true in Hc.
  - assert ((i, k') ∈ candidates now ks) as Hin
      by (apply elem_of_candidates; eauto).
    rewrite Hnil in Hin. by apply elem_of_nil in Hin.
Qed.

Lemma pool_eta s : mkPool (keys s) (storage s) = s.
Proof. by destruct s. Qed.

(** [getKey] leaves a pool that reads itself back. *)
Lemma loadState_getKey now s :
  wf s -> loadState (snd (getKey now s)) = snd (getKey now s).
Proof.
  intros [Hnd _]. unfold getKey.
  destruct (keys (loadState s)) as [|k0 ks0] eqn:Hks.
  { simpl. apply loadState_idem. }
  rewrite <- Hks.
  destruct (JS.sort byHealth (candidates now (keys (loadState s))))
    as [|[i sel] r] eqn:Hsort; simpl.
  - apply sort_nil_inv in Hsort. rewrite (candidates_nil _ _ Hsort).
    rewrite pool_eta. apply loadState_idem.
  - apply loadState_saveState.
    apply sort_head_elem in Hsort.
    apply elem_of_candidates in Hsort as (k1 & Hk1 & Hc).
    rewrite (insert_names _ i (snd (isOnCooldown now k1))).
    + rewrite checked_names. fold (names (loadState s)).
      by rewrite loadState_names.
    + unfold checked. by rewrite !list_lookup_fmap, Hk1.
    + by rewrite Hc.
Qed.

(** Under distinct keys the record of a name is the one element that
    carries it. *)
Lemma record_Some name s k :
  NoDup (names s) -> record name s = Some k <-> k ∈ keys s /\ key k = name.
Proof.
  intros Hnd. unfold record, find_key. split.
  - destruct (list_find _ _) as [[i k']|] eqn:Hf; [|discriminate].
    intros [= <-]. apply list_find_Some in Hf as (Hi & Hk & _).
    split; [by apply list_elem_of_lookup_2 in Hi|done].
  - intros [Hin Hk]. apply list_elem_of_lookup in Hin as [i Hi].
    destruct (list_find (fun x => key x = name) (keys s)) as [[j k']|] eqn:Hf.
    + apply list_find_Some in Hf as (Hj & Hk' & _). simpl. f_equal.
      assert (i = j) as ->; [|congruence].
      eapply (NoDup_lookup _ _ _ name Hnd); unfold names;
        rewrite list_lookup_fmap; [rewrite Hi|rewrite Hj]; simpl; congruence.
    + apply list_find_None in Hf. rewrite Forall_forall in Hf.
      exfalso. apply (Hf k); [by apply list_elem_of_lookup_2 in Hi|done].
Qed.

(** The elements of an array after one of them has been replaced by a
    record of the same key. *)
Lemma elem_of_insert_same_key (ks : list KeyState) i k k' x :
  NoDup (map key ks) -> ks !! i = Some k -> key k' = key k ->
  x ∈ <[i := k']> ks <-> x = k' \/ (x ∈ ks /\ key x <> key k).
Proof.
  intros Hnd Hi Hk. split.
  - intros Hx. apply list_elem_of_lookup in Hx as [j Hj].
    destruct (decide (i = j)) as [->|Hne].
    + rewrite list_lookup_insert_eq in Hj by (by apply lookup_lt_Some in Hi).
      left. congruence.
    + rewrite list_lookup_insert_ne in Hj by done. right.
      split; [by apply list_elem_of_lookup_2 in Hj|].
      intros Heq. apply Hne.
      eapply (NoDup_lookup _ _ _ (key k) Hnd);
        rewrite list_lookup_fmap; [rewrite Hi|rewrite Hj]; simpl; congruence.
  - intros [->|[Hx Hne]].
    + apply list_elem_of_insert. by apply lookup_lt_Some in Hi.
    + apply list_elem_of_lookup in Hx as [j Hj].
      apply list_elem_of_lookup. exists j.
      rewrite list_lookup_insert_ne; [done|]. intros ->. congruence.
Qed.

Lemma elem_of_eligible now s name :
  name ∈ eligible now s <->
  exists k, k ∈ keys (loadState s) /\ key k = name /\ fst (isOnCooldown now k) = false.
Proof.
  unfold eligible. rewrite list_elem_of_fmap. split.
  - intros [[i k'] [-> Hin]]. apply elem_of_candidates in Hin as (k & Hk & Hc).
    exists k. split; [by apply list_elem_of_lookup_2 in Hk|].
    rewrite <- (isOnCooldown_key now k), Hc. done.
  - intros (k & Hin & <- & Hc). apply list_elem_of_lookup in Hin as [i Hi].
    exists (i, snd (isOnCooldown now k)). split.
    + simpl. by rewrite isOnCooldown_key.
    + apply elem_of_candidates. exists k. split; [done|].
      destruct (isOnCooldown now k); simpl in *; congruence.
Qed.

(** The records [getKey] leaves: each record of the reloaded pool as its
    cool-down check left it, one of them with a fresh [lastUsed]. *)
Lemma getKey_records now s k' :
  k' ∈ keys (snd (getKey now s)) ->
  exists k, k ∈ keys (loadState s) /\
    (k' = snd (isOnCooldown now k) \/
     k' = set_lastUsed now (snd (isOnCooldown now k))).
Proof.
  unfold getKey.
  destruct (keys (loadState s)) as [|k0 ks0] eqn:Hks.
  { simpl. rewrite Hks. intros H. by apply elem_of_nil in H. }
  rewrite <- Hks.
  assert (forall x, x ∈ map snd (checked now (keys (loadState s))) ->
            exists k, k ∈ keys (loadState s) /\ x = snd (isOnCooldown now k)) as Hmap.
  { intros x Hx. unfold checked in Hx. rewrite map_map in Hx.
    apply list_elem_of_fmap in Hx as (k & -> & Hk). eauto. }
  destruct (JS.sort byHealth (candidates now (keys (loadState s))))
    as [|[i sel] r] eqn:Hsort; simpl.
  - intros Hx. apply Hmap in Hx as (k & Hk & ->). eauto.
  - rewrite saveState_keys. simpl. intros Hx.
    apply sort_head_elem in Hsort.
    apply elem_of_candidates in Hsort as (k1 & Hk1 & Hc).
    apply list_elem_of_lookup in Hx as [j Hj].
    destruct (decide (i = j)) as [->|Hne].
    + rewrite list_lookup_insert_eq in Hj.
      * exists k1. split; [by apply list_elem_of_lookup_2 in Hk1|].
        right. rewrite Hc. simpl. congruence.
      * unfold checked. rewrite !length_map. by apply lookup_lt_Some in Hk1.
    + rewrite list_lookup_insert_ne in Hj by done.
      apply list_elem_of_lookup_2, Hmap in Hj as (k & Hk & ->). eauto.
Qed.

End KeyPoolStore.

Module KeyPoolCircuit.
Import KeyPool KeyPoolFacts KeyPoolStore.

Lemma record_find name s k :
  record name s = Some k -> exists i, find_key name (keys s) = Some (i, k).
Proof.
  unfold record. destruct (find_key name (keys s)) as [[i k']|]; [|discriminate].
  intros [= <-]. by exists i.
Qed.

Lemma record_unique name s k x :
  NoDup (names s) -> record name s = Some k -> x ∈ keys s -> key x = name -> x = k.
Proof.
  intros Hnd Hk Hx Hkx.
  assert (record name s = Some x) by (by apply record_Some).
  congruence.
Qed.

(** A feedback call rewrites the record it finds, saves, and leaves a
    pool that reads itself back. *)
Lemma marked_record (f : KeyState -> KeyState) name s i k :
  NoDup (names s) -> (forall x, key (f x) = key x) ->
  find_key name (keys s) = Some (i, k) ->
  let s' := saveState (mkPool (<[i := f k]> (keys s)) (storage s)) in
  names s' = names s /\ record name s' = Some (f k) /\ loadState s' = s'.
Proof.
  intros Hnd Hf Hfind s'. apply find_key_Some in Hfind as [Hi Hk].
  assert (names s' = names s) as Hn.
  { unfold s', names. rewrite saveState_keys. simpl.
    by apply (insert_names _ i k). }
  split; [done|]. split.
  - apply record_Some; [by rewrite Hn|]. unfold s'. rewrite saveState_keys. simpl.
    split; [|by rewrite Hf].
    apply list_elem_of_insert. by apply lookup_lt_Some in Hi.
  - apply loadState_saveState.
    change (NoDup (names (mkPool (<[i:=f k]> (keys s)) (storage s)))).
    unfold names. simpl. by rewrite (insert_names _ i k).
Qed.

Lemma markFailed_record name q T s k :
  NoDup (names s) -> record name s = Some k ->
  let s' := markFailed name q T s in
  names s' = names s /\ record name s' = Some (failed q T k) /\ loadState s' = s'.
Proof.
  intros Hnd Hk. apply record_find in Hk as [i Hi].
  unfold markFailed. rewrite Hi.
  apply (marked_record (failed q T)); [done| |done].
  intros x. apply failed_key.
Qed.

Lemma markSuccess_record name s k :
  NoDup (names s) -> record name s = Some k ->
  let s' := markSuccess name s in
  names s' = names s /\ record name s' = Some (succeeded k) /\ loadState s' = s'.
Proof.
  intros Hnd Hk. apply record_find in Hk as [i Hi].
  unfold markSuccess. rewrite Hi.
  by apply (marked_record succeeded).
Qed.

(** Eligibility of a name in a pool that reads itself back is the
    cool-down answer on its record. *)
Lemma eligible_record now s name k :
  NoDup (names s) -> loadState s = s -> record name s = Some k ->
  name ∈ eligible now s <-> fst (isOnCooldown now k) = false.
Proof.
  intros Hnd Hload Hk. rewrite elem_of_eligible, Hload. split.
  - intros (x & Hx & Hkx & Hc).
    by rewrite <- (record_unique name s k x).
  - intros Hc. apply record_Some in Hk as [Hin Hkey]; [|done]. eauto.
Qed.

Lemma record_exists name s : name ∈ names s -> NoDup (names s) ->
  exists k, record name s = Some k.
Proof.
  intros Hin Hnd. apply list_elem_of_fmap in Hin as (k & -> & Hk).
  exists k. by apply record_Some.
Qed.

(** The record of a name after [getKey]. *)
Lemma getKey_record now s name k :
  NoDup (names s) -> loadState s = s -> record name s = Some k ->
  exists k', record name (snd (getKey now s)) = Some k' /\
    (k' = snd (isOnCooldown now k) \/
     k' = set_lastUsed now (snd (isOnCooldown now k))).
Proof.
  intros Hnd Hload Hk.
  assert (NoDup (names (snd (getKey now s)))) as Hnd' by (by rewrite getKey_names).
  destruct (record_exists name (snd (getKey now s))) as [k' Hk']; [|done|].
  { rewrite getKey_names. apply record_Some in Hk as [Hin <-]; [|done].
    apply list_elem_of_fmap. eauto. }
  exists k'. split; [done|].
  apply record_Some in Hk' as [Hin' Hkey']; [|done].
  apply getKey_records in Hin' as (x & Hx & Hor). rewrite Hload in Hx.
  assert (key x = name) as Hkx.
  { rewrite <- Hkey'. destruct Hor as [-> | ->]; simpl;
      by rewrite isOnCooldown_key. }
  by rewrite <- (record_unique name s k x).
Qed.

(** The record a quota failure leaves. *)
Lemma failed_quota T k :
  failed true T k =
  mkKeyState (key k) (failCount k + 1) (Some T) true OPEN (lastUsed k)
    (successCount k) (totalRequests k + 1)
    (Some (T + (if decide (circuitState k = HALF_OPEN)
                then HALF_OPEN_TEST_DELAY else COOLDOWN_QUOTA))).
Proof.
  unfold failed. destruct (circuitState k); simpl;
    rewrite ?orb_true_r; reflexivity.
Qed.

(** A record that is not OPEN, HALF_OPEN included, is gated by the time
    since its last failure alone: it is a candidate of every [getKey] once
    that window has passed. *)
Lemma eligible_not_open now s name k :
  NoDup (names s) -> loadState s = s -> record name s = Some k ->
  circuitState k <> OPEN ->
  name ∈ eligible now s <->
  JS.truthy (failedAt k)
  && (now - JS.or_zero (failedAt k)
      <? (if isQuotaError k then COOLDOWN_QUOTA else COOLDOWN_TRANSIENT)) = false.
Proof.
  intros Hnd Hload Hk Hc. rewrite (eligible_record now s name k Hnd Hload Hk).
  unfold isOnCooldown. destruct (circuitState k); [|done|];
    by destruct (JS.truthy (failedAt k) && _).
Qed.

End KeyPoolCircuit.

(** C1 (as the code has it): after [markFailed(id, true)] at time [T] the
    credential is OPEN with a recorded retry deadline of [T] plus five
    minutes (one minute, the half-open test delay, when the failure ended
    a HALF_OPEN trial), and it is not among the eligible candidates of
    [getKey] before that deadline.  From the deadline on it is a
    candidate, and the [getKey] that finds it so moves it to HALF_OPEN.  A
    following [markSuccess] closes the circuit and clears the failure
    record, after which it is a candidate at every time. *)
Theorem C1_quota_failure_cooldown
    (s : KeyPool.Pool) (name : string) (k0 : KeyPool.KeyState) (T : Z) :
  KeyPool.wf s -> KeyPool.record name s = Some k0 -> 0 < T ->
  let s1 := KeyPool.markFailed name true T s in
  let deadline :=
    T + (if decide (KeyPool.circuitState k0 = KeyPool.HALF_OPEN)
         then KeyPool.HALF_OPEN_TEST_DELAY else KeyPool.COOLDOWN_QUOTA) in
  (exists k1, KeyPool.record name s1 = Some k1 /\
     KeyPool.circuitState k1 = KeyPool.OPEN /\
     KeyPool.halfOpenTestTime k1 = Some deadline) /\
  (forall now, now < deadline -> name ∉ KeyPool.eligible now s1) /\
  (forall now, deadline <= now ->
     let s2 := snd (KeyPool.getKey now s1) in
     name ∈ KeyPool.eligible now s1 /\
     (exists k2, KeyPool.record name s2 = Some k2 /\
        KeyPool.circuitState k2 = KeyPool.HALF_OPEN) /\
     let s3 := KeyPool.markSuccess name s2 in
     (exists k3, KeyPool.record name s3 = Some k3 /\
        KeyPool.circuitState k3 = KeyPool.CLOSED /\
        KeyPool.failCount k3 = 0 /\ KeyPool.failedAt k3 = None) /\
     (forall t, name ∈ KeyPool.eligible t s3)).
Proof.
  intros [Hnd Hne] Hk0 HT s1 deadline.
  fold (KeyPool.names s) in Hnd.
  destruct (KeyPoolCircuit.markFailed_record name true T s k0 Hnd Hk0)
    as (Hn1 & Hr1 & Hl1). fold s1 in Hn1, Hr1, Hl1.
  rewrite KeyPoolCircuit.failed_quota in Hr1. fold deadline in Hr1.
  set (k1 := KeyPool.mkKeyState _ _ _ _ _ _ _ _ _) in Hr1.
  assert (NoDup (KeyPool.names s1)) as Hnd1 by (by rewrite Hn1).
  assert (0 < deadline) as Hd.
  { unfold deadline, KeyPool.HALF_OPEN_TEST_DELAY, KeyPool.COOLDOWN_QUOTA.
    case_decide; lia. }
  assert (forall now, fst (KeyPool.isOnCooldown now k1) = false <-> deadline <= now)
    as Hcool.
  { intros now. unfold KeyPool.isOnCooldown, k1. simpl.
    destruct (deadline =? 0) eqn:E0; [lia|]. simpl.
    destruct (deadline <=? now) eqn:E; simpl; split; intros; try done; lia. }
  split; [by exists k1|]. split.
  - intros now Hnow Hin.
    apply (KeyPoolCircuit.eligible_record now s1 name k1 Hnd1 Hl1 Hr1) in Hin.
    apply Hcool in Hin. lia.
  - intros now Hnow s2.
    split.
    { apply (KeyPoolCircuit.eligible_record now s1 name k1 Hnd1 Hl1 Hr1).
      by apply Hcool. }
    destruct (KeyPoolCircuit.getKey_record now s1 name k1 Hnd1 Hl1 Hr1)
      as (k2 & Hr2 & Hk2). fold s2 in Hr2.
    assert (NoDup (KeyPool.names s2)) as Hnd2
      by (unfold s2; by rewrite KeyPoolFacts.getKey_names).
    assert (KeyPool.loadState s2 = s2) as Hl2.
    { apply KeyPoolStore.loadState_getKey.
      eapply KeyPoolFacts.wf_names; [exact Hn1|by split]. }
    assert (snd (KeyPool.isOnCooldown now k1) = KeyPool.set_circuit KeyPool.HALF_OPEN k1)
      as Hh.
    { unfold KeyPool.isOnCooldown, k1. simpl.
      destruct (deadline =? 0) eqn:E0; [lia|]. simpl.
      destruct (deadline <=? now) eqn:E; [done|lia]. }
    rewrite Hh in Hk2.
    assert (KeyPool.circuitState k2 = KeyPool.HALF_OPEN /\
            KeyPool.failedAt k2 = Some T /\ KeyPool.isQuotaError k2 = true)
      as (Hc2 & Hf2 & Hq2) by (destruct Hk2 as [-> | ->]; done).
    split; [by exists k2|].
    intros s3.
    destruct (KeyPoolCircuit.markSuccess_record name s2 k2 Hnd2 Hr2)
      as (Hn3 & Hr3 & Hl3). fold s3 in Hn3, Hr3, Hl3.
    split; [by exists (KeyPool.succeeded k2)|].
    intros t.
    apply (KeyPoolCircuit.eligible_record t s3 name (KeyPool.succeeded k2));
      [by rewrite Hn3|done|done|reflexivity].
Qed.

Lemma C1_witness :
  let s1 := KeyPool.markFailed "a" true 1000
              (KeyPool.new ["a"%string] (KeyPool.Slot None)) in
  ("a"%string ∉ KeyPool.eligible 300999 s1) /\
  ("a"%string ∈ KeyPool.eligible 301000 s1).
Proof.
  pose proof (C1_quota_failure_cooldown
                (KeyPool.new ["a"%string] (KeyPool.Slot None)) "a"
                (KeyPool.fresh "a") 1000
                (KeyPoolFacts.new_wf _ _) eq_refl ltac:(lia)) as H.
  destruct H as (_ & Hbefore & Hafter).
  split.
  - apply Hbefore. vm_compute. reflexivity.
  - apply (Hafter 301000). vm_compute. discriminate.
Defined.

(** C1 as the specification states it fails.  A credential that failed
    on quota at 1000 is selected at 301000 (entering HALF_OPEN) and, with
    no success reported, is again an eligible candidate and selected at
    301001: it is not held to one call.  And when it then fails on quota
    at 302000, in HALF_OPEN, its recorded deadline is 362000, one minute
    later: it is excluded at 361999 and eligible at 362000, long before
    five minutes have passed. *)
Lemma C1_counterexample :
  let s1 := KeyPool.markFailed "a" true 1000
              (KeyPool.new ["a"%string] (KeyPool.Slot None)) in
  let s2 := snd (KeyPool.getKey 301000 s1) in
  let s3 := snd (KeyPool.getKey 301001 s2) in
  let s4 := KeyPool.markFailed "a" true 302000 s3 in
  (KeyPool.eligible 301000 s1 = ["a"%string] /\
   fst (KeyPool.getKey 301000 s1) = Some "a"%string /\
   KeyPool.circuitState <$> KeyPool.record "a" s2 = Some KeyPool.HALF_OPEN /\
   KeyPool.eligible 301001 s2 = ["a"%string] /\
   fst (KeyPool.getKey 301001 s2) = Some "a"%string /\
   KeyPool.lastUsed <$> KeyPool.record "a" s3 = Some 301001 /\
   KeyPool.successCount <$> KeyPool.record "a" s3 = Some 0) /\
  (KeyPool.halfOpenTestTime <$> KeyPool.record "a" s4 = Some (Some 362000) /\
   KeyPool.eligible 361999 s4 = [] /\
   KeyPool.eligible 362000 s4 = ["a"%string] /\
   362000 < 302000 + KeyPool.COOLDOWN_QUOTA).
Proof. vm_compute. split_and!; reflexivity. Qed.

(** C4 (as the code has it): when at least one credential is not on
    cool-down, [getKey] stamps the [lastUsed] of the credential it returns
    with the current time and, where a storage exists, writes the state of
    the whole pool to it before it returns. *)
Theorem C4_getKey_stamps_and_saves_a_candidate
    (s : KeyPool.Pool) (now : Z) (name : string) :
  KeyPool.wf s ->
  fst (KeyPool.getKey now s) = Some name ->
  KeyPool.eligible now s <> [] ->
  let s' := snd (KeyPool.getKey now s) in
  (exists k, KeyPool.record name s' = Some k /\ KeyPool.lastUsed k = now) /\
  (KeyPool.storage s <> KeyPool.NoStorage ->
   KeyPool.storage s' = KeyPool.Slot (Some (KeyPool.snapshot (KeyPool.keys s')))).
Proof.
  intros [Hnd _] Hget Hel s'.
  assert (NoDup (KeyPool.names s')) as Hnd'
    by (unfold s'; by rewrite KeyPoolFacts.getKey_names).
  revert Hget Hnd'. unfold s', KeyPool.getKey.
  destruct (KeyPool.keys (KeyPool.loadState s)) as [|k0 ks0] eqn:Hks; [discriminate|].
  rewrite <- Hks.
  destruct (JS.sort KeyPool.byHealth
              (KeyPool.candidates now (KeyPool.keys (KeyPool.loadState s))))
    as [|[i sel] r] eqn:Hsort.
  { apply sort_nil_inv in Hsort. unfold KeyPool.eligible in Hel.
    rewrite Hsort in Hel. done. }
  simpl. intros [= <-] Hnd'.
  apply sort_head_elem in Hsort.
  apply KeyPoolFacts.elem_of_candidates in Hsort as (k1 & Hk1 & Hc).
  split.
  - exists (KeyPool.set_lastUsed now sel). split; [|reflexivity].
    apply KeyPoolStore.record_Some; [done|].
    rewrite KeyPoolFacts.saveState_keys. simpl. split; [|reflexivity].
    apply list_elem_of_insert. unfold KeyPool.checked. rewrite !length_map.
    by apply lookup_lt_Some in Hk1.
  - intros Hst. rewrite <- KeyPoolFacts.loadState_storage in Hst.
    unfold KeyPool.saveState. simpl.
    destruct (KeyPool.storage (KeyPool.loadState s)); [done|reflexivity].
Qed.

Lemma C4_witness :
  let s := KeyPool.new ["key1"; "key2"]%string (KeyPool.Slot None) in
  let s' := snd (KeyPool.getKey 5000 s) in
  (exists k, KeyPool.record "key1" s' = Some k /\ KeyPool.lastUsed k = 5000) /\
  (KeyPool.storage s <> KeyPool.NoStorage ->
   KeyPool.storage s' = KeyPool.Slot (Some (KeyPool.snapshot (KeyPool.keys s')))).
Proof.
  apply (C4_getKey_stamps_and_saves_a_candidate
           (KeyPool.new ["key1"; "key2"]%string (KeyPool.Slot None)) 5000 "key1").
  - apply KeyPoolFacts.new_wf.
  - vm_compute. reflexivity.
  - vm_compute. discriminate.
Defined.

(** C4 as the specification states it fails: with its only credential on
    cool-down [getKey] still returns it, and neither stamps [lastUsed] nor
    writes to the storage. *)
Lemma C4_counterexample :
  let s := KeyPool.markFailed "k" true 1000
             (KeyPool.new ["k"%string] (KeyPool.Slot None)) in
  let s' := snd (KeyPool.getKey 2000 s) in
  fst (KeyPool.getKey 2000 s) = Some "k"%string /\
  KeyPool.lastUsed <$> KeyPool.record "k" s' = Some 0 /\
  KeyPool.storage s' = KeyPool.storage s /\
  (exists m p, KeyPool.storage s' = KeyPool.Slot (Some m) /\
     m !! "k"%string = Some p /\ KeyPool.pLastUsed p = Some 0).
Proof.
  vm_compute. repeat split; try reflexivity.
  eexists _, _. repeat split; reflexivity.
Qed.

(** ** The layer engine *)

Module StudioFacts.
Import Studio.

(** The history [commit] builds ends with the committed snapshot. *)
Lemma nextHistory_snoc h i L :
  exists pre, nextHistory h i L = pre ++ [L].
Proof.
  unfold nextHistory. case_match; [|by eexists].
  destruct (take (i + 1) h) as [|a t] eqn:Ht; simpl in *.
  - unfold HISTORY_LIMIT in *. discriminate.
  - by exists t.
Qed.

(** Committing at the top of a history that ends with [L1] gives a history
    that ends with [L1] and the new snapshot. *)
Lemma nextHistory_top pre L1 L2 :
  exists pre',
    nextHistory (pre ++ [L1]) (length (pre ++ [L1]) - 1) L2 = pre' ++ [L1; L2].
Proof.
  unfold nextHistory.
  replace (length (pre ++ [L1]) - 1 + 1)%nat with (length (pre ++ [L1]))
    by (rewrite length_app; simpl; lia).
  rewrite firstn_all, <- app_assoc. simpl.
  case_match; [|by eexists].
  destruct pre as [|a t]; simpl in *.
  - unfold HISTORY_LIMIT in *. discriminate.
  - by exists t.
Qed.

Lemma nextHistory_length h i L :
  (length h <= HISTORY_LIMIT)%nat ->
  (1 <= length (nextHistory h i L) <= HISTORY_LIMIT)%nat.
Proof.
  unfold nextHistory, HISTORY_LIMIT. intros Hh.
  assert (length (take (i + 1) h ++ [L]) <= 20 + 1)%nat as Hlen.
  { rewrite length_app, length_take. simpl. lia. }
  assert (1 <= length (take (i + 1) h ++ [L]))%nat as Hpos.
  { rewrite length_app. simpl. lia. }
  destruct (20 <? length (take (i + 1) h ++ [L]))%nat eqn:E.
  - apply Nat.ltb_lt in E. rewrite length_tl. lia.
  - apply Nat.ltb_ge in E. lia.
Qed.

Lemma init_inv ls : inv (init ls).
Proof. unfold inv, init, HISTORY_LIMIT. simpl. lia. Qed.

Lemma commit_inv ls s : inv s -> inv (commit ls s).
Proof.
  intros [_ Hlen]. unfold inv, commit. simpl.
  pose proof (nextHistory_length (history s) (historyIndex s) ls Hlen). lia.
Qed.

Lemma setLayers_inv ls s : inv s -> inv (setLayers ls s).
Proof. done. Qed.

Lemma setActiveLayerId_inv a s : inv s -> inv (setActiveLayerId a s).
Proof. done. Qed.

Lemma undo_inv s : inv s -> exists s', undo s = Some s' /\ inv s'.
Proof.
  intros [Hi Hlen]. unfold undo.
  destruct (0 <? historyIndex s)%nat eqn:E; [|by exists s].
  destruct (lookup_lt_is_Some_2 (history s) (historyIndex s - 1)) as [prev Hprev];
    [lia|].
  rewrite Hprev. eexists. split; [reflexivity|].
  unfold inv. simpl. lia.
Qed.

Lemma redo_inv s : inv s -> exists s', redo s = Some s' /\ inv s'.
Proof.
  intros [Hi Hlen]. unfold redo.
  destruct (historyIndex s <? length (history s) - 1)%nat eqn:E; [|by exists s].
  apply Nat.ltb_lt in E.
  destruct (lookup_lt_is_Some_2 (history s) (historyIndex s + 1)) as [next Hnext];
    [lia|].
  rewrite Hnext. eexists. split; [reflexivity|].
  unfold inv. simpl. lia.
Qed.

Lemma reorderLayer_inv id d s : inv s -> inv (reorderLayer id d s).
Proof.
  intros H. unfold reorderLayer.
  repeat case_match; try done; by apply commit_inv.
Qed.

Lemma step_inv c s : inv s -> exists s', step c s = Some s' /\ inv s'.
Proof.
  intros H. destruct c; simpl;
    try (eexists; split; [reflexivity|]).
  - by apply commit_inv.
  - by apply undo_inv.
  - by apply redo_inv.
  - by apply setActiveLayerId_inv, commit_inv.
  - done.
  - by apply commit_inv.
  - unfold removeLayer. case_match; [apply setActiveLayerId_inv|]; by apply commit_inv.
  - by apply reorderLayer_inv.
  - by apply setActiveLayerId_inv, commit_inv.
  - done.
  - done.
Qed.

Lemma steps_inv cs s : inv s -> exists s', steps cs s = Some s' /\ inv s'.
Proof.
  revert s. induction cs as [|c cs IH]; intros s H; simpl; [by exists s|].
  destruct (step_inv c s H) as (s1 & -> & H1). by apply IH.
Qed.

Lemma unknown_uid id ls :
  some_uid id ls = false -> Forall (fun l => has_uid id l = false) ls.
Proof.
  unfold some_uid. intros H. rewrite Forall_forall. intros l Hl.
  destruct (has_uid id l) eqn:E; [|done].
  assert (existsb (has_uid id) ls = true) as Ht; [|congruence].
  apply existsb_exists. exists l. split; [by apply list_elem_of_In|done].
Qed.

Lemma patched_unknown id u ls : some_uid id ls = false -> patched id u ls = ls.
Proof.
  intros H. apply unknown_uid in H. unfold patched.
  induction H as [|l ls Hl _ IH]; simpl; [done|]. by rewrite Hl, IH.
Qed.

Lemma filter_unknown id ls :
  some_uid id ls = false -> List.filter (fun l => negb (has_uid id l)) ls = ls.
Proof.
  intros H. apply unknown_uid in H.
  induction H as [|l ls Hl _ IH]; simpl; [done|]. by rewrite Hl, IH.
Qed.

Lemma findIndex_unknown id ls : some_uid id ls = false -> findIndex id ls = None.
Proof.
  intros H. apply unknown_uid in H. unfold findIndex.
  assert (list_find (fun l => has_uid id l = true) ls = None) as ->; [|done].
  apply list_find_None. eapply Forall_impl; [exact H|]. simpl. congruence.
Qed.

End StudioFacts.

(** C3: after [commit(L1); commit(L2)], on any state of the hook, [undo]
    restores the layer list [L1] and a following [redo] restores [L2];
    after any sequence of commits from the first render the history holds
    at most 20 snapshots; and a commit on a full history, cursor at its
    top, drops the oldest snapshot. *)
Theorem C3_undo_redo_round_trip_and_history_cap :
  (forall (s : Studio.State) (L1 L2 : list Studio.PlacedLayer),
     exists s3 s4,
       Studio.undo (Studio.commit L2 (Studio.commit L1 s)) = Some s3 /\
       Studio.layers s3 = L1 /\
       Studio.redo s3 = Some s4 /\
       Studio.layers s4 = L2) /\
  (forall (initialLayers : list Studio.PlacedLayer)
          (Ls : list (list Studio.PlacedLayer)),
     (length (Studio.history
                (foldl (fun s L => Studio.commit L s)
                       (Studio.init initialLayers) Ls)) <= 20)%nat) /\
  (forall (s : Studio.State) (L : list Studio.PlacedLayer),
     length (Studio.history s) = 20%nat -> Studio.historyIndex s = 19%nat ->
     Studio.history (Studio.commit L s) = tail (Studio.history s) ++ [L]).
Proof.
  split_and!.
  - intros s L1 L2.
    destruct (StudioFacts.nextHistory_snoc (Studio.history s)
                (Studio.historyIndex s) L1) as [pre Hpre].
    destruct (StudioFacts.nextHistory_top pre L1 L2) as [pre' Hpre'].
    unfold Studio.commit at 1. simpl. rewrite Hpre, Hpre'.
    unfold Studio.undo. simpl.
    replace (length (pre' ++ [L1; L2]) - 1)%nat with (S (length pre'))
      by (rewrite length_app; simpl; lia).
    simpl. rewrite Nat.sub_0_r.
    rewrite (lookup_app_r pre') by lia. rewrite Nat.sub_diag. simpl.
    eexists _, _. split; [reflexivity|]. split; [reflexivity|].
    unfold Studio.redo. simpl.
    replace (length pre' <? length (pre' ++ [L1; L2]) - 1)%nat with true
      by (symmetry; apply Nat.ltb_lt; rewrite length_app; simpl; lia).
    rewrite (lookup_app_r pre') by lia.
    replace (length pre' + 1 - length pre')%nat with 1%nat by lia. simpl.
    split; reflexivity.
  - intros initialLayers Ls.
    assert (Studio.inv (foldl (fun s L => Studio.commit L s)
                               (Studio.init initialLayers) Ls)) as [_ H].
    { generalize (StudioFacts.init_inv initialLayers).
      generalize (Studio.init initialLayers).
      induction Ls as [|L Ls IH]; intros s Hs; simpl; [done|].
      apply IH. by apply StudioFacts.commit_inv. }
    exact H.
  - intros s L Hlen Hidx. unfold Studio.commit, Studio.nextHistory. simpl.
    rewrite Hidx, take_ge by lia.
    replace (Studio.HISTORY_LIMIT <? length (Studio.history s ++ [L]))%nat with true
      by (symmetry; apply Nat.ltb_lt; rewrite length_app, Hlen; simpl;
          unfold Studio.HISTORY_LIMIT; lia).
    destruct (Studio.history s); [discriminate|reflexivity].
Qed.

Lemma C3_witness :
  let s := foldl (fun s L => Studio.commit L s) (Studio.init [])
             (replicate 19 ([] : list Studio.PlacedLayer)) in
  let L := [Studio.mkLayer "u1" "logo" (Num.Fin 50) (Num.Fin 50) (Num.Fin 1)
              (Num.Fin 0) (Some Studio.normal)] in
  Studio.history (Studio.commit L s) = tail (Studio.history s) ++ [L].
Proof.
  intros s L.
  apply (proj2 (proj2 C3_undo_redo_round_trip_and_history_cap) s L);
    vm_compute; reflexivity.
Defined.

(** From the first render no sequence of calls on the hook throws.  With
    an id that matches no layer, [updateLayer] and [reorderLayer] leave the
    whole state (layer list, selection, history) unchanged; [removeLayer]
    leaves the layer list unchanged, and the selection too unless the
    selection is that id, but it commits all the same. *)
Lemma unknown_id_calls :
  (forall (initialLayers : list Studio.PlacedLayer) (cs : list Studio.Call),
     is_Some (Studio.steps cs (Studio.init initialLayers))) /\
  (forall (s : Studio.State) (id : string),
     Studio.some_uid id (Studio.layers s) = false ->
     (forall u, Studio.updateLayer id u s = s) /\
     (forall d, Studio.reorderLayer id d s = s) /\
     Studio.layers (Studio.removeLayer id s) = Studio.layers s /\
     (Studio.activeLayerId s <> Some id ->
      Studio.activeLayerId (Studio.removeLayer id s) = Studio.activeLayerId s) /\
     Studio.history (Studio.removeLayer id s)
     = Studio.nextHistory (Studio.history s) (Studio.historyIndex s)
                          (Studio.layers s)).
Proof.
  split.
  - intros initialLayers cs.
    destruct (StudioFacts.steps_inv cs (Studio.init initialLayers)
                (StudioFacts.init_inv initialLayers)) as (s' & -> & _).
    by eexists.
  - intros s id Hid. repeat split.
    + intros u. unfold Studio.updateLayer.
      rewrite StudioFacts.patched_unknown by done. by destruct s.
    + intros d. unfold Studio.reorderLayer.
      by rewrite StudioFacts.findIndex_unknown.
    + unfold Studio.removeLayer. rewrite StudioFacts.filter_unknown by done.
      by case_match.
    + intros Ha. unfold Studio.removeLayer.
      case_bool_decide; [done|reflexivity].
    + unfold Studio.removeLayer. rewrite StudioFacts.filter_unknown by done.
      by case_match.
Qed.

(** C7 fails on the code: after a layer has been added and the addition
    undone, [removeLayer] with an id that matches no layer leaves the layer
    list as it was but pushes a history entry and discards the snapshot
    [redo] would have restored, where [reorderLayer] with the same id
    returns without a commit. *)
Theorem C7_removeLayer_unknown_id_commits :
  exists s,
    Studio.undo (Studio.addLayer "u1" "logo" (Studio.init [])) = Some s /\
    Studio.some_uid "ghost" (Studio.layers s) = false /\
    Studio.canRedo s = true /\
    map length (Studio.history s) = [0; 1]%nat /\
    Studio.historyIndex s = 0%nat /\
    Studio.reorderLayer "ghost" Studio.forward s = s /\
    Studio.layers (Studio.removeLayer "ghost" s) = Studio.layers s /\
    Studio.history (Studio.removeLayer "ghost" s) = [[]; []] /\
    Studio.historyIndex (Studio.removeLayer "ghost" s) = 1%nat /\
    Studio.canRedo (Studio.removeLayer "ghost" s) = false /\
    Studio.removeLayer "ghost" s <> s.
Proof.
  eexists. split; [reflexivity|]. split_and!; try reflexivity.
  discriminate.
Qed.


(** ** Numbers *)

Module NumFacts.
Import Num.

Lemma div_fin (a b : Q) : ~ (b == 0)%Q -> div (Fin a) (Fin b) = Fin (a / b).
Proof.
  intros Hb. unfold div.
  destruct (Qeq_bool b 0) eqn:E; [|reflexivity].
  by apply Qeq_bool_iff in E.
Qed.






End NumFacts.

(** ** The capture crop *)



(** ** The gestures *)

Module GestureFacts.
Import Num Studio Gestures.

Section Drag.
Variables getDist getAngle : Point -> Point -> num.

Lemma marked_idem g : marked (marked g) = marked g.
Proof. unfold marked. destruct (hasMoved g) eqn:E; simpl; by rewrite ?E. Qed.

Lemma dragged_marked g : dragged (marked g) = dragged g.
Proof. unfold marked. by destruct (hasMoved g). Qed.

Lemma layerId_marked g : layerId (marked g) = layerId g.
Proof. unfold marked. by destruct (hasMoved g). Qed.

Lemma type_marked g : type (marked g) = type g.
Proof. unfold marked. by destruct (hasMoved g). Qed.

(** A pointer-down that is not a two-finger touch starts a drag. *)
Lemma handlePointerDown_drag (e : PointerEvent) (p : Point) id rect (h : Hook) l :
  first_point e = Some p -> two_touches e = false ->
  List.find (has_uid id) (layers (studio h)) = Some l ->
  handlePointerDown getDist getAngle e id (mkEnv (Some rect) false) h
  = Some (mkHook (setActiveLayerId (Some id) (studio h))
            (Some (mkGesture id drag (clientX p) (clientY p) (scale l) (rotation l)
                     (x l) (y l) (Fin 0) (Fin 0) false))).
Proof.
  intros Hp Ht Hl. unfold handlePointerDown. simpl. rewrite Hl.
  destruct e as [q|[|q [|q' [|q'' ts]]]]; simpl in *; by simplify_eq.
Qed.

Lemma handleMove_drag (e : PointerEvent) (p : Point) rect (h : Hook) g :
  gesture h = Some g -> type g = drag -> first_point e = Some p ->
  handleMove getDist getAngle e (mkEnv (Some rect) false) h
  = Some (mkHook (setLayers (on_layer (layerId g) (dragged g rect p)
                               (layers (studio h))) (studio h))
                 (Some (marked g))).
Proof.
  intros Hg Ht Hp. unfold handleMove. simpl. rewrite Hg, Ht.
  destruct e as [q|[|q ts]]; simpl in *; by simplify_eq.
Qed.

(** A run of move events of a drag, read at the points [pts]. *)
Lemma moves_drag rect es : forall pts (h : Hook) g,
  map first_point es = map (fun p => Some (pt p)) pts ->
  gesture h = Some g -> type g = drag ->
  exists hn,
    moves getDist getAngle es (mkEnv (Some rect) false) h = Some hn /\
    layers (studio hn) = drag_layers g rect pts (layers (studio h)) /\
    activeLayerId (studio hn) = activeLayerId (studio h) /\
    history (studio hn) = history (studio h) /\
    historyIndex (studio hn) = historyIndex (studio h) /\
    gesture hn = Some (match pts with [] => g | _ => marked g end).
Proof.
  induction es as [|e es IH]; intros [|p pts] h g Hpts Hg Ht;
    simpl in Hpts; try discriminate.
  - by exists h.
  - injection Hpts as Hp Hpts. simpl.
    rewrite (handleMove_drag e (pt p) rect h g Hg Ht Hp).
    edestruct (IH pts (mkHook (setLayers (on_layer (layerId g)
                    (dragged g rect (pt p)) (layers (studio h))) (studio h))
                    (Some (marked g))) (marked g))
      as (hn & Hm & Hl & Ha & Hh & Hi & Hgn); [done|done| |].
    { by rewrite type_marked. }
    exists hn. split; [done|]. simpl in *.
    split_and!; try done.
    + rewrite Hl. unfold drag_layers. by rewrite layerId_marked, dragged_marked.
    + rewrite Hgn. destruct pts; [done|by rewrite marked_idem].
Qed.

Lemma on_layer_elem id f ls l :
  (forall l0, uid (f l0) = uid l0) ->
  l ∈ on_layer id f ls -> uid l = id -> exists l0, l0 ∈ ls /\ uid l0 = id /\ l = f l0.
Proof.
  intros Hf Hin Hid. unfold on_layer in Hin.
  apply list_elem_of_fmap in Hin as (l0 & -> & Hl0).
  unfold has_uid in *. destruct (String.eqb (uid l0) id) eqn:E.
  - apply String.eqb_eq in E. eauto.
  - apply String.eqb_neq in E. done.
Qed.

Lemma on_layer_find id f ls l0 :
  (forall l, uid (f l) = uid l) ->
  List.find (has_uid id) ls = Some l0 ->
  List.find (has_uid id) (on_layer id f ls) = Some (f l0).
Proof.
  intros Hf. unfold on_layer. induction ls as [|l ls IH]; simpl; [done|].
  destruct (has_uid id l) eqn:E.
  - intros [= ->]. unfold has_uid in *. by rewrite Hf, E.
  - intros Hfind. rewrite E. by apply IH.
Qed.

(** The clamp of the drag, on finite inputs and a canvas of non-zero size. *)
Lemma drag_position (start init cur size : Q) :
  ~ (size == 0)%Q ->
  eqn (max (Fin 0) (min (Fin 100)
         (add (Fin init) (mul (div (sub (Fin cur) (Fin start)) (Fin size)) (Fin 100)))))
      (Fin (Qmax 0 (Qmin 100 (init + (cur - start) * 100 / size)))).
Proof.
  intros Hs. simpl sub. rewrite NumFacts.div_fin by done. simpl.
  apply Q.max_compat; [reflexivity|]. apply Q.min_compat; [reflexivity|].
  field. done.
Qed.

Lemma drag_layers_find g rect pts : forall ls l0,
  List.find (has_uid (layerId g)) ls = Some l0 ->
  exists l, List.find (has_uid (layerId g)) (drag_layers g rect pts ls) = Some l.
Proof.
  unfold drag_layers. induction pts as [|p pts IH]; intros ls l0 Hl0; simpl.
  - by exists l0.
  - eapply IH. by apply on_layer_find.
Qed.

Lemma drag_layers_snoc g rect pre p ls :
  drag_layers g rect (pre ++ [p]) ls
  = on_layer (layerId g) (dragged g rect (pt p)) (drag_layers g rect pre ls).
Proof. unfold drag_layers. by rewrite foldl_snoc. Qed.

End Drag.
End GestureFacts.

(** C9: in a drag session on a layer found at [(x0, y0)], begun by a
    pointer-down (a mouse button or a touch, not two fingers) at
    [(px, py)] on a mounted canvas of positive size [W x H] while nothing
    is processing, after each move event read at [(cx, cy)] the layer is
    at
    [(clamp(x0 + (cx - px) * 100 / W, 0, 100),
      clamp(y0 + (cy - py) * 100 / H, 0, 100))],
    and no move touches the history.  Pointer-up ends the session; when
    at least one move event occurred it commits the final layer list
    (one call of [commit], one entry pushed), and otherwise it commits
    nothing. *)
Theorem C9_drag_session
    (getDist getAngle : Gestures.Point -> Gestures.Point -> Num.num)
    (h0 : Gestures.Hook) (id : string) (l0 : Studio.PlacedLayer)
    (x0 y0 px py W H : Q)
    (down : Gestures.PointerEvent) (es : list Gestures.PointerEvent)
    (pts : list (Q * Q)) :
  List.find (Studio.has_uid id) (Studio.layers (Gestures.studio h0)) = Some l0 ->
  Studio.x l0 = Num.Fin x0 -> Studio.y l0 = Num.Fin y0 ->
  (0 < W)%Q -> (0 < H)%Q ->
  Gestures.first_point down = Some (Gestures.pt (px, py)) ->
  Gestures.two_touches down = false ->
  map Gestures.first_point es = map (fun p => Some (Gestures.pt p)) pts ->
  let env := Gestures.mkEnv (Some (Gestures.mkRect (Num.Fin W) (Num.Fin H))) false in
  exists h1 hn,
    Gestures.handlePointerDown getDist getAngle down id env h0 = Some h1 /\
    Gestures.moves getDist getAngle es env h1 = Some hn /\
    (forall pre cx cy, pts = pre ++ [(cx, cy)] ->
       (exists l, List.find (Studio.has_uid id) (Studio.layers (Gestures.studio hn))
                  = Some l) /\
       forall l, l ∈ Studio.layers (Gestures.studio hn) -> Studio.uid l = id ->
         Num.eqn (Studio.x l)
           (Num.Fin (Qmax 0 (Qmin 100 (x0 + (cx - px) * 100 / W)))) /\
         Num.eqn (Studio.y l)
           (Num.Fin (Qmax 0 (Qmin 100 (y0 + (cy - py) * 100 / H))))) /\
    Studio.history (Gestures.studio hn) = Studio.history (Gestures.studio h0) /\
    Studio.historyIndex (Gestures.studio hn)
    = Studio.historyIndex (Gestures.studio h0) /\
    Gestures.gesture (Gestures.handleUp hn) = None /\
    (es <> [] ->
       Gestures.studio (Gestures.handleUp hn)
       = Studio.commit (Studio.layers (Gestures.studio hn)) (Gestures.studio hn) /\
       Studio.history (Gestures.studio (Gestures.handleUp hn))
       = Studio.nextHistory (Studio.history (Gestures.studio h0))
           (Studio.historyIndex (Gestures.studio h0))
           (Studio.layers (Gestures.studio hn))) /\
    (es = [] ->
       Gestures.studio (Gestures.handleUp hn)
       = Studio.setActiveLayerId (Some id) (Gestures.studio h0)).
Proof.
  intros Hfind Hx0 Hy0 HW HH Hdown Htwo Hpts env. subst env.
  assert (~ (W == 0)%Q) as HWn by (intros E; rewrite E in HW; by apply Qlt_irrefl in HW).
  assert (~ (H == 0)%Q) as HHn by (intros E; rewrite E in HH; by apply Qlt_irrefl in HH).
  set (rect := Gestures.mkRect (Num.Fin W) (Num.Fin H)).
  set (g := Gestures.mkGesture id Gestures.drag (Num.Fin px) (Num.Fin py)
              (Studio.scale l0) (Studio.rotation l0) (Num.Fin x0) (Num.Fin y0)
              (Num.Fin 0) (Num.Fin 0) false).
  set (h1 := Gestures.mkHook (Studio.setActiveLayerId (Some id) (Gestures.studio h0))
               (Some g)).
  destruct (GestureFacts.moves_drag getDist getAngle rect es pts h1 g Hpts eq_refl eq_refl)
    as (hn & Hm & Hl & Ha & Hh & Hi & Hg).
  exists h1, hn. split.
  { rewrite (GestureFacts.handlePointerDown_drag getDist getAngle down _ id rect h0 l0
               Hdown Htwo Hfind).
    unfold h1, g. simpl. by rewrite Hx0, Hy0. }
  split; [exact Hm|]. split; [|split_and!].
  - intros pre cx cy ->. rewrite Hl. simpl. split.
    + by apply (GestureFacts.drag_layers_find g rect _ _ l0).
    + intros l Hin Hid. rewrite GestureFacts.drag_layers_snoc in Hin.
      apply GestureFacts.on_layer_elem in Hin as (l' & _ & _ & ->); [|done|done].
      simpl. split.
      * by apply GestureFacts.drag_position.
      * by apply GestureFacts.drag_position.
  - by rewrite Hh.
  - by rewrite Hi.
  - unfold Gestures.handleUp. by rewrite Hg.
  - intros Hne. unfold Gestures.handleUp. rewrite Hg.
    destruct pts as [|p pts]; [by destruct es|]. simpl.
    split; [reflexivity|]. simpl. by rewrite Hh, Hi.
  - intros ->. simpl in Hm. injection Hm as <-. reflexivity.
Qed.

Lemma C9_witness :
  let h0 := Gestures.mkHook (Studio.addLayer "u1" "logo" (Studio.init [])) None in
  let env := Gestures.mkEnv (Some (Gestures.mkRect (Num.Fin 800) (Num.Fin 600))) false in
  let mouse := fun p : Q * Q => Gestures.MouseEvent (Gestures.pt p) in
  exists h1 hn,
    Gestures.handlePointerDown Gestures.axisDist Gestures.axisAngle
      (mouse (100, 100)%Q) "u1" env h0 = Some h1 /\
    Gestures.moves Gestures.axisDist Gestures.axisAngle
      [mouse (180, 100)%Q] env h1 = Some hn /\
    (forall l, l ∈ Studio.layers (Gestures.studio hn) -> Studio.uid l = "u1"%string ->
       Num.eqn (Studio.x l) (Num.Fin 60) /\ Num.eqn (Studio.y l) (Num.Fin 50)) /\
    length (Studio.history (Gestures.studio h1)) = 2%nat /\
    length (Studio.history (Gestures.studio hn)) = 2%nat /\
    length (Studio.history (Gestures.studio (Gestures.handleUp hn))) = 3%nat /\
    length (Studio.history (Gestures.studio (Gestures.handleUp h1))) = 2%nat.
Proof.
  intros h0 env mouse.
  destruct (C9_drag_session Gestures.axisDist Gestures.axisAngle h0 "u1"
              (Studio.mkLayer "u1" "logo" (Num.Fin 50) (Num.Fin 50) (Num.Fin 1)
                 (Num.Fin 0) (Some Studio.normal))
              50 50 100 100 800 600 (mouse (100, 100)%Q) [mouse (180, 100)%Q]
              [(180, 100)%Q]
              eq_refl eq_refl eq_refl eq_refl eq_refl eq_refl eq_refl eq_refl)
    as (h1 & hn & Hd & Hm & Hpos & Hh & Hi & Hg & Hup & _).
  exists h1, hn. split; [exact Hd|]. split; [exact Hm|].
  destruct (Hpos [] 180%Q 100%Q eq_refl) as [_ Hp].
  destruct Hup as [_ Hup]; [discriminate|].
  injection Hd as <-.
  split_and!.
  - intros l Hin Hid. destruct (Hp l Hin Hid) as [Hx Hy].
    destruct (Studio.x l), (Studio.y l); try done. simpl in *.
    rewrite Hx, Hy. split; reflexivity.
  - reflexivity.
  - rewrite Hh. reflexivity.
  - rewrite Hup. simpl in Hm. injection Hm as <-. reflexivity.
  - reflexivity.
Defined.


(** ** The pinch *)

Module PinchFacts.
Import Num Studio Gestures.

(** On finite inputs and a non-zero initial distance the pinch sets the
    scale to the clamped product. *)
Lemma pinch_scale_clamped (g : GestureState) (s0 d0 d : Q) (angle : num) (l : PlacedLayer) :
  startScale g = Fin s0 -> initialDist g = Fin d0 -> ~ (d0 == 0)%Q ->
  exists k : Q,
    scale (pinched g (Fin d) angle l) = Fin k /\
    (k == Qmax 0.1 (Qmin 5 (s0 * (d / d0))) /\ 0.1 <= k /\ k <= 5)%Q.
Proof.
  intros Hs Hd Hn. unfold pinched. cbn [scale]. rewrite Hs, Hd.
  rewrite NumFacts.div_fin by done. simpl.
  eexists. split; [reflexivity|]. split_and!.
  - reflexivity.
  - apply Q.le_max_l.
  - apply Q.max_lub; [done|apply Q.le_min_l].
Qed.

End PinchFacts.

(** C6 fails on the code: a two-finger gesture that starts with the
    touches one above the other (angle 90) and turns them side by side
    (angle 0) on a layer of rotation 0 leaves the layer with rotation
    -90, below the range [0, 360); the remainder keeps the sign of the
    dividend.  The scale, 1 there, is within [0.1, 5]. *)
Theorem C6_pinch_rotation_leaves_range :
  let h0 := Gestures.mkHook (Studio.addLayer "u1" "logo" (Studio.init [])) None in
  let env := Gestures.mkEnv (Some (Gestures.mkRect (Num.Fin 800) (Num.Fin 600))) false in
  let pt := fun a b : Q => Gestures.mkPoint (Num.Fin a) (Num.Fin b) in
  exists h1 h2 l,
    Gestures.handlePointerDown Gestures.axisDist Gestures.axisAngle
      (Gestures.TouchEvent [pt 0 0; pt 0 100]%Q) "u1" env h0 = Some h1 /\
    Gestures.handleMove Gestures.axisDist Gestures.axisAngle
      (Gestures.TouchEvent [pt 0 0; pt 100 0]%Q) env h1 = Some h2 /\
    Studio.layers (Gestures.studio h2) = [l] /\
    Num.eqn (Studio.rotation l) (Num.Fin (-90)) /\
    Num.gt (Num.Fin 0) (Studio.rotation l) = true /\
    Num.eqn (Studio.scale l) (Num.Fin 1).
Proof.
  eexists _, _, _. split; [reflexivity|]. split; [reflexivity|].
  split; [reflexivity|]. split_and!; reflexivity.
Qed.

(** ** The retry loop *)

Module InvokerFacts.
Import KeyPool Invoker.

Lemma append_nil (s : string) : (""%string +:+ s = s)%string.
Proof. reflexivity. Qed.

Lemma append_cons c (s t : string) : (String c s +:+ t = String c (s +:+ t))%string.
Proof. reflexivity. Qed.

Lemma prefix_spec (m s : string) :
  String.prefix m s = true <-> exists post : string, s = (m +:+ post)%string.
Proof.
  revert s. induction m as [|c m IH]; intros s.
  - destruct s; simpl; (split; [|reflexivity]); intros _; eexists;
      rewrite append_nil; reflexivity.
  - destruct s as [|d s]; simpl.
    + split; [discriminate|]. intros [post H]. rewrite append_cons in H. discriminate.
    + destruct (Ascii.ascii_dec c d) as [->|Hne].
      * rewrite IH. split; intros [post H]; exists post;
          rewrite append_cons in *; congruence.
      * split; [discriminate|]. intros [post H]. rewrite append_cons in H. congruence.
Qed.




End InvokerFacts.




(** * Further properties of the code *)

(** ** The head of a sorted array *)

Section SortMin.
Context {A : Type} (cmp : A -> A -> Z).
Hypothesis cmp_total : forall x y, cmp x y <= 0 \/ cmp y x <= 0.
Hypothesis cmp_trans :
  forall x y z, cmp x y <= 0 -> cmp y z <= 0 -> cmp x z <= 0.

Lemma sort_head_sorted (l : list A) : forall b r,
  JS.sort cmp l = b :: r -> Forall (fun x => cmp b x <= 0) (b :: r).
Proof.
  induction l as [|x l IH]; intros b r; [discriminate|].
  simpl. destruct (JS.sort cmp l) as [|y r'] eqn:E.
  - simpl. intros [= <- <-]. constructor; [|constructor].
    by destruct (cmp_total x x).
  - specialize (IH y r' eq_refl). simpl.
    destruct (cmp x y <=? 0) eqn:C.
    + intros [= <- <-]. apply Z.leb_le in C. constructor.
      * by destruct (cmp_total x x).
      * eapply Forall_impl; [exact IH|]. intros z Hz. by eapply cmp_trans.
    + intros [= <- <-]. apply Z.leb_gt in C.
      apply Forall_cons in IH as [Hy Hr]. constructor; [done|].
      rewrite insert_sorted_perm. constructor; [|done].
      destruct (cmp_total x y); [lia|done].
Qed.

Lemma sort_head_le (l : list A) (b : A) (r : list A) :
  JS.sort cmp l = b :: r -> forall x, x ∈ l -> cmp b x <= 0.
Proof.
  intros Hs x Hx. pose proof (sort_head_sorted _ _ _ Hs) as HF.
  rewrite Forall_forall in HF. apply HF.
  rewrite <- Hs. by rewrite sort_perm.
Qed.
End SortMin.

(** ** The credential pool: selection, cool-down windows, persistence *)

Module KeyPoolHealth.
Import KeyPool KeyPoolFacts KeyPoolStore KeyPoolCircuit.

Lemma isOnCooldown_health now k :
  failCount (snd (isOnCooldown now k)) = failCount k /\
  lastUsed (snd (isOnCooldown now k)) = lastUsed k /\
  failedAt (snd (isOnCooldown now k)) = failedAt k.
Proof.
  unfold isOnCooldown.
  destruct (circuitState k); repeat case_match; done.
Qed.

Lemma byHealth_le a b :
  byHealth a b <= 0 <->
  failCount (snd a) < failCount (snd b) \/
  (failCount (snd a) = failCount (snd b) /\ lastUsed (snd a) <= lastUsed (snd b)).
Proof.
  unfold byHealth.
  destruct (failCount (snd a) =? failCount (snd b)) eqn:E; simpl; lia.
Qed.

Lemma byHealth_total a b : byHealth a b <= 0 \/ byHealth b a <= 0.
Proof. rewrite !byHealth_le. lia. Qed.

Lemma byHealth_trans a b c :
  byHealth a b <= 0 -> byHealth b c <= 0 -> byHealth a c <= 0.
Proof. rewrite !byHealth_le. lia. Qed.

Lemma byFailedAt_total a b : byFailedAt a b <= 0 \/ byFailedAt b a <= 0.
Proof. unfold byFailedAt. lia. Qed.

Lemma byFailedAt_trans a b c :
  byFailedAt a b <= 0 -> byFailedAt b c <= 0 -> byFailedAt a c <= 0.
Proof. unfold byFailedAt. lia. Qed.

Lemma eligible_nil now s : eligible now s = [] -> candidates now (keys (loadState s)) = [].
Proof. unfold eligible. by destruct (candidates _ _). Qed.

Lemma wf_loadState s : wf s -> wf (loadState s).
Proof. apply wf_names, loadState_names. Qed.

End KeyPoolHealth.

(** Selection.  Among the credentials that are not on cool-down,
    [getKey] returns one with the fewest consecutive failures and, among
    those, one that was used least recently: no eligible credential has
    fewer failures, or as many and an older [lastUsed]. *)
Theorem getKey_returns_the_healthiest_candidate
    (s : KeyPool.Pool) (now : Z) (name other : string)
    (k k' : KeyPool.KeyState) :
  KeyPool.wf s ->
  fst (KeyPool.getKey now s) = Some name ->
  other ∈ KeyPool.eligible now s ->
  KeyPool.record name (KeyPool.loadState s) = Some k ->
  KeyPool.record other (KeyPool.loadState s) = Some k' ->
  name ∈ KeyPool.eligible now s /\
  (KeyPool.failCount k < KeyPool.failCount k' \/
   (KeyPool.failCount k = KeyPool.failCount k' /\
    KeyPool.lastUsed k <= KeyPool.lastUsed k')).
Proof.
  intros Hwf Hget Hother Hk Hk'.
  apply KeyPoolHealth.wf_loadState in Hwf as [Hnd _].
  fold (KeyPool.names (KeyPool.loadState s)) in Hnd.
  revert Hget. unfold KeyPool.getKey.
  destruct (KeyPool.keys (KeyPool.loadState s)) as [|k0 ks0] eqn:Hks.
  { unfold KeyPool.eligible in Hother. rewrite Hks in Hother.
    by apply elem_of_nil in Hother. }
  rewrite <- Hks.
  destruct (JS.sort KeyPool.byHealth
              (KeyPool.candidates now (KeyPool.keys (KeyPool.loadState s))))
    as [|[i sel] r] eqn:Hsort.
  { apply sort_nil_inv in Hsort. unfold KeyPool.eligible in Hother.
    rewrite Hsort in Hother. by apply elem_of_nil in Hother. }
  simpl. intros [= <-].
  pose proof (sort_head_elem _ _ _ _ Hsort) as Hsel.
  assert (KeyPool.key sel ∈ KeyPool.eligible now s) as Hin.
  { unfold KeyPool.eligible. apply list_elem_of_fmap. by exists (i, sel). }
  split; [done|].
  apply KeyPoolFacts.elem_of_candidates in Hsel as (k1 & Hk1 & Hc1).
  assert (k1 = k) as ->.
  { eapply KeyPoolCircuit.record_unique; [exact Hnd|exact Hk| |].
    - by eapply list_elem_of_lookup_2.
    - pose proof (KeyPoolFacts.isOnCooldown_key now k1) as Hkey.
      rewrite Hc1 in Hkey. done. }
  unfold KeyPool.eligible in Hother.
  apply list_elem_of_fmap in Hother as ([j sel'] & Hname & Hin').
  simpl in Hname.
  pose proof (sort_head_le KeyPool.byHealth KeyPoolHealth.byHealth_total
                KeyPoolHealth.byHealth_trans _ _ _ Hsort _ Hin') as Hle.
  apply KeyPoolHealth.byHealth_le in Hle. simpl in Hle.
  apply KeyPoolFacts.elem_of_candidates in Hin' as (k2 & Hk2 & Hc2).
  assert (k2 = k') as ->.
  { eapply KeyPoolCircuit.record_unique; [exact Hnd|exact Hk'| |].
    - by eapply list_elem_of_lookup_2.
    - pose proof (KeyPoolFacts.isOnCooldown_key now k2) as Hkey.
      rewrite Hc2 in Hkey. simpl in Hkey. congruence. }
  destruct (KeyPoolHealth.isOnCooldown_health now k) as (Hf & Hl & _).
  destruct (KeyPoolHealth.isOnCooldown_health now k') as (Hf' & Hl' & _).
  rewrite Hc1 in Hf, Hl. rewrite Hc2 in Hf', Hl'. simpl in *.
  lia.
Qed.

Lemma getKey_returns_the_healthiest_candidate_witness :
  let s := KeyPool.markFailed "a" false 1000
             (KeyPool.new ["a"; "b"]%string (KeyPool.Slot None)) in
  fst (KeyPool.getKey 100000 s) = Some "b"%string /\
  "a"%string ∈ KeyPool.eligible 100000 s /\
  "b"%string ∈ KeyPool.eligible 100000 s.
Proof.
  intros s.
  assert (KeyPool.wf s) as Hwf
    by apply (run_wf [KeyPool.MarkFailed "a" false 1000]), KeyPoolFacts.new_wf.
  assert ("a"%string ∈ KeyPool.eligible 100000 s) as Ha
    by (vm_compute; apply list_elem_of_here).
  split; [reflexivity|]. split; [exact Ha|].
  apply (getKey_returns_the_healthiest_candidate s 100000 "b" "a"
           (KeyPool.fresh "b")
           (KeyPool.failed false 1000 (KeyPool.fresh "a")) Hwf);
    [reflexivity|exact Ha|reflexivity|reflexivity].
Defined.

(** The fallback of [getKey].  When every credential is on cool-down a
    non-empty pool still hands one out: the credential whose last failure
    is the oldest ([failedAt || 0] is the least).  Nothing is stamped and
    nothing is saved: the pool is left as [loadState] read it. *)
Theorem getKey_fallback_returns_the_oldest_failure (s : KeyPool.Pool) (now : Z) :
  KeyPool.wf s ->
  KeyPool.keys s <> [] ->
  KeyPool.eligible now s = [] ->
  snd (KeyPool.getKey now s) = KeyPool.loadState s /\
  exists name k,
    fst (KeyPool.getKey now s) = Some name /\
    KeyPool.record name (KeyPool.loadState s) = Some k /\
    forall k', k' ∈ KeyPool.keys (KeyPool.loadState s) ->
      JS.or_zero (KeyPool.failedAt k) <= JS.or_zero (KeyPool.failedAt k').
Proof.
  intros Hwf Hne Hel.
  apply KeyPoolHealth.wf_loadState in Hwf as [Hnd Hkeys].
  fold (KeyPool.names (KeyPool.loadState s)) in Hnd.
  assert (KeyPool.keys (KeyPool.loadState s) <> []) as Hne1.
  { intros E. apply Hne. apply (f_equal (map KeyPool.key)) in E.
    fold (KeyPool.names (KeyPool.loadState s)) in E.
    rewrite KeyPoolFacts.loadState_names in E.
    unfold KeyPool.names in E. by destruct (KeyPool.keys s). }
  apply KeyPoolHealth.eligible_nil in Hel.
  pose proof (KeyPoolStore.candidates_nil _ _ Hel) as Hsame.
  unfold KeyPool.getKey. rewrite Hel, Hsame. simpl.
  destruct (KeyPool.keys (KeyPool.loadState s)) as [|k0 ks0] eqn:Hks; [done|].
  rewrite <- Hks in *. simpl.
  destruct (JS.sort KeyPool.byFailedAt (KeyPool.keys (KeyPool.loadState s)))
    as [|k r] eqn:Hsort.
  { apply sort_nil_inv in Hsort. done. }
  split; [apply KeyPoolStore.pool_eta|].
  pose proof (sort_head_elem _ _ _ _ Hsort) as Hin.
  exists (KeyPool.key k), k. split_and!.
  - unfold KeyPool.nonempty_or_null.
    rewrite Forall_forall in Hkeys. specialize (Hkeys k Hin).
    destruct (String.eqb (KeyPool.key k) "") eqn:E; [|done].
    by apply String.eqb_eq in E.
  - by apply KeyPoolStore.record_Some.
  - intros k' Hk'.
    pose proof (sort_head_le KeyPool.byFailedAt KeyPoolHealth.byFailedAt_total
                  KeyPoolHealth.byFailedAt_trans _ _ _ Hsort _ Hk') as Hle.
    unfold KeyPool.byFailedAt in Hle. lia.
Qed.

Lemma getKey_fallback_returns_the_oldest_failure_witness :
  let s := KeyPool.markFailed "b" true 2000
             (KeyPool.markFailed "a" true 1000
                (KeyPool.new ["b"; "a"]%string (KeyPool.Slot None))) in
  KeyPool.eligible 3000 s = [] /\
  fst (KeyPool.getKey 3000 s) = Some "a"%string /\
  snd (KeyPool.getKey 3000 s) = KeyPool.loadState s.
Proof.
  intros s.
  assert (KeyPool.wf s) as Hwf
    by apply (run_wf [KeyPool.MarkFailed "a" true 1000;
                      KeyPool.MarkFailed "b" true 2000]), KeyPoolFacts.new_wf.
  split; [reflexivity|]. split; [reflexivity|].
  apply (getKey_fallback_returns_the_oldest_failure s 3000 Hwf);
    [discriminate|reflexivity].
Defined.

Module KeyPoolWindows.
Import KeyPool KeyPoolFacts KeyPoolStore KeyPoolCircuit.

(** The record [markFailed] leaves and where it is eligible, from the
    cool-down test of that record. *)
Lemma markFailed_eligible name q T s k0 :
  wf s -> record name s = Some k0 ->
  let s1 := markFailed name q T s in
  record name s1 = Some (failed q T k0) /\
  forall now, name ∈ eligible now s1 <->
              fst (isOnCooldown now (failed q T k0)) = false.
Proof.
  intros [Hnd _] Hk0 s1. fold (names s) in Hnd.
  destruct (markFailed_record name q T s k0 Hnd Hk0) as (Hn1 & Hr1 & Hl1).
  fold s1 in Hn1, Hr1, Hl1.
  split; [done|]. intros now.
  apply eligible_record; [by rewrite Hn1|done|done].
Qed.

Lemma find_key_insert_other name other (ks : list KeyState) i k k' :
  other <> name -> ks !! i = Some k -> key k = name -> key k' = name ->
  snd <$> find_key other (<[i := k']> ks) = snd <$> find_key other ks.
Proof.
  intros Hne. unfold find_key. revert i.
  induction ks as [|x ks IH]; intros i Hi Hk Hk'; [done|].
  destruct i as [|i]; simpl in *.
  - simplify_eq. rewrite !decide_False by congruence. done.
  - destruct (decide (key x = other)); [done|].
    specialize (IH i Hi Hk Hk').
    destruct (list_find _ (<[i:=k']> ks)) as [[??]|],
             (list_find _ ks) as [[??]|]; simpl in *; congruence.
Qed.

End KeyPoolWindows.

(** A transient failure below the threshold.  A failure that is not a
    quota error, reported at [T] for a CLOSED credential that has failed
    fewer than four times in a row, leaves the circuit CLOSED and counts
    the failure; the credential is passed over for one minute, and is
    eligible from [T + 60000] on. *)
Theorem transient_failure_rests_the_key_one_minute
    (s : KeyPool.Pool) (name : string) (k0 : KeyPool.KeyState) (T : Z) :
  KeyPool.wf s -> KeyPool.record name s = Some k0 -> 0 < T ->
  KeyPool.circuitState k0 = KeyPool.CLOSED ->
  KeyPool.failCount k0 + 1 < KeyPool.MAX_CONSECUTIVE_FAILURES ->
  let s1 := KeyPool.markFailed name false T s in
  (exists k1, KeyPool.record name s1 = Some k1 /\
     KeyPool.circuitState k1 = KeyPool.CLOSED /\
     KeyPool.failCount k1 = KeyPool.failCount k0 + 1 /\
     KeyPool.failedAt k1 = Some T /\
     KeyPool.halfOpenTestTime k1 = KeyPool.halfOpenTestTime k0) /\
  forall now, name ∈ KeyPool.eligible now s1 <->
              T + KeyPool.COOLDOWN_TRANSIENT <= now.
Proof.
  intros Hwf Hk0 HT Hc Hn s1.
  destruct (KeyPoolWindows.markFailed_eligible name false T s k0 Hwf Hk0)
    as [Hr1 Hel]. fold s1 in Hr1, Hel.
  assert (KeyPool.failed false T k0 =
          KeyPool.mkKeyState (KeyPool.key k0) (KeyPool.failCount k0 + 1) (Some T)
            false KeyPool.CLOSED (KeyPool.lastUsed k0) (KeyPool.successCount k0)
            (KeyPool.totalRequests k0 + 1) (KeyPool.halfOpenTestTime k0)) as Hf.
  { unfold KeyPool.failed. rewrite Hc.
    destruct (KeyPool.MAX_CONSECUTIVE_FAILURES <=? KeyPool.failCount k0 + 1) eqn:E;
      [apply Z.leb_le in E; lia|done]. }
  rewrite Hf in Hr1, Hel. split.
  - eexists. split; [exact Hr1|]. by split_and!.
  - intros now. rewrite Hel. unfold KeyPool.isOnCooldown. simpl.
    unfold KeyPool.COOLDOWN_TRANSIENT.
    destruct (T =? 0) eqn:E0; [lia|]. simpl.
    destruct (now - T <? 60 * 1000) eqn:E; simpl; split; intros; try done; lia.
Qed.

Lemma transient_failure_rests_the_key_one_minute_witness :
  let s1 := KeyPool.markFailed "a" false 1000
              (KeyPool.new ["a"; "b"]%string (KeyPool.Slot None)) in
  ("a"%string ∉ KeyPool.eligible 60999 s1) /\
  ("a"%string ∈ KeyPool.eligible 61000 s1).
Proof.
  pose proof (transient_failure_rests_the_key_one_minute
                (KeyPool.new ["a"; "b"]%string (KeyPool.Slot None)) "a"
                (KeyPool.fresh "a") 1000
                (KeyPoolFacts.new_wf _ _) eq_refl ltac:(lia) eq_refl
                ltac:(vm_compute; reflexivity)) as [_ H].
  split.
  - rewrite H. vm_compute. intros E. apply E. reflexivity.
  - apply H. vm_compute. discriminate.
Defined.

(** The failure threshold.  A failure that is not a quota error opens the
    circuit when it is the fifth in a row, and whenever it answers the
    test request of a HALF_OPEN credential; the credential is then
    excluded for one minute and eligible from [T + 60000] on. *)
Theorem fifth_failure_opens_the_circuit
    (s : KeyPool.Pool) (name : string) (k0 : KeyPool.KeyState) (T : Z) :
  KeyPool.wf s -> KeyPool.record name s = Some k0 -> 0 < T ->
  KeyPool.circuitState k0 = KeyPool.HALF_OPEN \/
  KeyPool.MAX_CONSECUTIVE_FAILURES <= KeyPool.failCount k0 + 1 ->
  let s1 := KeyPool.markFailed name false T s in
  (exists k1, KeyPool.record name s1 = Some k1 /\
     KeyPool.circuitState k1 = KeyPool.OPEN /\
     KeyPool.failCount k1 = KeyPool.failCount k0 + 1 /\
     KeyPool.halfOpenTestTime k1 = Some (T + KeyPool.HALF_OPEN_TEST_DELAY)) /\
  forall now, name ∈ KeyPool.eligible now s1 <->
              T + KeyPool.HALF_OPEN_TEST_DELAY <= now.
Proof.
  intros Hwf Hk0 HT Hc s1.
  destruct (KeyPoolWindows.markFailed_eligible name false T s k0 Hwf Hk0)
    as [Hr1 Hel]. fold s1 in Hr1, Hel.
  assert (KeyPool.failed false T k0 =
          KeyPool.mkKeyState (KeyPool.key k0) (KeyPool.failCount k0 + 1) (Some T)
            false KeyPool.OPEN (KeyPool.lastUsed k0) (KeyPool.successCount k0)
            (KeyPool.totalRequests k0 + 1)
            (Some (T + KeyPool.HALF_OPEN_TEST_DELAY))) as Hf.
  { unfold KeyPool.failed.
    destruct Hc as [-> | Hn]; [done|].
    apply Z.leb_le in Hn. rewrite Hn. simpl.
    by destruct (KeyPool.circuitState k0). }
  rewrite Hf in Hr1, Hel. split.
  - eexists. split; [exact Hr1|]. by split_and!.
  - intros now. rewrite Hel. unfold KeyPool.isOnCooldown. simpl.
    unfold KeyPool.HALF_OPEN_TEST_DELAY.
    destruct (T + 60 * 1000 =? 0) eqn:E0; [lia|]. simpl.
    destruct (T + 60 * 1000 <=? now) eqn:E; simpl; split; intros; try done; lia.
Qed.

Lemma fifth_failure_opens_the_circuit_witness :
  let fail := fun t => KeyPool.MarkFailed "a" false t in
  let s := KeyPool.run [fail 1000; fail 2000; fail 3000; fail 4000]
             (KeyPool.new ["a"; "b"]%string (KeyPool.Slot None)) in
  let s1 := KeyPool.markFailed "a" false 5000 s in
  (KeyPool.circuitState <$> KeyPool.record "a" s = Some KeyPool.CLOSED) /\
  (KeyPool.circuitState <$> KeyPool.record "a" s1 = Some KeyPool.OPEN) /\
  ("a"%string ∉ KeyPool.eligible 64999 s1) /\
  ("a"%string ∈ KeyPool.eligible 65000 s1).
Proof.
  intros fail s s1.
  assert (KeyPool.wf s) as Hwf by apply run_wf, KeyPoolFacts.new_wf.
  pose proof (fifth_failure_opens_the_circuit s "a"
                (KeyPool.failed false 4000 (KeyPool.failed false 3000
                   (KeyPool.failed false 2000 (KeyPool.failed false 1000
                      (KeyPool.fresh "a")))))
                5000 Hwf eq_refl ltac:(lia)
                ltac:(right; vm_compute; discriminate)) as [_ H].
  fold s1 in H.
  split; [reflexivity|]. split; [reflexivity|]. split.
  - rewrite H. vm_compute. intros E. apply E. reflexivity.
  - apply H. vm_compute. discriminate.
Defined.

(** Feedback on one credential leaves the others alone: the record of
    every other credential is the same after [markSuccess] and after
    [markFailed]. *)
Theorem feedback_leaves_other_keys_alone
    (s : KeyPool.Pool) (name other : string) :
  other <> name ->
  KeyPool.record other (KeyPool.markSuccess name s) = KeyPool.record other s /\
  forall isQuota now,
    KeyPool.record other (KeyPool.markFailed name isQuota now s)
    = KeyPool.record other s.
Proof.
  intros Hne. unfold KeyPool.record, KeyPool.markSuccess, KeyPool.markFailed.
  destruct (KeyPool.find_key name (KeyPool.keys s)) as [[i k]|] eqn:Hf;
    [|done].
  apply KeyPoolFacts.find_key_Some in Hf as [Hi Hk].
  split; [|intros q now]; rewrite KeyPoolFacts.saveState_keys; simpl.
  - eapply KeyPoolWindows.find_key_insert_other; [exact Hne|exact Hi|exact Hk|].
    exact Hk.
  - eapply KeyPoolWindows.find_key_insert_other; [exact Hne|exact Hi|exact Hk|].
    by rewrite KeyPoolFacts.failed_key.
Qed.

Lemma feedback_leaves_other_keys_alone_witness :
  let s := KeyPool.new ["a"; "b"]%string (KeyPool.Slot None) in
  KeyPool.record "b" (KeyPool.markFailed "a" true 1000 s) = KeyPool.record "b" s.
Proof.
  intros s.
  apply (feedback_leaves_other_keys_alone s "a" "b"). discriminate.
Defined.

(** A success heals.  Whatever its state, a credential for which
    [markSuccess] is called is CLOSED with no failure on record, keeps
    its [lastUsed], counts one more success and one more request, and is
    eligible at every time. *)
Theorem success_closes_the_circuit
    (s : KeyPool.Pool) (name : string) (k0 : KeyPool.KeyState) :
  KeyPool.wf s -> KeyPool.record name s = Some k0 ->
  let s1 := KeyPool.markSuccess name s in
  (exists k1, KeyPool.record name s1 = Some k1 /\
     KeyPool.circuitState k1 = KeyPool.CLOSED /\
     KeyPool.failCount k1 = 0 /\ KeyPool.failedAt k1 = None /\
     KeyPool.isQuotaError k1 = false /\
     KeyPool.lastUsed k1 = KeyPool.lastUsed k0 /\
     KeyPool.successCount k1 = KeyPool.successCount k0 + 1 /\
     KeyPool.totalRequests k1 = KeyPool.totalRequests k0 + 1) /\
  forall now, name ∈ KeyPool.eligible now s1.
Proof.
  intros [Hnd _] Hk0 s1. fold (KeyPool.names s) in Hnd.
  destruct (KeyPoolCircuit.markSuccess_record name s k0 Hnd Hk0)
    as (Hn1 & Hr1 & Hl1). fold s1 in Hn1, Hr1, Hl1.
  split.
  - exists (KeyPool.succeeded k0). by split_and!.
  - intros now.
    apply (KeyPoolCircuit.eligible_record now s1 name (KeyPool.succeeded k0));
      [by rewrite Hn1|done|done|reflexivity].
Qed.

Lemma success_closes_the_circuit_witness :
  let s := KeyPool.markFailed "a" true 1000
             (KeyPool.new ["a"%string] (KeyPool.Slot None)) in
  KeyPool.eligible 2000 s = [] /\
  "a"%string ∈ KeyPool.eligible 2000 (KeyPool.markSuccess "a" s).
Proof.
  intros s. split; [reflexivity|].
  assert (KeyPool.wf s) as Hwf
    by apply (run_wf [KeyPool.MarkFailed "a" true 1000]), KeyPoolFacts.new_wf.
  apply (success_closes_the_circuit s "a"
           (KeyPool.failed true 1000 (KeyPool.fresh "a")) Hwf eq_refl).
Defined.

Module KeyPoolReload.
Import KeyPool KeyPoolFacts KeyPoolStore.

Lemma uniq_NoDup seen l :
  NoDup l -> (forall x, x ∈ l -> x ∉ seen) -> JS.uniq seen l = l.
Proof.
  revert seen. induction l as [|x l IH]; intros seen Hnd Hs; [done|].
  apply NoDup_cons in Hnd as [Hx Hnd]. simpl.
  rewrite bool_decide_eq_false_2 by (apply Hs; left).
  f_equal. apply IH; [done|]. intros y Hy.
  rewrite not_elem_of_cons. split; [by intros ->|]. apply Hs. by right.
Qed.

Lemma new_keys (s : Pool) st :
  wf s ->
  new (names s) st = loadState (mkPool (map fresh (names s)) st).
Proof.
  intros [Hnd Hne]. unfold new. do 2 f_equal.
  rewrite uniq_NoDup by (done || by intros ? _ ?%elem_of_nil).
  unfold names. clear Hnd.
  induction Hne as [|k ks Hk _ IH]; [done|]. simpl.
  destruct (String.eqb (key k) "") eqn:E; [by apply String.eqb_eq in E|].
  simpl. by f_equal.
Qed.

Lemma loadState_snapshot (ks ks' : list KeyState) :
  NoDup (map key ks) -> map key ks' = map key ks ->
  keys (loadState (mkPool ks' (Slot (Some (snapshot ks)))))
  = zip_with assign ks' (map persist ks).
Proof.
  intros Hnd Hk. unfold loadState. simpl.
  assert (forall k, k ∈ ks -> snapshot ks !! key k = Some (persist k)) as Hm
    by (intros; by apply snapshot_lookup).
  revert Hm. generalize (snapshot ks) as m. intros m. clear Hnd.
  revert ks Hk.
  induction ks' as [|k' ks' IH]; intros [|k ks] Hk Hm; simpl in *; try done.
  injection Hk as Hk1 Hk2. rewrite Hk1, (Hm k) by left.
  f_equal. apply IH; [done|]. intros. apply Hm. by right.
Qed.

(** What [loadState] restores from a snapshot: the six saved properties
    of every record; the counters are those of the record it fills. *)
Lemma assign_snapshot (ks ks' : list KeyState) :
  length ks' = length ks ->
  let r := zip_with assign ks' (map persist ks) in
  map key r = map key ks' /\
  map persist r = map persist ks /\
  map successCount r = map successCount ks' /\
  map totalRequests r = map totalRequests ks'.
Proof.
  revert ks. induction ks' as [|k' ks' IH]; intros [|k ks] Hl; simpl in *;
    try done.
  destruct (IH ks ltac:(lia)) as (H1 & H2 & H3 & H4).
  split_and!; by f_equal.
Qed.

Lemma cooling_persist now k k' :
  persist k = persist k' ->
  fst (isOnCooldown now k) = fst (isOnCooldown now k').
Proof.
  unfold persist. intros [= Hf Hc Hl Ha Hh Hq].
  unfold isOnCooldown. rewrite Hc, Ha, Hh, Hq.
  destruct (circuitState k'); repeat case_match; done.
Qed.

Lemma candidates_filter_from now ks (g : nat -> nat) :
  map (fun c : nat * KeyState => key (snd c))
      (omap (fun '(i, (c, k)) => if c : bool then None else Some (i, k))
            (imap (fun i (ck : bool * KeyState) => (g i, ck)) (checked now ks)))
  = map key (List.filter (fun k => negb (fst (isOnCooldown now k))) ks).
Proof.
  revert g. unfold checked.
  induction ks as [|k ks IH]; intros g; [done|].
  simpl.
  destruct (isOnCooldown now k) as [c k1] eqn:E. simpl.
  specialize (IH (fun i => g (S i))).
  destruct c; simpl.
  - apply IH.
  - f_equal; [|apply IH].
    pose proof (isOnCooldown_key now k) as Hk. by rewrite E in Hk.
Qed.

Lemma candidates_filter now ks :
  map (fun c => key (snd c)) (candidates now ks)
  = map key (List.filter (fun k => negb (fst (isOnCooldown now k))) ks).
Proof. apply (candidates_filter_from now ks (fun i => i)). Qed.

Lemma eligible_persist now s s' :
  loadState s = s -> loadState s' = s' ->
  names s' = names s -> map persist (keys s') = map persist (keys s) ->
  eligible now s' = eligible now s.
Proof.
  intros Hl Hl'. unfold eligible, names. rewrite Hl, Hl', !candidates_filter.
  generalize (keys s) as l. generalize (keys s') as l'.
  induction l' as [|k' l' IH]; intros [|k l] Hn Hp; simpl in *; try done.
  injection Hn as Hn1 Hn2.
  assert (persist k' = persist k /\ map persist l' = map persist l)
    as [Hp1 Hp2] by (split; congruence).
  rewrite (cooling_persist now k' k Hp1).
  destruct (fst (isOnCooldown now k)); simpl; [|f_equal; [done|]]; by apply IH.
Qed.

Lemma saved_loadState s :
  NoDup (names s) -> storage s = Slot (Some (snapshot (keys s))) -> loadState s = s.
Proof.
  intros Hnd Hst.
  pose proof (loadState_saveState (keys s) (storage s) Hnd) as H.
  unfold saveState in H. simpl in H. rewrite Hst in H. rewrite <- Hst in H.
  by rewrite pool_eta in H.
Qed.

End KeyPoolReload.

(** A reload keeps the circuit state.  A manager constructed for the
    same keys over the storage that another manager has just saved holds,
    for every key, the saved [failCount], [circuitState], [lastUsed],
    [failedAt], [halfOpenTestTime] and [isQuotaError], so the same keys
    are eligible at every time; its request counters start from zero. *)
Theorem reload_restores_the_saved_state (s : KeyPool.Pool) :
  KeyPool.wf s ->
  KeyPool.storage s = KeyPool.Slot (Some (KeyPool.snapshot (KeyPool.keys s))) ->
  let s' := KeyPool.new (KeyPool.names s) (KeyPool.storage s) in
  KeyPool.names s' = KeyPool.names s /\
  map KeyPool.persist (KeyPool.keys s') = map KeyPool.persist (KeyPool.keys s) /\
  Forall (fun k => KeyPool.successCount k = 0 /\ KeyPool.totalRequests k = 0)
         (KeyPool.keys s') /\
  forall now, KeyPool.eligible now s' = KeyPool.eligible now s.
Proof.
  intros Hwf Hst s'.
  pose proof Hwf as [Hnd _]. fold (KeyPool.names s) in Hnd.
  assert (KeyPool.keys s'
          = zip_with KeyPool.assign (map KeyPool.fresh (KeyPool.names s))
              (map KeyPool.persist (KeyPool.keys s))) as Hkeys.
  { unfold s'. rewrite KeyPoolReload.new_keys by done. rewrite Hst.
    apply KeyPoolReload.loadState_snapshot; [done|].
    unfold KeyPool.names. rewrite <- !list_fmap_compose. done. }
  destruct (KeyPoolReload.assign_snapshot (KeyPool.keys s)
              (map KeyPool.fresh (KeyPool.names s)))
    as (H1 & H2 & H3 & H4).
  { unfold KeyPool.names. by rewrite !length_map. }
  rewrite <- Hkeys in H1, H2, H3, H4.
  assert (KeyPool.names s' = KeyPool.names s) as Hn.
  { unfold KeyPool.names at 1. rewrite H1.
    unfold KeyPool.names. rewrite <- !list_fmap_compose. done. }
  split_and!; [done|done| |].
  - apply Forall_forall. intros k Hk.
    apply list_elem_of_lookup in Hk as [i Hi].
    apply (f_equal (fun l => l !! i)) in H3, H4.
    rewrite !list_lookup_fmap, Hi in H3, H4. simpl in H3, H4.
    destruct (KeyPool.names s !! i); simpl in *; by simplify_eq.
  - intros now. apply KeyPoolReload.eligible_persist; try done.
    + by apply KeyPoolReload.saved_loadState.
    + unfold s', KeyPool.new. apply KeyPoolStore.loadState_idem.
Qed.

Lemma reload_restores_the_saved_state_witness :
  let s := KeyPool.markSuccess "b"
             (KeyPool.markFailed "a" true 1000
                (KeyPool.new ["a"; "b"]%string (KeyPool.Slot None))) in
  let s' := KeyPool.new ["a"; "b"]%string (KeyPool.storage s) in
  KeyPool.eligible 2000 s' = ["b"%string] /\
  KeyPool.successCount <$> KeyPool.record "b" s = Some 1 /\
  KeyPool.successCount <$> KeyPool.record "b" s' = Some 0.
Proof.
  intros s s'.
  assert (KeyPool.wf s) as Hwf
    by apply (run_wf [KeyPool.MarkFailed "a" true 1000; KeyPool.MarkSuccess "b"]),
             KeyPoolFacts.new_wf.
  destruct (reload_restores_the_saved_state s Hwf eq_refl) as (_ & _ & _ & H).
  split; [|split; reflexivity].
  change (KeyPool.eligible 2000 (KeyPool.new (KeyPool.names s) (KeyPool.storage s))
          = ["b"%string]).
  rewrite H. reflexivity.
Defined.

(** Two tabs agree.  When a manager has saved its state, a manager of
    the same keys in another context that receives the storage event
    holds the saved circuit state of every key, and finds the same keys
    eligible at every time; its own request counters are untouched. *)
Theorem storage_event_brings_tabs_in_step (a b : KeyPool.Pool) :
  KeyPool.wf a ->
  KeyPool.names b = KeyPool.names a ->
  KeyPool.storage b <> KeyPool.NoStorage ->
  KeyPool.storage a = KeyPool.Slot (Some (KeyPool.snapshot (KeyPool.keys a))) ->
  let b' := KeyPool.onStorageEvent (Some (KeyPool.snapshot (KeyPool.keys a))) b in
  map KeyPool.persist (KeyPool.keys b') = map KeyPool.persist (KeyPool.keys a) /\
  map KeyPool.successCount (KeyPool.keys b')
  = map KeyPool.successCount (KeyPool.keys b) /\
  map KeyPool.totalRequests (KeyPool.keys b')
  = map KeyPool.totalRequests (KeyPool.keys b) /\
  forall now, KeyPool.eligible now b' = KeyPool.eligible now a.
Proof.
  intros Hwf Hn Hsb Hsa b'.
  pose proof Hwf as [Hnd _]. fold (KeyPool.names a) in Hnd.
  assert (b' = KeyPool.loadState
                 (KeyPool.mkPool (KeyPool.keys b)
                    (KeyPool.Slot (Some (KeyPool.snapshot (KeyPool.keys a))))))
    as Hb'.
  { unfold b', KeyPool.onStorageEvent. by destruct (KeyPool.storage b). }
  assert (KeyPool.keys b'
          = zip_with KeyPool.assign (KeyPool.keys b)
              (map KeyPool.persist (KeyPool.keys a))) as Hkeys.
  { rewrite Hb'. by apply KeyPoolReload.loadState_snapshot. }
  destruct (KeyPoolReload.assign_snapshot (KeyPool.keys a) (KeyPool.keys b))
    as (H1 & H2 & H3 & H4).
  { apply (f_equal length) in Hn. unfold KeyPool.names in Hn.
    by rewrite !length_map in Hn. }
  rewrite <- Hkeys in H1, H2, H3, H4.
  split_and!; try done.
  intros now. apply KeyPoolReload.eligible_persist; try done.
  - by apply KeyPoolReload.saved_loadState.
  - rewrite Hb'. apply KeyPoolStore.loadState_idem.
  - unfold KeyPool.names at 1. by rewrite H1.
Qed.

Lemma storage_event_brings_tabs_in_step_witness :
  let b := KeyPool.new ["a"; "b"]%string (KeyPool.Slot None) in
  let a := KeyPool.markFailed "a" true 1000 b in
  let b' := KeyPool.onStorageEvent (Some (KeyPool.snapshot (KeyPool.keys a))) b in
  KeyPool.eligible 2000 b = ["a"; "b"]%string /\
  KeyPool.eligible 2000 b' = ["b"%string].
Proof.
  intros b a b'. split; [reflexivity|].
  assert (KeyPool.wf a) as Hwf
    by apply (run_wf [KeyPool.MarkFailed "a" true 1000]), KeyPoolFacts.new_wf.
  destruct (storage_event_brings_tabs_in_step a b Hwf eq_refl
              ltac:(discriminate) eq_refl) as (_ & _ & _ & H).
  fold b' in H. rewrite H. reflexivity.
Defined.


Module KeyPoolCounters.
Import KeyPool KeyPoolFacts KeyPoolStore.




End KeyPoolCounters.


Module KeyPoolRotation.
Import KeyPool KeyPoolFacts KeyPoolStore.

Lemma sort_head_leftmost {A : Type} (cmp : A -> A -> Z)
    (l1 : list A) (x : A) (l2 : list A) :
  (forall y, y ∈ l1 -> 0 < cmp y x) ->
  (forall y, y ∈ l2 -> cmp x y <= 0) ->
  exists r, JS.sort cmp (l1 ++ x :: l2) = x :: r.
Proof.
  intros H1 H2. induction l1 as [|z l1 IH].
  - simpl. destruct (JS.sort cmp l2) as [|y r] eqn:E; [by eexists|].
    simpl. rewrite (proj2 (Z.leb_le _ _)); [by eexists|].
    apply H2. by eapply sort_head_elem.
  - simpl. destruct IH as [r ->]; [intros; apply H1; by right|]. simpl.
    rewrite (proj2 (Z.leb_gt _ _)); [by eexists|].
    apply H1. by left.
Qed.

Lemma healthy_candidates_from now ks (g : nat -> nat) :
  Forall (fun k => failCount k = 0 /\ circuitState k = CLOSED /\ failedAt k = None) ks ->
  omap (fun '(i, (c, k)) => if c : bool then None else Some (i, k))
       (imap (fun i (ck : bool * KeyState) => (g i, ck)) (checked now ks))
  = imap (fun i k => (g i, k)) ks.
Proof.
  intros H. revert g. unfold checked.
  induction H as [|k ks (_ & Hc & Hf) _ IH]; intros g; [done|].
  simpl. unfold isOnCooldown at 1. rewrite Hc, Hf. simpl.
  f_equal. apply (IH (fun i => g (S i))).
Qed.

Lemma healthy_checked now ks :
  Forall (fun k => failCount k = 0 /\ circuitState k = CLOSED /\ failedAt k = None) ks -> map snd (checked now ks) = ks.
Proof.
  unfold checked.
  induction 1 as [|k ks (_ & Hc & Hf) _ IH]; [done|].
  simpl. unfold isOnCooldown at 1. rewrite Hc, Hf. simpl. by f_equal.
Qed.

(** With no failure on record anywhere, [getKey] takes the leftmost of
    the credentials whose [lastUsed] is the least. *)
Lemma getKey_lru now s (r : nat) (b : KeyState) :
  NoDup (names s) -> loadState s = s ->
  Forall (fun k => failCount k = 0 /\ circuitState k = CLOSED /\ failedAt k = None) (keys s) ->
  keys s !! r = Some b ->
  (forall i a, (i < r)%nat -> keys s !! i = Some a -> lastUsed b < lastUsed a) ->
  (forall i c, (r < i)%nat -> keys s !! i = Some c -> lastUsed b <= lastUsed c) ->
  getKey now s
  = (Some (key b),
     saveState (mkPool (<[r := set_lastUsed now b]> (keys s)) (storage s))).
Proof.
  intros Hnd Hl Hh Hr Hlt Hle.
  unfold getKey. rewrite Hl.
  destruct (keys s) as [|k0 ks0] eqn:Hks; [done|]. rewrite <- Hks in *.
  unfold candidates.
  rewrite (healthy_candidates_from now (keys s) (fun i => i) Hh).
  rewrite healthy_checked by done.
  destruct (list_elem_of_split_length _ _ _ Hr) as (A & B & HAB & ->).
  rewrite HAB at 1. rewrite imap_app. simpl.
  destruct (sort_head_leftmost byHealth
              (imap (fun i k => (i, k)) A) (length A + 0, b)%nat
              (imap ((fun n k => (length A + n, k))%nat ∘ S) B)) as [rest ->].
  - intros [i a] (i' & a' & [= -> ->] & Hi)%elem_of_lookup_imap.
    unfold byHealth. simpl.
    rewrite Forall_forall in Hh.
    destruct (Hh b) as (Hb & _); [by eapply list_elem_of_lookup_2|].
    destruct (Hh a') as (Ha & _).
    { rewrite HAB. apply elem_of_app. left. by eapply list_elem_of_lookup_2. }
    rewrite Ha, Hb. simpl.
    assert (lastUsed b < lastUsed a'); [|lia].
    apply (Hlt i'); [by apply lookup_lt_Some in Hi|].
    rewrite HAB. by apply lookup_app_l_Some.
  - intros [i c] (i' & c' & Heq & Hi)%elem_of_lookup_imap.
    simpl in Heq. injection Heq as -> ->.
    unfold byHealth. simpl.
    rewrite Forall_forall in Hh.
    destruct (Hh b) as (Hb & _); [by eapply list_elem_of_lookup_2|].
    destruct (Hh c') as (Hc & _).
    { rewrite HAB. apply elem_of_app. right. right.
      by eapply list_elem_of_lookup_2. }
    rewrite Hc, Hb. simpl.
    assert (lastUsed b <= lastUsed c'); [|lia].
    apply (Hle (length A + S i')%nat); [lia|].
    rewrite HAB. rewrite lookup_app_r by lia.
    replace (length A + S i' - length A)%nat with (S i') by lia. done.
  - simpl. by rewrite Nat.add_0_r.
Qed.

Lemma clock_mono (clock : nat -> Z) :
  (forall i, clock i < clock (S i)) ->
  forall i j, (i < j)%nat -> clock i < clock j.
Proof.
  intros H i j Hij. induction Hij as [|j _ IH]; [apply H|].
  pose proof (H j). lia.
Qed.

Lemma mod_succ (j n : nat) :
  n <> 0%nat ->
  (S (j mod n) < n /\ S j mod n = S (j mod n))%nat \/
  (S (j mod n) = n /\ S j mod n = 0)%nat.
Proof.
  intros Hn. pose proof (Nat.mod_upper_bound j n Hn) as Hr.
  pose proof (Nat.div_mod_eq j n) as Hj.
  destruct (decide (S (j mod n) < n)%nat) as [Hlt|Hge]; [left|right].
  - split; [done|]. symmetry. apply (Nat.mod_unique (S j) n (j / n)); lia.
  - split; [lia|]. symmetry. apply (Nat.mod_unique (S j) n (S (j / n))); lia.
Qed.

(** The state of a fresh pool after [j] calls of [getKey] at the
    readings [clock 0 < clock 1 < ...]: nothing has failed, the
    credentials in front of position [j mod n] were used in this round,
    in order, and those from it on in the round before, in order. *)
Lemma rotation_state (clock : nat -> Z) (initialKeys : list string) (st : Storage) :
  st = NoStorage \/ st = Slot None ->
  0 < clock 0%nat -> (forall i, clock i < clock (S i)) ->
  getKeyCount (new initialKeys st) <> 0%nat ->
  forall j,
    let s := run (map (fun i => GetKey (clock i)) (seq 0 j)) (new initialKeys st) in
    let r := (j mod getKeyCount (new initialKeys st))%nat in
    names s = names (new initialKeys st) /\
    loadState s = s /\
    Forall (fun k => failCount k = 0 /\ circuitState k = CLOSED /\ failedAt k = None) (keys s) /\
    (forall i i' a c, (r <= i < i')%nat ->
       keys s !! i = Some a -> keys s !! i' = Some c -> lastUsed a <= lastUsed c) /\
    (forall i i' a c, (i < i' < r)%nat ->
       keys s !! i = Some a -> keys s !! i' = Some c -> lastUsed a <= lastUsed c) /\
    (forall i i' a c, (i < r <= i')%nat ->
       keys s !! i = Some a -> keys s !! i' = Some c -> lastUsed c < lastUsed a) /\
    (forall k, k ∈ keys s -> lastUsed k < clock j).
Proof.
  intros Hst H0 Hclock Hn j.
  set (s0 := new initialKeys st) in *.
  assert (NoDup (names s0)) as Hnd0 by apply (new_wf initialKeys st).
  induction j as [|j IH].
  - simpl. unfold run. simpl. rewrite Nat.Div0.mod_0_l.
    assert (keys s0 = map fresh (List.filter (fun k => negb (String.eqb k ""))
                                   (JS.uniq [] initialKeys))) as Hk0.
    { unfold s0, new, loadState. by destruct Hst as [-> | ->]. }
    split_and!.
    + done.
    + apply loadState_idem.
    + rewrite Hk0. apply Forall_fmap, Forall_forall. by intros k _.
    + intros i i' a c _. rewrite Hk0, !list_lookup_fmap.
      intros (? & _ & ->)%fmap_Some (? & _ & ->)%fmap_Some. simpl. lia.
    + intros i i' a c ?. lia.
    + intros i i' a c ?. lia.
    + intros k. rewrite Hk0.
      intros (? & -> & _)%list_elem_of_fmap. simpl. lia.
  - rewrite seq_S, map_app. simpl. unfold run in *. rewrite foldl_snoc.
    simpl.
    set (s := foldl step s0 (map (fun i => GetKey (clock i)) (seq 0 j))) in *.
    set (n := getKeyCount s0) in *.
    simpl in IH.
    destruct IH as (Hnames & Hl & Hh & Hsorted & Hfront & Hgap & Hbound).
    assert (length (keys s) = n) as Hlen.
    { unfold n, getKeyCount. apply (f_equal length) in Hnames.
      unfold names in Hnames. by rewrite !length_map in Hnames. }
    pose proof (Nat.mod_upper_bound j n Hn) as Hr.
    destruct (lookup_lt_is_Some_2 (keys s) (j mod n)%nat ltac:(lia)) as [b Hb].
    rewrite (getKey_lru (clock j) s (j mod n)%nat b);
      [| by rewrite Hnames | done | done | done | |].
    2:{ intros i a Hi Ha. by apply (Hgap i (j mod n)%nat a b). }
    2:{ intros i c Hi Hc. by apply (Hsorted (j mod n)%nat i b c). }
    simpl.
    assert (NoDup (map key (<[(j mod n)%nat := set_lastUsed (clock j) b]> (keys s))))
      as Hnd1.
    { rewrite (insert_names _ _ b) by done. fold (names s). by rewrite Hnames. }
    rewrite saveState_keys. simpl.
    assert (forall i k, <[(j mod n)%nat := set_lastUsed (clock j) b]> (keys s) !! i
                        = Some k ->
              (i = (j mod n)%nat /\ lastUsed k = clock j) \/
              (i <> (j mod n)%nat /\ keys s !! i = Some k)) as Hlook.
    { intros i k [(<- & <- & _) | (? & ?)]%list_lookup_insert_Some;
        [by left|by right]. }
    assert (forall i k, keys s !! i = Some k -> lastUsed k < clock j) as Hb'.
    { intros i k Hi. apply Hbound. by eapply list_elem_of_lookup_2. }
    split_and!.
    + unfold names. rewrite saveState_keys. simpl.
      rewrite (insert_names _ _ b) by done. done.
    + by apply loadState_saveState.
    + apply Forall_insert; [done|].
      rewrite Forall_forall in Hh. apply (Hh b).
      by eapply list_elem_of_lookup_2.
    + intros i i' a c Hi Ha Hc.
      apply Hlook in Ha, Hc.
      assert ((i' < n)%nat) as Hi'.
      { destruct Hc as [[-> _]|[_ Hc]]; [done|].
        apply lookup_lt_Some in Hc. lia. }
      destruct (mod_succ j n Hn) as [[Hlt Hs]|[Heq Hs]]; rewrite Hs in Hi.
      * destruct Ha as [[-> _]|[_ Ha]]; [lia|].
        destruct Hc as [[-> _]|[_ Hc]]; [lia|].
        apply (Hsorted i i' a c); [lia|done|done].
      * destruct Hc as [[-> Hc]|[Hne Hc]].
        { destruct Ha as [[-> _]|[_ Ha]]; [lia|].
          rewrite Hc. specialize (Hb' _ _ Ha). lia. }
        destruct Ha as [[-> _]|[_ Ha]]; [lia|].
        apply (Hfront i i' a c); [lia|done|done].
    + intros i i' a c Hi Ha Hc.
      apply Hlook in Ha, Hc.
      destruct (mod_succ j n Hn) as [[Hlt Hs]|[Heq Hs]]; rewrite Hs in Hi;
        [|lia].
      destruct Ha as [[-> _]|[_ Ha]]; [lia|].
      destruct Hc as [[-> Hc]|[Hne Hc]].
      * rewrite Hc. specialize (Hb' _ _ Ha). lia.
      * apply (Hfront i i' a c); [lia|done|done].
    + intros i i' a c Hi Ha Hc.
      apply Hlook in Ha, Hc.
      destruct (mod_succ j n Hn) as [[Hlt Hs]|[Heq Hs]]; rewrite Hs in Hi;
        [|lia].
      destruct Hc as [[-> _]|[_ Hc]]; [lia|].
      destruct Ha as [[-> Ha]|[Hne Ha]].
      * rewrite Ha. by apply (Hb' i').
      * apply (Hgap i i' a c); [lia|done|done].
    + intros k (i & Hi)%list_elem_of_lookup.
      apply Hlook in Hi as [[_ ->]|[_ Hi]]; [apply Hclock|].
      specialize (Hb' _ _ Hi). pose proof (Hclock j). lia.
Qed.

End KeyPoolRotation.

(** Rotation.  On a pool whose storage holds no saved state, and while
    no failure is reported, successive calls of [getKey] at increasing
    clock readings hand out the configured credentials in their order,
    round after round: the call number [j] returns the credential at
    position [j mod n] of the pool. *)
Theorem getKey_rotates_through_the_pool
    (clock : nat -> Z) (initialKeys : list string) (st : KeyPool.Storage) (j : nat) :
  st = KeyPool.NoStorage \/ st = KeyPool.Slot None ->
  0 < clock 0%nat -> (forall i, clock i < clock (S i)) ->
  KeyPool.getKeyCount (KeyPool.new initialKeys st) <> 0%nat ->
  let s0 := KeyPool.new initialKeys st in
  fst (KeyPool.getKey (clock j)
         (KeyPool.run (map (fun i => KeyPool.GetKey (clock i)) (seq 0 j)) s0))
  = KeyPool.names s0 !! (j mod KeyPool.getKeyCount s0)%nat.
Proof.
  intros Hst H0 Hclock Hn s0.
  destruct (KeyPoolRotation.rotation_state clock initialKeys st Hst H0 Hclock Hn j)
    as (Hnames & Hl & Hh & Hsorted & _ & Hgap & _).
  fold s0 in Hnames, Hl, Hh, Hsorted, Hgap, Hn.
  set (s := KeyPool.run _ s0) in *.
  set (n := KeyPool.getKeyCount s0) in *.
  assert (length (KeyPool.keys s) = n) as Hlen.
  { unfold n, KeyPool.getKeyCount. apply (f_equal length) in Hnames.
    unfold KeyPool.names in Hnames. by rewrite !length_map in Hnames. }
  pose proof (Nat.mod_upper_bound j n Hn) as Hr.
  destruct (lookup_lt_is_Some_2 (KeyPool.keys s) (j mod n)%nat ltac:(lia))
    as [b Hb].
  rewrite (KeyPoolRotation.getKey_lru (clock j) s (j mod n)%nat b);
    [| rewrite Hnames; apply (KeyPoolFacts.new_wf initialKeys st)
     | done | done | done | |].
  - simpl. rewrite <- Hnames. unfold KeyPool.names.
    by rewrite list_lookup_fmap, Hb.
  - intros i a Hi Ha. by apply (Hgap i (j mod n)%nat a b).
  - intros i c Hi Hc. by apply (Hsorted (j mod n)%nat i b c).
Qed.

Lemma getKey_rotates_through_the_pool_witness :
  let clock := fun i : nat => 1000 + 1000 * Z.of_nat i in
  let s0 := KeyPool.new ["a"; "b"; "c"]%string (KeyPool.Slot None) in
  fst (KeyPool.getKey (clock 4%nat)
         (KeyPool.run (map (fun i => KeyPool.GetKey (clock i)) (seq 0 4)) s0))
  = Some "b"%string.
Proof.
  intros clock s0.
  apply (getKey_rotates_through_the_pool clock ["a"; "b"; "c"]%string
           (KeyPool.Slot None) 4).
  - by right.
  - unfold clock. lia.
  - intros i. unfold clock. lia.
  - vm_compute. discriminate.
Defined.

(** ** The retry loop: how a call ends *)

Module InvokerOutcomes.
Import KeyPool Invoker KeyPoolFacts KeyPoolSelect.

Lemma nonempty_names s s' : names s' = names s -> keys s <> [] -> keys s' <> [].
Proof.
  unfold names. intros Hn Hs Hs'. rewrite Hs' in Hn.
  by destruct (keys s).
Qed.

(** On a pool that holds a credential [getKey] gives a non-empty key. *)
Lemma getKey_gives now s :
  wf s -> keys s <> [] ->
  exists k, fst (getKey now s) = Some k /\ k <> ""%string /\ k ∈ names s.
Proof.
  intros [Hnd Hne] Hs.
  destruct (getKey_is_Some now s Hne Hs) as [k Hk].
  exists k. split; [done|].
  pose proof (getKey_in_names now s k Hk) as Hin. split; [|done].
  unfold names in Hin. apply list_elem_of_fmap in Hin as (x & -> & Hx).
  rewrite Forall_forall in Hne. by apply Hne.
Qed.

Lemma loop_outcomes {T} (world : nat -> Attempt T) remaining :
  forall attempt s r s' log,
    wf s -> keys s <> [] -> remaining <> 0%nat ->
    loop world remaining attempt s = (r, s', log) ->
    names s' = names s /\
    match r with
    | Return v =>
        (length log <= remaining)%nat /\
        exists pre k rec,
          log = pre ++ [ReportSuccess k k] /\
          Forall (fun rep => exists k e,
                    rep = ReportFailure k e k (isQuota e) (negb (isQuota e))) pre /\
          record k s' = Some rec /\
          failCount rec = 0 /\ circuitState rec = CLOSED
    | Throw e =>
        length log = remaining /\
        exists pre k,
          log = pre ++ [ReportFailure k e k (isQuota e) false] /\
          Forall (fun rep => exists k e,
                    rep = ReportFailure k e k (isQuota e) (negb (isQuota e))) pre
    end.
Proof.
  induction remaining as [|n IH]; intros attempt s r s' log Hwf Hs Hrem;
    [done|].
  simpl.
  destruct (getKey_gives (at_select (world attempt)) s Hwf Hs)
    as (k & Hk & Hne & Hin).
  destruct (getKey (at_select (world attempt)) s) as [got s1] eqn:Hg.
  simpl in Hk. subst got.
  assert (names s1 = names s) as Hn1.
  { pose proof (getKey_names (at_select (world attempt)) s) as H.
    by rewrite Hg in H. }
  destruct (String.eqb k "") eqn:E; [by apply String.eqb_eq in E|].
  destruct (run (world attempt) k) as [v|e].
  { intros [= <- <- <-]. rewrite markSuccess_names. split; [done|].
    split; [simpl; lia|].
    assert (NoDup (names s1)) as Hnd1 by (rewrite Hn1; apply Hwf).
    destruct (KeyPoolCircuit.record_exists k s1) as [rec Hrec];
      [by rewrite Hn1|done|].
    destruct (KeyPoolCircuit.markSuccess_record k s1 rec Hnd1 Hrec)
      as (_ & Hr & _).
    exists [], k, (succeeded rec). by split_and!. }
  destruct n as [|n'].
  { intros [= <- <- <-]. rewrite markFailed_names. split; [done|].
    split; [done|]. by exists [], k. }
  set (s2 := markFailed k (isQuota e) (at_report (world attempt)) s1).
  assert (names s2 = names s) as Hn2
    by (unfold s2; by rewrite markFailed_names).
  destruct (loop world (S n') (S attempt) s2) as [[r3 s3] log3] eqn:Hloop.
  intros [= <- <- <-].
  destruct (IH (S attempt) s2 r3 s3 log3) as [Hn3 Hres];
    [by eapply wf_names|by eapply nonempty_names|done|done|].
  split; [congruence|].
  assert (exists k0 e0, ReportFailure k e k (isQuota e) (negb (isQuota e))
                        = ReportFailure k0 e0 k0 (isQuota e0) (negb (isQuota e0)))
    as Hhead by (by exists k, e).
  destruct r3 as [v|e3].
  - destruct Hres as (Hlen & pre & k3 & rec & -> & Hpre & Hrec).
    split; [simpl in *; lia|].
    exists (ReportFailure k e k (isQuota e) (negb (isQuota e)) :: pre), k3, rec.
    split_and!; try done; try apply Hrec. by constructor.
  - destruct Hres as (Hlen & pre & k3 & -> & Hpre).
    split; [simpl in *; lia|].
    exists (ReportFailure k e k (isQuota e) (negb (isQuota e)) :: pre), k3.
    split; [done|]. by constructor.
Qed.

End InvokerOutcomes.

(** How a call through the retry loop ends.  With no credential
    configured it fails at once with the no-keys error: the operation is
    not run and the pool is not touched.  With credentials configured the
    operation is run at most once more than there are credentials, and
    - a call that returns made one successful pass, the last, after
      passes that failed, each followed by the one-second pause unless
      its error was a quota error; the credential of the last pass is
      left CLOSED with no failure on record;
    - a call that throws made the full number of passes, all failed, and
      throws the error of the last pass, after which it did not pause. *)
Theorem retry_loop_outcomes (T : Type) (world : nat -> Invoker.Attempt T)
    (s : KeyPool.Pool) :
  KeyPool.wf s ->
  (KeyPool.keys s = [] ->
   Invoker.callGeminiWithRetry world s = (Invoker.Throw Invoker.noKeysError, s, [])) /\
  (KeyPool.keys s <> [] ->
   forall r s' log,
     Invoker.callGeminiWithRetry world s = (r, s', log) ->
     match r with
     | Invoker.Return v =>
         (length log <= KeyPool.getKeyCount s + 1)%nat /\
         exists pre k rec,
           log = pre ++ [Invoker.ReportSuccess k k] /\
           Forall (fun rep => exists k e,
                     rep = Invoker.ReportFailure k e k (Invoker.isQuota e)
                             (negb (Invoker.isQuota e))) pre /\
           KeyPool.record k s' = Some rec /\
           KeyPool.failCount rec = 0 /\
           KeyPool.circuitState rec = KeyPool.CLOSED
     | Invoker.Throw e =>
         length log = (KeyPool.getKeyCount s + 1)%nat /\
         exists pre k,
           log = pre ++ [Invoker.ReportFailure k e k (Invoker.isQuota e) false] /\
           Forall (fun rep => exists k e,
                     rep = Invoker.ReportFailure k e k (Invoker.isQuota e)
                             (negb (Invoker.isQuota e))) pre
     end).
Proof.
  intros Hwf. split.
  - intros Hk. unfold Invoker.callGeminiWithRetry, KeyPool.getKeyCount.
    rewrite Hk. simpl. unfold KeyPool.getKey.
    assert (KeyPool.loadState s = s) as ->.
    { unfold KeyPool.loadState. destruct s as [ks st]. simpl in *. subst ks.
      by destruct st as [|[m|]]. }
    by rewrite Hk.
  - intros Hk r s' log Hrun. unfold Invoker.callGeminiWithRetry in Hrun.
    replace (Nat.max 1 (KeyPool.getKeyCount s + 1))
      with (KeyPool.getKeyCount s + 1)%nat in Hrun by lia.
    destruct (InvokerOutcomes.loop_outcomes world
                (KeyPool.getKeyCount s + 1)%nat 0%nat s r s' log Hwf Hk
                ltac:(lia) Hrun) as [_ H].
    exact H.
Qed.

Lemma retry_loop_outcomes_witness :
  let e := Invoker.mkJsError (Some 503) "Error: overloaded" in
  let world := fun n : nat =>
    Invoker.mkAttempt (1000 + 1000 * Z.of_nat n)
      (fun k : string => if String.eqb k "k1" then Invoker.Rejected e
                         else Invoker.Resolved k)
      (1500 + 1000 * Z.of_nat n) in
  let s := KeyPool.new ["k1"; "k2"]%string (KeyPool.Slot None) in
  fst (Invoker.callGeminiWithRetry world s)
  = (Invoker.Return "k2"%string, snd (fst (Invoker.callGeminiWithRetry world s))) /\
  snd (Invoker.callGeminiWithRetry world s)
  = [Invoker.ReportFailure "k1" e "k1" false true;
     Invoker.ReportSuccess "k2" "k2"] /\
  exists pre k rec,
    snd (Invoker.callGeminiWithRetry world s) = pre ++ [Invoker.ReportSuccess k k] /\
    Forall (fun rep => exists k e,
              rep = Invoker.ReportFailure k e k (Invoker.isQuota e)
                      (negb (Invoker.isQuota e))) pre /\
    KeyPool.record k (snd (fst (Invoker.callGeminiWithRetry world s))) = Some rec /\
    KeyPool.failCount rec = 0 /\
    KeyPool.circuitState rec = KeyPool.CLOSED.
Proof.
  intros e world s.
  split; [reflexivity|]. split; [reflexivity|].
  destruct (Invoker.callGeminiWithRetry world s) as [[r s'] log] eqn:Hrun.
  pose proof (proj2 (retry_loop_outcomes string world s (KeyPoolFacts.new_wf _ _))
                ltac:(discriminate) r s' log Hrun) as H.
  assert (r = Invoker.Return "k2"%string) as ->.
  { apply (f_equal (fun x => fst (fst x))) in Hrun. simpl in Hrun.
    rewrite <- Hrun. reflexivity. }
  simpl. apply H.
Defined.

(** ** The layer engine: walking the history, the selection, the order *)

Module StudioWalk.
Import Num Studio StudioFacts.

Lemma undo_step s :
  inv s -> (0 < historyIndex s)%nat ->
  exists ls, history s !! (historyIndex s - 1)%nat = Some ls /\
    undo s = Some (mkState ls (restore_selection (activeLayerId s) ls)
                           (history s) (historyIndex s - 1)).
Proof.
  intros [Hi _] Hpos. unfold undo.
  rewrite (proj2 (Nat.ltb_lt _ _) Hpos).
  destruct (lookup_lt_is_Some_2 (history s) (historyIndex s - 1)%nat) as [ls Hls];
    [lia|].
  exists ls. by rewrite Hls.
Qed.

Lemma redo_step s :
  inv s -> (historyIndex s < length (history s) - 1)%nat ->
  exists ls, history s !! (historyIndex s + 1)%nat = Some ls /\
    redo s = Some (mkState ls (restore_selection (activeLayerId s) ls)
                           (history s) (historyIndex s + 1)).
Proof.
  intros [Hi _] Hlt. unfold redo.
  rewrite (proj2 (Nat.ltb_lt _ _) Hlt).
  destruct (lookup_lt_is_Some_2 (history s) (historyIndex s + 1)%nat) as [ls Hls];
    [lia|].
  exists ls. by rewrite Hls.
Qed.

Lemma undo_walk k : forall s,
  inv s -> (0 < k <= historyIndex s)%nat ->
  exists s1, steps (replicate k Undo) s = Some s1 /\
    inv s1 /\
    history s1 = history s /\
    historyIndex s1 = (historyIndex s - k)%nat /\
    history s !! (historyIndex s - k)%nat = Some (layers s1).
Proof.
  induction k as [|k IH]; intros s Hinv Hk; [lia|].
  destruct (undo_step s Hinv ltac:(lia)) as (ls & Hls & Hu).
  simpl. rewrite Hu.
  set (s' := mkState ls _ (history s) (historyIndex s - 1)).
  assert (inv s') as Hinv' by (destruct Hinv; split; simpl; lia).
  destruct k as [|k].
  - simpl. exists s'. by split_and!.
  - destruct (IH s' Hinv') as (s1 & Hs1 & Hi1 & Hh1 & Hx1 & Hl1); [simpl; lia|].
    exists s1. simpl in *. split_and!; try done; [lia|].
    by replace (historyIndex s - S (S k))%nat with (historyIndex s - 1 - S k)%nat
      by lia.
Qed.

Lemma redo_walk k : forall s,
  inv s -> (0 < k)%nat -> (historyIndex s + k < length (history s))%nat ->
  exists s1, steps (replicate k Redo) s = Some s1 /\
    inv s1 /\
    history s1 = history s /\
    historyIndex s1 = (historyIndex s + k)%nat /\
    history s !! (historyIndex s + k)%nat = Some (layers s1).
Proof.
  induction k as [|k IH]; intros s Hinv Hk Hlen; [lia|].
  destruct (redo_step s Hinv ltac:(lia)) as (ls & Hls & Hu).
  simpl. rewrite Hu.
  set (s' := mkState ls _ (history s) (historyIndex s + 1)).
  assert (inv s') as Hinv' by (destruct Hinv; split; simpl; lia).
  destruct k as [|k].
  - simpl. exists s'. by split_and!.
  - destruct (IH s' Hinv') as (s1 & Hs1 & Hi1 & Hh1 & Hx1 & Hl1);
      [lia|simpl; lia|].
    exists s1. simpl in *. split_and!; try done; [lia|].
    by replace (historyIndex s + S (S k))%nat with (historyIndex s + 1 + S k)%nat
      by lia.
Qed.

End StudioWalk.

(** Walking the history.  From a state of the hook, [k] undos (as many
    as there are snapshots behind the cursor, or fewer) restore the
    snapshot [k] places back, and [k] redos then restore the snapshot the
    cursor was on, with the stack and the cursor as they were.  What is
    restored is the snapshot under the cursor: layers set without a
    commit are not in it. *)
Theorem undo_redo_walk (s : Studio.State) (k : nat) :
  Studio.inv s -> (0 < k <= Studio.historyIndex s)%nat ->
  exists s1 s2,
    Studio.steps (replicate k Studio.Undo) s = Some s1 /\
    Studio.history s !! (Studio.historyIndex s - k)%nat = Some (Studio.layers s1) /\
    Studio.steps (replicate k Studio.Redo) s1 = Some s2 /\
    Studio.history s !! Studio.historyIndex s = Some (Studio.layers s2) /\
    Studio.history s2 = Studio.history s /\
    Studio.historyIndex s2 = Studio.historyIndex s.
Proof.
  intros Hinv Hk.
  destruct (StudioWalk.undo_walk k s Hinv Hk) as (s1 & Hs1 & Hi1 & Hh1 & Hx1 & Hl1).
  pose proof Hinv as [Hlt _].
  destruct (StudioWalk.redo_walk k s1 Hi1) as (s2 & Hs2 & Hi2 & Hh2 & Hx2 & Hl2);
    [lia|rewrite Hh1, Hx1; lia|].
  exists s1, s2. rewrite Hh1, Hx1 in Hl2. rewrite Hx1 in Hx2.
  replace (Studio.historyIndex s - k + k)%nat with (Studio.historyIndex s)
    in Hl2, Hx2 by lia.
  split_and!; try done. congruence.
Qed.

Lemma undo_redo_walk_witness :
  let layer := fun u : string =>
    Studio.mkLayer u "logo" (Num.Fin 50) (Num.Fin 50) (Num.Fin 1) (Num.Fin 0)
      (Some Studio.normal) in
  let s := Studio.updateLayer "u2"
             (Studio.mkUpdates None None (Some (Num.Fin 10)) None None None None)
             (Studio.addLayer "u2" "logo" (Studio.addLayer "u1" "logo" (Studio.init []))) in
  exists s1 s2,
    Studio.steps [Studio.Undo; Studio.Undo] s = Some s1 /\
    Studio.layers s1 = [] /\
    Studio.steps [Studio.Redo; Studio.Redo] s1 = Some s2 /\
    Studio.layers s2 = [layer "u1"; layer "u2"] /\
    Studio.layers s2 <> Studio.layers s.
Proof.
  intros layer s.
  destruct (undo_redo_walk s 2) as (s1 & s2 & H1 & H2 & H3 & H4 & _).
  { split; vm_compute; lia. }
  { vm_compute; lia. }
  exists s1, s2. simpl in H1, H2, H3, H4.
  injection H2 as H2. injection H4 as H4.
  split_and!; try done. rewrite <- H4. discriminate.
Defined.

(** The selection after undo and redo.  When [undo] or [redo] moves the
    cursor, a layer is selected afterwards only if it was selected
    before and the restored snapshot holds it: the selection is never
    left on a layer that is not on the canvas, and it is never given
    back to a layer that a redo brings back. *)
Theorem undo_redo_never_select_a_missing_layer
    (s s' : Studio.State) (id : string) :
  (Studio.canUndo s = true /\ Studio.undo s = Some s') \/
  (Studio.canRedo s = true /\ Studio.redo s = Some s') ->
  Studio.activeLayerId s' = Some id -> id <> ""%string ->
  Studio.activeLayerId s = Some id /\
  Studio.some_uid id (Studio.layers s') = true.
Proof.
  assert (forall a ls, Studio.restore_selection a ls = Some id -> id <> ""%string ->
            a = Some id /\ Studio.some_uid id ls = true) as Hsel.
  { intros [a|] ls; [|done]. unfold Studio.restore_selection.
    destruct (String.eqb a "") eqn:Ea; simpl.
    - intros [= ->]. apply String.eqb_eq in Ea. done.
    - destruct (Studio.some_uid a ls) eqn:Es; simpl; [|done].
      by intros [= ->]. }
  intros [[Hc H]|[Hc H]] Ha Hid.
  - unfold Studio.undo in H. unfold Studio.canUndo in Hc. rewrite Hc in H.
    destruct (Studio.history s !! _) as [ls|]; [|done].
    injection H as <-. simpl in *. by apply Hsel.
  - unfold Studio.redo in H. unfold Studio.canRedo in Hc. rewrite Hc in H.
    destruct (Studio.history s !! _) as [ls|]; [|done].
    injection H as <-. simpl in *. by apply Hsel.
Qed.

Lemma undo_redo_never_select_a_missing_layer_witness :
  let s := Studio.setActiveLayerId (Some "u1"%string)
             (Studio.addLayer "u2" "logo" (Studio.addLayer "u1" "logo" (Studio.init []))) in
  exists s1 s2,
    Studio.undo s = Some s1 /\ Studio.activeLayerId s1 = Some "u1"%string /\
    Studio.some_uid "u1" (Studio.layers s1) = true /\
    Studio.undo s1 = Some s2 /\ Studio.activeLayerId s2 = None.
Proof.
  intros s. eexists _, _.
  split; [reflexivity|]. split; [reflexivity|].
  split; [|split; reflexivity].
  eapply (undo_redo_never_select_a_missing_layer s _ "u1").
  - left. split; reflexivity.
  - reflexivity.
  - discriminate.
Defined.

Module StudioOrder.
Import Num Studio StudioFacts.

(** The swap of two neighbours. *)
Lemma swap_next (ls : list PlacedLayer) : forall i a b,
  ls !! i = Some a -> ls !! S i = Some b ->
  exists pre post,
    ls = pre ++ a :: b :: post /\ length pre = i /\
    swap i (S i) ls = pre ++ b :: a :: post /\
    swap (S i) i ls = pre ++ b :: a :: post.
Proof.
  induction ls as [|x ls IH]; intros i a b Ha Hb; [done|].
  destruct i as [|i].
  - destruct ls as [|y ls]; [done|]. simpl in Ha, Hb. simplify_eq.
    by exists [], ls.
  - simpl in Ha, Hb.
    destruct (IH i a b Ha Hb) as (pre & post & -> & Hlen & H1 & H2).
    exists (x :: pre), post. split_and!; [done|simpl; lia| |].
    + unfold swap in *. simpl. rewrite Ha, Hb in *. simpl in *.
      by rewrite H1.
    + unfold swap in *. simpl. rewrite Ha, Hb in *. simpl in *.
      by rewrite H2.
Qed.

Lemma findIndex_Some id ls i :
  findIndex id ls = Some i <->
  exists l, ls !! i = Some l /\ uid l = id /\
    forall j y, ls !! j = Some y -> (j < i)%nat -> uid y <> id.
Proof.
  unfold findIndex. rewrite fmap_Some. split.
  - intros ([i' l] & (Hl & Hp & Hfirst)%list_find_Some & ->). simpl.
    exists l. split_and!; [done|by apply String.eqb_eq|].
    intros j y Hy Hj E. apply (Hfirst j y Hy Hj).
    unfold has_uid. by apply String.eqb_eq.
  - intros (l & Hl & Hu & Hfirst). exists (i, l). split; [|done].
    apply list_find_Some. split_and!; [done|by apply String.eqb_eq|].
    intros j y Hy Hj E. apply (Hfirst j y Hy Hj).
    unfold has_uid in E. by apply String.eqb_eq.
Qed.

Lemma reorder_forward s id i :
  findIndex id (layers s) = Some i -> (i + 1 < length (layers s))%nat ->
  exists a b pre post,
    layers s = pre ++ a :: b :: post /\ length pre = i /\ uid a = id /\
    reorderLayer id forward s = commit (pre ++ b :: a :: post) s.
Proof.
  intros Hf Hlt. unfold reorderLayer. rewrite Hf.
  rewrite (proj2 (Nat.ltb_lt _ _)) by lia.
  apply findIndex_Some in Hf as (a & Ha & Hu & _).
  destruct (lookup_lt_is_Some_2 (layers s) (S i)) as [b Hb]; [lia|].
  destruct (swap_next _ _ _ _ Ha Hb) as (pre & post & Hls & Hlen & H1 & _).
  exists a, b, pre, post. split_and!; try done.
  replace (i + 1)%nat with (S i) by lia. by rewrite H1.
Qed.

Lemma reorder_backward s id i :
  findIndex id (layers s) = Some (S i) ->
  exists a b pre post,
    layers s = pre ++ a :: b :: post /\ length pre = i /\ uid b = id /\
    reorderLayer id backward s = commit (pre ++ b :: a :: post) s.
Proof.
  intros Hf. unfold reorderLayer. rewrite Hf.
  rewrite (proj2 (Nat.ltb_lt 0 (S i))) by lia.
  apply findIndex_Some in Hf as (b & Hb & Hu & _).
  destruct (lookup_lt_is_Some_2 (layers s) i) as [a Ha];
    [apply lookup_lt_Some in Hb; lia|].
  destruct (swap_next _ _ _ _ Ha Hb) as (pre & post & Hls & Hlen & _ & H2).
  exists a, b, pre, post. split_and!; try done.
  replace (S i - 1)%nat with i by lia. by rewrite H2.
Qed.

End StudioOrder.

(** Reordering keeps the layers.  Whatever the id and the direction,
    [reorderLayer] leaves a rearrangement of the same layers and the
    same selection: it never drops, duplicates or edits a layer. *)
Theorem reorderLayer_keeps_every_layer
    (id : string) (d : Studio.Direction) (s : Studio.State) :
  Studio.layers (Studio.reorderLayer id d s) ≡ₚ Studio.layers s /\
  Studio.activeLayerId (Studio.reorderLayer id d s) = Studio.activeLayerId s.
Proof.
  destruct (Studio.findIndex id (Studio.layers s)) as [i|] eqn:Hf.
  2:{ unfold Studio.reorderLayer. by rewrite Hf. }
  destruct d.
  - destruct (decide (i + 1 < length (Studio.layers s))%nat) as [Hlt|Hge].
    + destruct (StudioOrder.reorder_forward s id i Hf Hlt)
        as (a & b & pre & post & Hls & _ & _ & ->).
      simpl. split; [|done]. rewrite Hls.
      apply Permutation_app_head, Permutation_swap.
    + unfold Studio.reorderLayer. rewrite Hf.
      by rewrite (proj2 (Nat.ltb_ge _ _)) by lia.
  - destruct i as [|i].
    + unfold Studio.reorderLayer. by rewrite Hf.
    + destruct (StudioOrder.reorder_backward s id i Hf)
        as (a & b & pre & post & Hls & _ & _ & ->).
      simpl. split; [|done]. rewrite Hls.
      apply Permutation_app_head, Permutation_swap.
Qed.

(** Forward, then backward.  On a canvas whose layers have distinct
    uids, moving a layer that is not the last one forward puts it one
    position later, and moving it backward again restores the order. *)
Theorem reorder_forward_then_backward
    (s : Studio.State) (id : string) (i : nat) :
  NoDup (map Studio.uid (Studio.layers s)) ->
  Studio.findIndex id (Studio.layers s) = Some i ->
  (i + 1 < length (Studio.layers s))%nat ->
  let s1 := Studio.reorderLayer id Studio.forward s in
  Studio.findIndex id (Studio.layers s1) = Some (i + 1)%nat /\
  Studio.layers (Studio.reorderLayer id Studio.backward s1) = Studio.layers s.
Proof.
  intros Hnd Hf Hlt s1.
  destruct (StudioOrder.reorder_forward s id i Hf Hlt)
    as (a & b & pre & post & Hls & Hlen & Hua & Hs1).
  fold s1 in Hs1.
  assert (Studio.layers s1 = pre ++ b :: a :: post) as Hl1 by (by rewrite Hs1).
  apply StudioOrder.findIndex_Some in Hf as (a' & Ha' & _ & Hfirst).
  assert (Studio.uid b <> id) as Hub.
  { rewrite Hls, fmap_app in Hnd. apply NoDup_app in Hnd as (_ & _ & Hnd).
    simpl in Hnd. apply NoDup_cons in Hnd as [Hnot _].
    intros E. apply Hnot. rewrite Hua, <- E. by left. }
  assert (Studio.findIndex id (Studio.layers s1) = Some (S i)) as Hf1.
  { apply StudioOrder.findIndex_Some. exists a. rewrite Hl1. split_and!.
    - rewrite lookup_app_r by lia.
      by replace (S i - length pre)%nat with 1%nat by lia.
    - done.
    - intros j y Hy Hj.
      destruct (decide (j = i)) as [->|Hne].
      + rewrite lookup_app_r in Hy by lia.
        replace (i - length pre)%nat with 0%nat in Hy by lia.
        simpl in Hy. by simplify_eq.
      + apply (Hfirst j y); [|lia].
        rewrite Hls. rewrite lookup_app_l in Hy by lia.
        by rewrite lookup_app_l by lia. }
  split; [by replace (i + 1)%nat with (S i) by lia|].
  destruct (StudioOrder.reorder_backward s1 id i Hf1)
    as (a2 & b2 & pre2 & post2 & Hls2 & Hlen2 & _ & ->).
  simpl. rewrite Hl1 in Hls2.
  apply app_inj_1 in Hls2 as [<- Heq]; [|lia].
  injection Heq as <- <- <-. by rewrite Hls.
Qed.

Lemma reorder_forward_then_backward_witness :
  let s := Studio.addLayer "u3" "c" (Studio.addLayer "u2" "b"
             (Studio.addLayer "u1" "a" (Studio.init []))) in
  let s1 := Studio.reorderLayer "u1" Studio.forward s in
  map Studio.uid (Studio.layers s1) = ["u2"; "u1"; "u3"]%string /\
  Studio.findIndex "u1" (Studio.layers s1) = Some 1%nat /\
  Studio.layers (Studio.reorderLayer "u1" Studio.backward s1) = Studio.layers s.
Proof.
  intros s s1. split; [reflexivity|].
  apply (reorder_forward_then_backward s "u1" 0).
  - apply (bool_decide_unpack _). vm_compute. reflexivity.
  - reflexivity.
  - vm_compute. lia.
Defined.

Module StudioCommit.
Import Num Studio StudioFacts.

(** The stack a commit leaves ends with the snapshot that was under the
    cursor, followed by the new one. *)
Lemma nextHistory_cursor h i L hi :
  h !! i = Some hi -> exists pre, nextHistory h i L = pre ++ [hi; L].
Proof.
  intros Hi. unfold nextHistory.
  rewrite Nat.add_1_r, (take_S_r _ _ _ Hi), <- app_assoc. simpl.
  destruct (HISTORY_LIMIT <? length (take i h ++ [hi; L]))%nat eqn:E.
  - destruct (take i h) as [|x t]; [done|]. by exists t.
  - by eexists.
Qed.

Lemma commit_then_undo_redo L s hi :
  history s !! historyIndex s = Some hi ->
  exists pre,
    history (commit L s) = pre ++ [hi; L] /\
    historyIndex (commit L s) = S (length pre).
Proof.
  intros Hi. destruct (nextHistory_cursor _ _ L _ Hi) as [pre Hpre].
  exists pre. unfold commit. simpl. rewrite Hpre.
  split; [done|]. rewrite length_app. simpl. lia.
Qed.

End StudioCommit.

(** Undoing a creation.  On a state with nothing uncommitted, [addLayer]
    appends the new layer and selects it; [undo] then restores the
    layers as they were and clears the selection, since the selected
    layer is gone; [redo] brings the layer back but not the selection. *)
Theorem undo_of_addLayer_deselects
    (s : Studio.State) (newUid asset : string) :
  Studio.history s !! Studio.historyIndex s = Some (Studio.layers s) ->
  Studio.some_uid newUid (Studio.layers s) = false ->
  newUid <> ""%string ->
  let s1 := Studio.addLayer newUid asset s in
  Studio.activeLayerId s1 = Some newUid /\
  exists s2 s3,
    Studio.undo s1 = Some s2 /\
    Studio.layers s2 = Studio.layers s /\
    Studio.activeLayerId s2 = None /\
    Studio.redo s2 = Some s3 /\
    Studio.layers s3 = Studio.layers s1 /\
    Studio.activeLayerId s3 = None.
Proof.
  intros Hcur Hfresh Hne s1.
  assert (Studio.activeLayerId s1 = Some newUid) as Hact by done.
  split; [done|].
  set (L := Studio.layers s1).
  destruct (StudioCommit.commit_then_undo_redo L s _ Hcur) as (pre & Hh & Hx).
  assert (Studio.history s1 = pre ++ [Studio.layers s; L]) as Hh1 by exact Hh.
  assert (Studio.historyIndex s1 = S (length pre)) as Hx1 by exact Hx.
  assert (Studio.restore_selection (Some newUid) (Studio.layers s) = None) as Hsel.
  { unfold Studio.restore_selection. rewrite Hfresh.
    destruct (String.eqb newUid "") eqn:E; [by apply String.eqb_eq in E|done]. }
  clearbody s1.
  exists (Studio.mkState (Studio.layers s) None (Studio.history s1) (length pre)),
         (Studio.mkState L None (Studio.history s1) (S (length pre))).
  split_and!; try done.
  - unfold Studio.undo. rewrite Hx1. cbn [Nat.ltb Nat.leb].
    replace (S (length pre) - 1)%nat with (length pre) by lia.
    rewrite Hh1 at 1. rewrite lookup_app_r by lia.
    rewrite Nat.sub_diag. cbn [lookup list_lookup].
    by rewrite Hact, Hsel.
  - unfold Studio.redo. cbn [Studio.historyIndex Studio.history Studio.activeLayerId].
    rewrite Hh1 at 1. rewrite length_app. cbn [length].
    rewrite (proj2 (Nat.ltb_lt _ _)) by lia.
    rewrite Hh1 at 1. rewrite lookup_app_r by lia.
    replace (length pre + 1 - length pre)%nat with 1%nat by lia.
    cbn [lookup list_lookup Studio.restore_selection].
    by replace (length pre + 1)%nat with (S (length pre)) by lia.
Qed.

Lemma undo_of_addLayer_deselects_witness :
  let s1 := Studio.addLayer "u1" "logo" (Studio.init []) in
  Studio.activeLayerId s1 = Some "u1"%string /\
  exists s2 s3,
    Studio.undo s1 = Some s2 /\
    Studio.layers s2 = [] /\
    Studio.activeLayerId s2 = None /\
    Studio.redo s2 = Some s3 /\
    Studio.layers s3 = Studio.layers s1 /\
    Studio.activeLayerId s3 = None.
Proof.
  apply (undo_of_addLayer_deselects (Studio.init []) "u1" "logo");
    [reflexivity|reflexivity|discriminate].
Defined.

(** ** The camera capture: what the crop keeps *)

Module CaptureFacts.
Import Num.



End CaptureFacts.



(** ** The image services *)

Module ResponseFacts.
Import Invoker Response InvokerFacts.

Lemma includes_comma_cons c s :
  JS.includes (String c s) "," = Ascii.eqb "," c || JS.includes s ",".
Proof.
  change (JS.includes (String c s) ",")
    with (String.prefix "," (String c s) || JS.includes s ",").
  f_equal. cbn [String.prefix]. destruct (ascii_dec "," c) as [<-|Hne].
  - by destruct s.
  - symmetry. by apply Ascii.eqb_neq.
Qed.

Lemma includes_comma_app a b :
  JS.includes (a +:+ b) "," = JS.includes a "," || JS.includes b ",".
Proof.
  induction a as [|c a IH].
  - rewrite append_nil. simpl. by destruct b.
  - rewrite append_cons, !includes_comma_cons, IH. by rewrite orb_assoc.
Qed.

Lemma split_no_comma s : JS.includes s "," = false -> split "," s = [s].
Proof.
  induction s as [|c s IH]; [done|].
  rewrite includes_comma_cons. intros [Hc Hs]%orb_false_elim.
  simpl. rewrite Ascii.eqb_sym, Hc. by rewrite IH.
Qed.

Lemma split_after pre rest :
  JS.includes pre "," = false ->
  exists w ws, split "," rest = w :: ws /\
    split "," (pre +:+ rest) = (pre +:+ w) :: ws.
Proof.
  induction pre as [|c pre IH].
  - intros _. rewrite append_nil.
    destruct rest as [|c rest]; simpl; [by eexists _, _|].
    destruct (Ascii.eqb c ","); [by eexists _, _|].
    destruct (split "," rest); by eexists _, _.
  - rewrite includes_comma_cons. intros [Hc Hs]%orb_false_elim.
    destruct (IH Hs) as (w & ws & Hr & Hp).
    exists w, ws. split; [done|].
    rewrite append_cons. simpl. rewrite Ascii.eqb_sym, Hc, Hp.
    by rewrite append_cons.
Qed.

(** The payload of a data URL whose media type and payload hold no
    comma. *)
Lemma split_data_url m b :
  JS.includes m "," = false -> JS.includes b "," = false ->
  split "," ("data:" +:+ m +:+ ";base64," +:+ b) !! 1%nat = Some b.
Proof.
  intros Hm Hb.
  assert (split "," (";base64," +:+ b) = [";base64"; b]) as Htail.
  { rewrite !append_cons, append_nil. simpl. by rewrite split_no_comma. }
  destruct (split_after m (";base64," +:+ b) Hm) as (w & ws & Hr & Hp).
  rewrite Htail in Hr. injection Hr as <- <-.
  destruct (split_after "data:" (m +:+ ";base64," +:+ b) eq_refl)
    as (w' & ws' & Hr' & Hp').
  rewrite Hp in Hr'. injection Hr' as <- <-.
  by rewrite Hp'.
Qed.

Lemma firstImage_Some ps url :
  firstImage ps = Some url <->
  exists before d after,
    ps = before ++ mkPart (Some d) :: after /\
    Forall (fun p => match inlineData p with
                     | Some d' => truthy (data d') = false
                     | None => True
                     end) before /\
    truthy (data d) = true /\
    url = "data:" +:+ (if truthy (mimeType d) then default "" (mimeType d)
                       else "image/png")
          +:+ ";base64," +:+ default "" (data d).
Proof.
  induction ps as [|[i] ps IH]; simpl.
  - split; [done|]. intros (before & d & after & H & _). by destruct before.
  - destruct i as [d0|].
    + destruct (truthy (data d0)) eqn:Ed.
      * split.
        -- intros [= <-]. by exists [], d0, ps.
        -- intros (before & d & after & H & Hb & Hd & ->).
           destruct before as [|p before]; simplify_eq/=; [done|].
           apply Forall_cons in Hb as [Hp _]. simpl in Hp. congruence.
      * rewrite IH. split.
        -- intros (before & d & after & -> & Hb & Hd & ->).
           exists (mkPart (Some d0) :: before), d, after.
           split_and!; try done. by constructor.
        -- intros (before & d & after & H & Hb & Hd & ->).
           destruct before as [|p before]; simplify_eq/=; [congruence|].
           apply Forall_cons in Hb as [_ Hb].
           by exists before, d, after.
    + rewrite IH. split.
      * intros (before & d & after & -> & Hb & Hd & ->).
        exists (mkPart None :: before), d, after.
        split_and!; try done. by constructor.
      * intros (before & d & after & H & Hb & Hd & ->).
        destruct before as [|p before]; simplify_eq/=.
        apply Forall_cons in Hb as [_ Hb].
        by exists before, d, after.
Qed.

End ResponseFacts.

(** Which responses give an image.  [extractImageFromResponse] returns
    exactly when the prompt was not blocked, there is a first candidate
    whose finish reason is absent, empty or STOP, and one of its parts
    carries inline data that is not empty; what it returns is the data
    URL of the first such part, with [image/png] for a media type that
    is absent or empty.  Every other response throws. *)
Theorem extractImage_returns_the_first_inline_image
    (r : Response.GenerateContentResponse) (url : string) :
  Response.extractImageFromResponse r = Invoker.Return url <->
  Response.truthy (Response.blockReason r) = false /\
  exists c rest before d after,
    Response.candidates r = Some (c :: rest) /\
    (Response.truthy (Response.finishReason c) = false \/
     Response.finishReason c = Some "STOP"%string) /\
    Response.parts c = Some (before ++ Response.mkPart (Some d) :: after) /\
    Forall (fun p => match Response.inlineData p with
                     | Some d' => Response.truthy (Response.data d') = false
                     | None => True
                     end) before /\
    Response.truthy (Response.data d) = true /\
    url = ("data:" +:+ (if Response.truthy (Response.mimeType d)
                        then default "" (Response.mimeType d)
                        else "image/png")
           +:+ ";base64," +:+ default "" (Response.data d))%string.
Proof.
  assert (forall c,
          Response.truthy (Response.finishReason c)
          && negb (String.eqb (default ""%string (Response.finishReason c)) "STOP")
          = false <->
          Response.truthy (Response.finishReason c) = false \/
          Response.finishReason c = Some "STOP"%string) as Hfin.
  { intros c.
    destruct (Response.finishReason c) as [f|]; simpl; [|by split; [left|]].
    destruct (String.eqb f "") eqn:E1; simpl; [by split; [left|]|].
    destruct (String.eqb f "STOP") eqn:E2; simpl.
    - apply String.eqb_eq in E2 as ->. by split; [right|].
    - split; [done|]. intros [?|[= ->]]; done. }
  unfold Response.extractImageFromResponse. split.
  - destruct (Response.truthy (Response.blockReason r)); [done|].
    destruct (Response.candidates r) as [[|c rest]|]; simpl; [done| |done].
    destruct (Response.truthy (Response.finishReason c)
              && negb (String.eqb (default ""%string (Response.finishReason c)) "STOP"))
      eqn:Ef; [done|].
    apply Hfin in Ef.
    destruct (Response.parts c) as [ps|] eqn:Ep; simpl; [|done].
    destruct (Response.firstImage ps) as [u|] eqn:Ei; [|done].
    intros [= <-].
    apply ResponseFacts.firstImage_Some in Ei
      as (before & d & after & -> & Hb & Hd & ->).
    split; [done|]. exists c, rest, before, d, after. by split_and!.
  - intros (Hb & c & rest & before & d & after & Hc & Hf & Hp & Hbefore & Hd & ->).
    rewrite Hb, Hc. simpl. rewrite (proj2 (Hfin c) Hf), Hp. simpl.
    assert (Response.firstImage (before ++ Response.mkPart (Some d) :: after)
            = Some ("data:" +:+ (if Response.truthy (Response.mimeType d)
                                 then default "" (Response.mimeType d)
                                 else "image/png")
                    +:+ ";base64," +:+ default "" (Response.data d))%string) as ->.
    { apply ResponseFacts.firstImage_Some. exists before, d, after.
      by split_and!. }
    done.
Qed.

(** A generated image can be sent back.  The data URL that
    [extractImageFromResponse] returns goes through [ensureBase64Data]
    unharmed: when neither the media type nor the payload holds a comma,
    the promise resolves with the payload of the part the URL was built
    from. *)
Theorem generated_image_can_be_sent_back
    (fetch : string -> Response.Fetched)
    (r : Response.GenerateContentResponse) (url : string) :
  Response.extractImageFromResponse r = Invoker.Return url ->
  exists (d : Response.InlineData) (m b : string),
    Response.data d = Some b /\ b <> ""%string /\
    m = (if Response.truthy (Response.mimeType d)
         then default ""%string (Response.mimeType d) else "image/png"%string) /\
    url = ("data:" +:+ m +:+ ";base64," +:+ b)%string /\
    (JS.includes m "," = false -> JS.includes b "," = false ->
     Response.ensureBase64Data fetch url = Invoker.Resolved (Some b)).
Proof.
  intros H.
  assert (exists ps, Response.firstImage ps = Some url) as [ps Hps].
  { revert H. unfold Response.extractImageFromResponse.
    repeat case_match; try done. intros [= <-]. by eexists. }
  apply ResponseFacts.firstImage_Some in Hps
    as (before & d & after & _ & _ & Hd & ->).
  destruct (Response.data d) as [b|] eqn:Eb; [|done].
  exists d. eexists. exists b. split_and!; [done| |reflexivity|reflexivity|].
  - by intros ->.
  - intros Hm Hb. unfold Response.ensureBase64Data.
    simpl default.
    assert (String.prefix "data:"
              ("data:" +:+ (if Response.truthy (Response.mimeType d)
                            then default "" (Response.mimeType d)
                            else "image/png") +:+ ";base64," +:+ b) = true) as ->.
    { apply InvokerFacts.prefix_spec. by eexists. }
    by rewrite ResponseFacts.split_data_url.
Qed.

Lemma generated_image_can_be_sent_back_witness :
  let r := Response.mkResponse None
             (Some [Response.mkCandidate (Some "STOP"%string)
                      (Some [Response.mkPart None;
                             Response.mkPart
                               (Some (Response.mkInlineData (Some "iVBORw0KGgo="%string)
                                                            None))])]) in
  let url := "data:image/png;base64,iVBORw0KGgo="%string in
  Response.extractImageFromResponse r = Invoker.Return url /\
  exists (d : Response.InlineData) (m b : string),
    Response.data d = Some b /\ b <> ""%string /\
    m = (if Response.truthy (Response.mimeType d)
         then default ""%string (Response.mimeType d) else "image/png"%string) /\
    url = ("data:" +:+ m +:+ ";base64," +:+ b)%string /\
    (JS.includes m "," = false -> JS.includes b "," = false ->
     Response.ensureBase64Data (fun _ => Response.Unreachable) url
     = Invoker.Resolved (Some b)).
Proof.
  intros r url. split; [reflexivity|].
  apply (generated_image_can_be_sent_back (fun _ => Response.Unreachable) r url).
  reflexivity.
Defined.

Module ResponseLoop.
Import KeyPool Invoker Response KeyPoolFacts.

(** A loop all of whose passes reject with the same error. *)
Lemma loop_all_rejected {T} (world : nat -> Attempt T) (e : JsError) remaining :
  forall attempt s res s' log,
    wf s -> keys s <> [] -> remaining <> 0%nat ->
    (forall n k, k ∈ names s -> run (world n) k = Rejected e) ->
    loop world remaining attempt s = (res, s', log) ->
    res = Throw e /\ length log = remaining /\
    Forall (fun rep => exists k slept,
              k ∈ names s /\ rep = ReportFailure k e k (isQuota e) slept) log.
Proof.
  induction remaining as [|n IH]; intros attempt s res s' log Hwf Hs Hrem Hrej;
    [done|].
  simpl.
  destruct (InvokerOutcomes.getKey_gives (at_select (world attempt)) s Hwf Hs)
    as (k & Hk & Hne & Hin).
  destruct (getKey (at_select (world attempt)) s) as [got s1] eqn:Hg.
  simpl in Hk. subst got.
  assert (names s1 = names s) as Hn1.
  { pose proof (getKey_names (at_select (world attempt)) s) as H.
    by rewrite Hg in H. }
  destruct (String.eqb k "") eqn:E; [by apply String.eqb_eq in E|].
  rewrite (Hrej attempt k Hin).
  destruct n as [|n'].
  { intros [= <- <- <-]. split_and!; try done.
    constructor; [|constructor]. by exists k, false. }
  set (s2 := markFailed k (isQuota e) (at_report (world attempt)) s1).
  assert (names s2 = names s) as Hn2
    by (unfold s2; by rewrite markFailed_names).
  destruct (loop world (S n') (S attempt) s2) as [[r3 s3] log3] eqn:Hloop.
  intros [= <- <- <-].
  destruct (IH (S attempt) s2 r3 s3 log3) as (Hr & Hlen & Hall);
    [by eapply wf_names|by eapply InvokerOutcomes.nonempty_names|done
    |by rewrite Hn2|done|].
  split_and!; [done|simpl; lia|].
  constructor; [by exists k, (negb (isQuota e))|].
  eapply Forall_impl; [exact Hall|]. intros rep (k' & slept & Hk' & ->).
  exists k', slept. by rewrite <- Hn2.
Qed.

End ResponseLoop.

(** A response without an image is charged to the keys.  The image
    operations run [extractImageFromResponse] inside the retry loop, so
    when the service answers every credential with the same response that
    [extractImageFromResponse] rejects (a blocked prompt, no candidate, a
    finish reason other than STOP, no inline image), the call makes all
    its passes, one more than there are credentials, reports each of them
    to the pool as a failure of the credential used, and throws that
    error. *)
Theorem response_without_image_fails_every_pass
    (world : nat -> Invoker.Attempt string)
    (api : string -> Response.Answer)
    (r : Response.GenerateContentResponse) (e : Invoker.JsError)
    (s : KeyPool.Pool) :
  KeyPool.wf s -> KeyPool.keys s <> [] ->
  (forall n, Invoker.run (world n) = Response.generate api) ->
  (forall k, k ∈ KeyPool.names s -> api k = Response.Answered r) ->
  Response.extractImageFromResponse r = Invoker.Throw e ->
  forall res s' log,
    Invoker.callGeminiWithRetry world s = (res, s', log) ->
    res = Invoker.Throw e /\
    length log = (KeyPool.getKeyCount s + 1)%nat /\
    Forall (fun rep => exists k slept,
              k ∈ KeyPool.names s /\
              rep = Invoker.ReportFailure k e k (Invoker.isQuota e) slept) log.
Proof.
  intros Hwf Hs Hrun Hapi Hex res s' log Hcall.
  unfold Invoker.callGeminiWithRetry in Hcall.
  replace (Nat.max 1 (KeyPool.getKeyCount s + 1))
    with (KeyPool.getKeyCount s + 1)%nat in Hcall by lia.
  apply (ResponseLoop.loop_all_rejected world e
           (KeyPool.getKeyCount s + 1)%nat 0%nat s res s' log Hwf Hs);
    [lia| |done].
  intros n k Hk. rewrite Hrun. unfold Response.generate.
  by rewrite (Hapi k Hk), Hex.
Qed.

Lemma response_without_image_fails_every_pass_witness :
  let r := Response.mkResponse (Some "SAFETY"%string) None in
  let e := Response.error "Generation blocked: SAFETY" in
  let api := fun _ : string => Response.Answered r in
  let world := fun n : nat =>
    Invoker.mkAttempt (1000 + 2000 * Z.of_nat n) (Response.generate api)
                      (1500 + 2000 * Z.of_nat n) in
  let s := KeyPool.new ["k1"; "k2"]%string (KeyPool.Slot None) in
  Invoker.callGeminiWithRetry world s
  = (Invoker.Throw e, snd (fst (Invoker.callGeminiWithRetry world s)),
     [Invoker.ReportFailure "k1" e "k1" false true;
      Invoker.ReportFailure "k2" e "k2" false true;
      Invoker.ReportFailure "k1" e "k1" false false]) /\
  KeyPool.eligible 6000 (snd (fst (Invoker.callGeminiWithRetry world s))) = [].
Proof.
  intros r e api world s.
  destruct (Invoker.callGeminiWithRetry world s) as [[res s'] log] eqn:Hcall.
  destruct (response_without_image_fails_every_pass world api r e s
              (KeyPoolFacts.new_wf _ _) ltac:(discriminate)
              ltac:(reflexivity) ltac:(reflexivity) eq_refl res s' log Hcall)
    as (-> & Hlen & Hall).
  assert (log = snd (Invoker.callGeminiWithRetry world s)) as ->
    by (by rewrite Hcall).
  assert (s' = snd (fst (Invoker.callGeminiWithRetry world s))) as ->
    by (by rewrite Hcall).
  split; reflexivity.
Defined.

(** ** The wheel zoom and its debounced commit *)

Module WheelFacts.
Import Num Studio Gestures Wheel GestureFacts.

(** A wheel event that finds the selected layer. *)
Lemma handleWheel_zooms deltaY (c : Canvas) id layer :
  activeLayerId (studio c) = Some id -> id <> ""%string ->
  List.find (has_uid id) (layers (studio c)) = Some layer ->
  let newScale :=
    max (Fin 0.1) (min (Fin 5)
      (add (scale layer) (mul (mathSign deltaY) (Fin (-0.1))))) in
  let ls := on_layer id (scaled newScale) (layers (studio c)) in
  handleWheel deltaY false c
  = mkCanvas (setLayers ls (studio c))
             (Some (mkPending (history (studio c)) (historyIndex (studio c)) ls)).
Proof.
  intros Ha Hid Hf. unfold handleWheel. rewrite Ha, Hf.
  destruct (String.eqb id "") eqn:E; [by apply String.eqb_eq in E|].
  reflexivity.
Qed.

Lemma wheel_burst deltas : forall (c : Canvas) id layer,
  activeLayerId (studio c) = Some id -> id <> ""%string ->
  List.find (has_uid id) (layers (studio c)) = Some layer ->
  deltas <> [] ->
  let c' := foldl (fun c d => handleWheel d false c) c deltas in
  activeLayerId (studio c') = Some id /\
  history (studio c') = history (studio c) /\
  historyIndex (studio c') = historyIndex (studio c) /\
  wheelCommitTimeout c'
  = Some (mkPending (history (studio c)) (historyIndex (studio c))
                    (layers (studio c'))).
Proof.
  induction deltas as [|d deltas IH]; intros c id layer Ha Hid Hf Hne; [done|].
  simpl.
  pose proof (handleWheel_zooms d c id layer Ha Hid Hf) as Hw. simpl in Hw.
  set (c1 := handleWheel d false c) in *.
  destruct deltas as [|d' deltas'].
  - simpl. rewrite Hw. simpl. done.
  - assert (List.find (has_uid id) (layers (studio c1))
            = Some (scaled (max (Fin 0.1) (min (Fin 5)
                       (add (scale layer) (mul (mathSign d) (Fin (-0.1))))))
                      layer)) as Hf1.
    { rewrite Hw. simpl. by apply on_layer_find. }
    destruct (IH c1 id _ ltac:(by rewrite Hw) Hid Hf1 ltac:(done))
      as (H1 & H2 & H3 & H4).
    rewrite H1, H2, H3, H4. rewrite Hw. simpl. done.
Qed.

End WheelFacts.

(** The wheel zoom stays in range.  A wheel event over a canvas whose
    selected layer has a finite scale sets the scale of that layer to
    the old scale less a tenth of the sign of [deltaY], kept between 0.1
    and 5; the other layers, the selection and the history are left as
    they were. *)
Theorem wheel_zoom_stays_in_range
    (c : Wheel.Canvas) (id : string) (layer : Studio.PlacedLayer) (q dy : Q) :
  Studio.activeLayerId (Wheel.studio c) = Some id -> id <> ""%string ->
  List.find (Studio.has_uid id) (Studio.layers (Wheel.studio c)) = Some layer ->
  Studio.scale layer = Num.Fin q ->
  let c' := Wheel.handleWheel (Num.Fin dy) false c in
  exists k : Q,
    (k == Qmax 0.1 (Qmin 5 (q - (if Qlt_le_dec 0 dy then 0.1
                                 else if Qlt_le_dec dy 0 then -0.1 else 0))) /\
     0.1 <= k /\ k <= 5)%Q /\
    (forall l, l ∈ Studio.layers (Wheel.studio c') -> Studio.uid l = id ->
       exists k', Studio.scale l = Num.Fin k' /\ (k' == k)%Q) /\
    (forall l, l ∈ Studio.layers (Wheel.studio c') -> Studio.uid l <> id ->
       l ∈ Studio.layers (Wheel.studio c)) /\
    Studio.activeLayerId (Wheel.studio c') = Some id /\
    Studio.history (Wheel.studio c') = Studio.history (Wheel.studio c) /\
    Studio.historyIndex (Wheel.studio c') = Studio.historyIndex (Wheel.studio c).
Proof.
  intros Ha Hid Hf Hq c'.
  pose proof (WheelFacts.handleWheel_zooms (Num.Fin dy) c id layer Ha Hid Hf) as Hw.
  cbv zeta in Hw. fold c' in Hw. rewrite Hq in Hw.
  set (sg := match (dy ?= 0)%Q with Gt => 1%Q | Lt => (-1)%Q | Eq => 0%Q end).
  assert (Num.mul (Wheel.mathSign (Num.Fin dy)) (Num.Fin (-0.1))
          = Num.Fin (sg * -0.1)) as Hmul.
  { unfold Wheel.mathSign, sg. by destruct (dy ?= 0)%Q. }
  rewrite Hmul in Hw. simpl Num.add in Hw. simpl Num.min in Hw.
  simpl Num.max in Hw.
  set (k := Qmax 0.1 (Qmin 5 (q + sg * -0.1))) in *.
  exists k. split_and!.
  - unfold k. apply Q.max_compat; [reflexivity|].
    apply Q.min_compat; [reflexivity|].
    unfold sg.
    destruct (Qlt_le_dec 0 dy) as [Hpos|Hnp].
    + rewrite (proj1 (Qgt_alt dy 0) Hpos). ring.
    + destruct (Qlt_le_dec dy 0) as [Hneg|Hnn].
      * rewrite (proj1 (Qlt_alt dy 0) Hneg). ring.
      * assert (dy == 0)%Q as Hz by (by apply Qle_antisym).
        rewrite (proj1 (Qeq_alt dy 0) Hz). ring.
  - apply Q.le_max_l.
  - apply Q.max_lub; [done|]. apply Q.le_min_l.
  - intros l Hl Hu. rewrite Hw in Hl. simpl in Hl.
    apply GestureFacts.on_layer_elem in Hl as (l0 & _ & _ & ->); [|done|done].
    by exists k.
  - intros l Hl Hu. rewrite Hw in Hl. simpl in Hl.
    unfold Gestures.on_layer in Hl.
    apply list_elem_of_fmap in Hl as (l0 & -> & Hl0).
    destruct (Studio.has_uid id l0) eqn:E; [|done].
    simpl in Hu. unfold Studio.has_uid in E. by apply String.eqb_eq in E.
  - by rewrite Hw.
  - by rewrite Hw.
  - by rewrite Hw.
Qed.

Lemma wheel_zoom_stays_in_range_witness :
  let c := Wheel.mkCanvas (Studio.addLayer "u1" "logo" (Studio.init [])) None in
  let c' := Wheel.handleWheel (Num.Fin 120) false c in
  exists k : Q,
    (k == 0.9)%Q /\
    (forall l, l ∈ Studio.layers (Wheel.studio c') -> Studio.uid l = "u1"%string ->
       exists k', Studio.scale l = Num.Fin k' /\ (k' == k)%Q) /\
    Studio.history (Wheel.studio c') = Studio.history (Wheel.studio c).
Proof.
  intros c c'.
  destruct (wheel_zoom_stays_in_range c "u1"
              (Studio.mkLayer "u1" "logo" (Num.Fin 50) (Num.Fin 50) (Num.Fin 1)
                 (Num.Fin 0) (Some Studio.normal)) 1 120 eq_refl
              ltac:(discriminate) eq_refl eq_refl)
    as (k & (Hk & _) & Hl & _ & _ & Hh & _).
  exists k. split_and!; [|exact Hl|exact Hh].
  rewrite Hk. reflexivity.
Defined.

(** The debounced commit.  A burst of wheel events on the selected
    layer adds no history entry while it lasts; the timer that the last
    event leaves then makes one commit, of the layers as the burst left
    them.  That commit is the one of the render of the last wheel event:
    it writes the layers of that event and the history and cursor of
    that render plus the one entry, so what calls made on the studio
    state in between (an undo, a removal, a drag that ended) did to the
    layers, the history and the cursor is overwritten; only the
    selection they left stays. *)
Theorem wheel_burst_commits_once
    (c : Wheel.Canvas) (id : string) (layer : Studio.PlacedLayer)
    (deltas : list Num.num) :
  Studio.activeLayerId (Wheel.studio c) = Some id -> id <> ""%string ->
  List.find (Studio.has_uid id) (Studio.layers (Wheel.studio c)) = Some layer ->
  deltas <> [] ->
  let c' := foldl (fun c d => Wheel.handleWheel d false c) c deltas in
  Studio.history (Wheel.studio c') = Studio.history (Wheel.studio c) /\
  Wheel.fire c'
  = Wheel.mkCanvas (Studio.commit (Studio.layers (Wheel.studio c')) (Wheel.studio c'))
                   None /\
  forall calls c'',
    Wheel.between calls c' = Some c'' ->
    Wheel.fire c''
    = Wheel.mkCanvas
        (Studio.setActiveLayerId (Studio.activeLayerId (Wheel.studio c''))
           (Studio.commit (Studio.layers (Wheel.studio c')) (Wheel.studio c')))
        None.
Proof.
  intros Ha Hid Hf Hne c'.
  destruct (WheelFacts.wheel_burst deltas c id layer Ha Hid Hf Hne)
    as (H1 & H2 & H3 & H4). fold c' in H1, H2, H3, H4.
  split; [done|]. split.
  - unfold Wheel.fire. rewrite H4. simpl.
    unfold Studio.commit. simpl. by rewrite H2, H3.
  - intros calls c''. unfold Wheel.between.
    destruct (Studio.steps calls (Wheel.studio c')) as [s|]; [|done].
    intros [= <-]. unfold Wheel.fire. simpl. rewrite H4. simpl.
    unfold Studio.commit, Studio.setActiveLayerId. simpl.
    by rewrite H2, H3.
Qed.

Lemma wheel_burst_commits_once_witness :
  let c := Wheel.mkCanvas
             (Studio.addLayer "u2" "logo" (Studio.addLayer "u1" "logo" (Studio.init [])))
             None in
  let c' := foldl (fun c d => Wheel.handleWheel d false c) c
              [Num.Fin 120; Num.Fin 120; Num.Fin 120] in
  exists c'',
    Wheel.between [Studio.Undo] c' = Some c'' /\
    map Studio.uid (Studio.layers (Wheel.studio c'')) = ["u1"%string] /\
    Studio.canRedo (Wheel.studio c'') = true /\
    map Studio.uid (Studio.layers (Wheel.studio (Wheel.fire c''))) = ["u1"; "u2"]%string /\
    length (Studio.history (Wheel.studio (Wheel.fire c''))) = 4%nat /\
    Studio.canRedo (Wheel.studio (Wheel.fire c'')) = false.
Proof.
  intros c c'.
  destruct (wheel_burst_commits_once c "u2"
              (Studio.mkLayer "u2" "logo" (Num.Fin 50) (Num.Fin 50) (Num.Fin 1)
                 (Num.Fin 0) (Some Studio.normal))
              [Num.Fin 120; Num.Fin 120; Num.Fin 120] eq_refl
              ltac:(discriminate) eq_refl ltac:(discriminate))
    as (_ & _ & H). fold c' in H.
  eexists. split; [reflexivity|].
  split; [reflexivity|]. split; [reflexivity|].
  rewrite (H [Studio.Undo] _ eq_refl).
  split_and!; reflexivity.
Defined.

(** ** The keyboard shortcuts *)

Module KeyboardFacts.
Import Num Studio Keyboard.

Lemma run_history c s s' :
  run c s = Some s' -> c <> Delete -> history s' = history s.
Proof.
  destruct c; simpl; intros H Hc; try done.
  - unfold undo in H. repeat case_match; by simplify_eq.
  - unfold redo in H. repeat case_match; by simplify_eq.
  - by simplify_eq.
  - repeat case_match; by simplify_eq.
Qed.

Lemma called_Delete e :
  called (handleKeyDown studioConfig e) = Some Delete ->
  key e = "Backspace"%string \/ key e = "Delete"%string.
Proof.
  unfold handleKeyDown, keyIs. simpl.
  destruct (String.eqb (key e) "Backspace") eqn:E1;
    [apply String.eqb_eq in E1; by left|].
  destruct (String.eqb (key e) "Delete") eqn:E2;
    [apply String.eqb_eq in E2; by right|].
  simpl. repeat case_match; done.
Qed.

Lemma called_typing e :
  tagName e = "INPUT"%string \/ tagName e = "TEXTAREA"%string ->
  handleKeyDown studioConfig e = ignored.
Proof.
  unfold handleKeyDown. intros [-> | ->]; reflexivity.
Qed.

End KeyboardFacts.

(** What the shortcuts leave alone.  A key pressed while the shortcuts
    are disabled, or while the focus is in an input or a text area,
    changes nothing.  And no key but Backspace and Delete changes the
    history stack: the arrow keys move the selected layer without a
    commit, and undo and redo only move the cursor. *)
Theorem shortcuts_commit_only_on_delete
    (enabled : bool) (e : Keyboard.KeyboardEvent) (s s' : Studio.State) :
  Keyboard.keydown enabled e s = Some s' ->
  (enabled = false \/ Keyboard.tagName e = "INPUT"%string \/
   Keyboard.tagName e = "TEXTAREA"%string -> s' = s) /\
  (Keyboard.key e <> "Backspace"%string -> Keyboard.key e <> "Delete"%string ->
   Studio.history s' = Studio.history s).
Proof.
  unfold Keyboard.keydown. intros H. split.
  - intros [-> | Htag]; [by simplify_eq|].
    rewrite (KeyboardFacts.called_typing e Htag) in H. simpl in H.
    destruct enabled; by simplify_eq.
  - intros Hb Hd. destruct enabled; [|by simplify_eq].
    destruct (Keyboard.called (Keyboard.handleKeyDown Keyboard.studioConfig e))
      as [c|] eqn:Ec; [|by simplify_eq].
    apply (KeyboardFacts.run_history c s s' H).
    intros ->. by destruct (KeyboardFacts.called_Delete e Ec).
Qed.

Lemma shortcuts_commit_only_on_delete_witness :
  let s := Studio.addLayer "u1" "logo" (Studio.init []) in
  let right := Keyboard.mkKeyboardEvent "ArrowRight" false false true "BODY" in
  let typed := Keyboard.mkKeyboardEvent "Backspace" false false false "INPUT" in
  exists s1,
    Keyboard.keydown true right s = Some s1 /\
    map Studio.x (Studio.layers s1) = [Num.Fin (Qmax 0 (Qmin 100 (50 + 5)))] /\
    Studio.history s1 = Studio.history s /\
    Keyboard.keydown true typed s = Some s.
Proof.
  intros s right typed. eexists. split; [reflexivity|]. split; [reflexivity|].
  split.
  - eapply (shortcuts_commit_only_on_delete true right s); [reflexivity| |];
      discriminate.
  - reflexivity.
Defined.

(** Arrow-key moves are not in the history.  With a layer selected, an
    arrow key moves it by half a percent of the canvas, or five with
    Shift, both coordinates kept between 0 and 100, and leaves history
    and cursor alone.  So when the layers were committed before the move,
    Ctrl+Z followed by Ctrl+Shift+Z does not bring the move back: it
    restores the committed layers. *)
Theorem arrow_key_moves_are_lost_on_undo
    (s : Studio.State) (id : string) (l : Studio.PlacedLayer) (x0 y0 dx dy : Q)
    (e : Keyboard.KeyboardEvent) :
  Studio.inv s ->
  Studio.history s !! Studio.historyIndex s = Some (Studio.layers s) ->
  Studio.canUndo s = true ->
  Studio.activeLayerId s = Some id -> id <> ""%string ->
  List.find (Studio.has_uid id) (Studio.layers s) = Some l ->
  Studio.x l = Num.Fin x0 -> Studio.y l = Num.Fin y0 ->
  Keyboard.tagName e <> "INPUT"%string -> Keyboard.tagName e <> "TEXTAREA"%string ->
  (let step := if Keyboard.shiftKey e then 5%Q else 0.5%Q in
   (Keyboard.key e, dx, dy)
   ∈ [("ArrowUp"%string, 0%Q, (- step)%Q); ("ArrowDown"%string, 0%Q, step);
      ("ArrowLeft"%string, (- step)%Q, 0%Q); ("ArrowRight"%string, step, 0%Q)]) ->
  let undoKey := Keyboard.mkKeyboardEvent "z" false true false "BODY" in
  let redoKey := Keyboard.mkKeyboardEvent "z" false true true "BODY" in
  exists s1 s2 s3,
    Keyboard.keydown true e s = Some s1 /\
    Studio.layers s1
    = Studio.patched id
        (Studio.mkUpdates None None
           (Some (Num.Fin (Qmax 0 (Qmin 100 (x0 + dx)))))
           (Some (Num.Fin (Qmax 0 (Qmin 100 (y0 + dy))))) None None None)
        (Studio.layers s) /\
    Studio.history s1 = Studio.history s /\
    Studio.historyIndex s1 = Studio.historyIndex s /\
    Keyboard.keydown true undoKey s1 = Some s2 /\
    Keyboard.keydown true redoKey s2 = Some s3 /\
    Studio.layers s3 = Studio.layers s.
Proof.
  intros Hinv Hcur Hcan Ha Hid Hf Hx Hy Ht1 Ht2 Hkey undoKey redoKey.
  assert (Keyboard.called (Keyboard.handleKeyDown Keyboard.studioConfig e)
          = Some (Keyboard.Nudge (Num.Fin dx) (Num.Fin dy))) as Hcalled.
  { unfold Keyboard.handleKeyDown.
    destruct (String.eqb (Keyboard.tagName e) "INPUT") eqn:E1;
      [by apply String.eqb_eq in E1|].
    destruct (String.eqb (Keyboard.tagName e) "TEXTAREA") eqn:E2;
      [by apply String.eqb_eq in E2|].
    simpl. unfold Keyboard.keyIs.
    cbv zeta in Hkey.
    repeat (apply elem_of_cons in Hkey as [Hkey|Hkey]);
      [..|by apply elem_of_nil in Hkey];
      injection Hkey as -> -> ->; simpl; by destruct (Keyboard.shiftKey e). }
  set (s1 := Studio.updateLayer id
               (Keyboard.nudged l (Num.Fin dx) (Num.Fin dy)) s).
  assert (Keyboard.keydown true e s = Some s1) as Hk1.
  { unfold Keyboard.keydown. rewrite Hcalled. simpl. rewrite Ha, Hf.
    destruct (String.eqb id "") eqn:E; [by apply String.eqb_eq in E|done]. }
  assert (Studio.inv s1) as Hinv1 by (by apply StudioFacts.setLayers_inv).
  destruct (StudioWalk.undo_step s1 Hinv1) as (ls & Hls & Hu).
  { unfold Studio.canUndo in Hcan. by apply Nat.ltb_lt in Hcan. }
  set (s2 := Studio.mkState ls _ _ _) in Hu.
  assert (Keyboard.keydown true undoKey s1 = Some s2) as Hk2.
  { unfold Keyboard.keydown. simpl.
    change (Studio.canUndo s1) with (Studio.canUndo s). by rewrite Hcan. }
  assert (Studio.inv s2) as Hinv2.
  { destruct Hinv as [H1 H2]. split; simpl; [|done].
    unfold Studio.canUndo in Hcan. apply Nat.ltb_lt in Hcan. lia. }
  assert (Studio.historyIndex s2 + 1 = Studio.historyIndex s)%nat as Hidx.
  { simpl. unfold Studio.canUndo in Hcan. apply Nat.ltb_lt in Hcan. lia. }
  destruct (StudioWalk.redo_step s2 Hinv2) as (ls3 & Hls3 & Hr).
  { destruct Hinv as [H1 H2]. simpl in *.
    unfold Studio.canUndo in Hcan. apply Nat.ltb_lt in Hcan. lia. }
  set (s3 := Studio.mkState ls3 _ _ _) in Hr.
  assert (Keyboard.keydown true redoKey s2 = Some s3) as Hk3.
  { unfold Keyboard.keydown. simpl.
    assert (Studio.canRedo s2 = true) as ->; [|done].
    unfold Studio.canRedo. apply Nat.ltb_lt.
    destruct Hinv as [H1 H2]. simpl in *.
    unfold Studio.canUndo in Hcan. apply Nat.ltb_lt in Hcan. lia. }
  exists s1, s2, s3. split_and!; try done.
  - unfold s1, Studio.updateLayer, Keyboard.nudged. simpl.
    by rewrite Hx, Hy.
  - rewrite Hidx in Hls3. change (Studio.history s2) with (Studio.history s) in Hls3.
    rewrite Hcur in Hls3. by injection Hls3 as <-.
Qed.

Lemma arrow_key_moves_are_lost_on_undo_witness :
  let s := Studio.addLayer "u1" "logo" (Studio.init []) in
  let right := Keyboard.mkKeyboardEvent "ArrowRight" false false false "BODY" in
  let undoKey := Keyboard.mkKeyboardEvent "z" false true false "BODY" in
  let redoKey := Keyboard.mkKeyboardEvent "z" false true true "BODY" in
  exists s1 s2 s3,
    Keyboard.keydown true right s = Some s1 /\
    Studio.layers s1
    = Studio.patched "u1"
        (Studio.mkUpdates None None
           (Some (Num.Fin (Qmax 0 (Qmin 100 (50 + 0.5)))))
           (Some (Num.Fin (Qmax 0 (Qmin 100 (50 + 0))))) None None None)
        (Studio.layers s) /\
    Studio.history s1 = Studio.history s /\
    Studio.historyIndex s1 = Studio.historyIndex s /\
    Keyboard.keydown true undoKey s1 = Some s2 /\
    Keyboard.keydown true redoKey s2 = Some s3 /\
    Studio.layers s3 = Studio.layers s.
Proof.
  intros s right undoKey redoKey.
  apply (arrow_key_moves_are_lost_on_undo s "u1"
           (Studio.mkLayer "u1" "logo" (Num.Fin 50) (Num.Fin 50) (Num.Fin 1)
              (Num.Fin 0) (Some Studio.normal)) 50 50 0.5 0 right);
    try reflexivity; try discriminate.
  - split; vm_compute; lia.
  - cbv zeta. simpl. do 3 apply list_elem_of_further. apply list_elem_of_here.
Defined.

(** ** Credits around a generation *)

(** What a generation does to the credits.  With less than one credit
    [handleGenerate] changes nothing.  With a credit, a generation that
    succeeds leaves one credit less, in the state and in the stored
    profile.  A generation that fails refunds through the [addCredits] of
    the render the handler started in, which adds to the credits that
    render saw: the state ends with one credit more than before the
    attempt, while the stored profile, which is adjusted by -1 and then
    by +1 with a transaction for each, ends where it was; a state that
    agreed with the store before is one ahead of it after. *)
Theorem generation_credits
    (a : Credits.App) (spentAt refundedAt : Z) :
  let c := Credits.credits a in
  let won := Credits.handleGenerate true spentAt refundedAt a in
  let lost := Credits.handleGenerate false spentAt refundedAt a in
  (c < 1 -> won = a /\ lost = a) /\
  (1 <= c ->
   Credits.credits won = c - 1 /\
   Credits.credits lost = c + 1 /\
   (Credits.user a = true ->
    Credits.getProfile (Credits.store won)
    = Credits.getProfile (Credits.store a) - 1 /\
    Credits.getProfile (Credits.store lost) = Credits.getProfile (Credits.store a) /\
    Credits.transactions (Credits.store lost)
    = Some (Credits.mkTransaction 1 Credits.purchase "Reward/Purchase" refundedAt
            :: Credits.mkTransaction (-1) Credits.spend "Generation Cost" spentAt
            :: default [] (Credits.transactions (Credits.store a))) /\
    (c = Credits.getProfile (Credits.store a) ->
     Credits.credits lost = Credits.getProfile (Credits.store lost) + 1)) /\
   (Credits.user a = false ->
    Credits.store won = Credits.store a /\ Credits.store lost = Credits.store a)).
Proof.
  intros c won lost.
  unfold won, lost, Credits.handleGenerate, Credits.spendCredits. fold c.
  split.
  - intros Hc. by rewrite (proj2 (Z.leb_gt 1 c)) by lia.
  - intros Hc. rewrite (proj2 (Z.leb_le 1 c)) by lia.
    unfold Credits.addCredits, Credits.adjustCredits, Credits.getProfile.
    simpl. split_and!; try done.
    + intros Hu. rewrite Hu. simpl. split_and!; try done; lia.
    + intros Hu. by rewrite Hu.
Qed.

Lemma generation_credits_witness :
  let a := Credits.hydrate (Credits.mkApp 0 true (Credits.mkStore (Some 3) None)) in
  let lost := Credits.handleGenerate false 1000 9000 a in
  Credits.credits a = 3 /\
  Credits.credits lost = 4 /\
  Credits.getProfile (Credits.store lost) = 3 /\
  Credits.credits (Credits.hydrate lost) = 3.
Proof.
  intros a lost.
  destruct (generation_credits a 1000 9000) as [_ H].
  destruct (H ltac:(vm_compute; discriminate)) as (_ & Hl & Hs & _).
  destruct (Hs eq_refl) as (_ & Hp & _).
  split; [reflexivity|]. split; [exact Hl|]. split; [exact Hp|].
  unfold Credits.hydrate. simpl. reflexivity.
Defined.

(** ** The library: the state and the store *)

Module LibraryFacts.
Import Library.

Section Items.
Context {A : Type} (id : A -> string).

Lemma saveItem_fresh (item : A) (l : list A) :
  id item ∉ map id l -> saveItem id item (Some l) = item :: l.
Proof.
  intros Hn. unfold saveItem. simpl.
  destruct (list_find _ l) as [[i x]|] eqn:E; [|done].
  apply list_find_Some in E as (Hx & Hid & _).
  destruct Hn. rewrite <- Hid. apply list_elem_of_fmap.
  exists x. split; [done|]. by eapply list_elem_of_lookup_2.
Qed.

Lemma replace_absent (item : A) (l : list A) :
  id item ∉ map id l ->
  map (fun m => if String.eqb (id m) (id item) then item else m) l = l.
Proof.
  induction l as [|x l IH]; [done|]. simpl.
  rewrite not_elem_of_cons. intros [Hx Hl].
  destruct (String.eqb (id x) (id item)) eqn:E;
    [apply String.eqb_eq in E; congruence|].
  by rewrite IH.
Qed.

Lemma exists_absent (item : A) (l : list A) :
  id item ∉ map id l ->
  existsb (fun m => String.eqb (id m) (id item)) l = false.
Proof.
  induction l as [|x l IH]; [done|]. simpl.
  rewrite not_elem_of_cons. intros [Hx Hl].
  destruct (String.eqb (id x) (id item)) eqn:E;
    [apply String.eqb_eq in E; congruence|].
  by rewrite IH.
Qed.

(** On a list of distinct ids the reducer's replacement of every entry
    with the id and the store's replacement of the first one agree. *)
Lemma ADD_MOCKUP_saveItem (item : A) (l : list A) :
  NoDup (map id l) -> ADD_MOCKUP id item l = saveItem id item (Some l).
Proof.
  intros Hnd.
  destruct (decide (id item ∈ map id l)) as [Hin|Hout].
  2:{ rewrite saveItem_fresh by done. unfold ADD_MOCKUP.
      by rewrite exists_absent. }
  apply list_elem_of_fmap in Hin as (x & Hid & Hx).
  apply list_elem_of_split in Hx as (pre & post & ->).
  rewrite fmap_app in Hnd. apply NoDup_app in Hnd as (_ & Hpre & Hpost).
  simpl in Hpre, Hpost. apply NoDup_cons in Hpost as [Hpost _].
  rewrite <- Hid in Hpost.
  assert (id item ∉ map id pre) as Hpre'.
  { intros Hin. apply (Hpre _ Hin). rewrite Hid. by left. }
  unfold ADD_MOCKUP, saveItem. simpl.
  assert (existsb (fun m => String.eqb (id m) (id item)) (pre ++ x :: post) = true)
    as ->.
  { rewrite existsb_app. simpl.
    rewrite (proj2 (String.eqb_eq (id x) (id item))) by done.
    by rewrite orb_true_r. }
  rewrite map_app. simpl.
  rewrite (proj2 (String.eqb_eq (id x) (id item))) by done.
  rewrite !replace_absent by done.
  assert (list_find (fun a => id a = id item) (pre ++ x :: post)
          = Some (length pre, x)) as ->.
  { apply list_find_Some. split_and!.
    - by apply list_lookup_middle.
    - done.
    - intros j y Hy Hj E. apply Hpre'.
      rewrite lookup_app_l in Hy by done.
      apply list_elem_of_fmap. exists y. split; [done|].
      by eapply list_elem_of_lookup_2. }
  rewrite <- (Nat.add_0_r (length pre)), insert_app_r. done.
Qed.

Lemma saveItem_ids (item : A) (l : list A) :
  NoDup (map id l) -> NoDup (map id (saveItem id item (Some l))).
Proof.
  intros Hnd. unfold saveItem. simpl.
  destruct (list_find _ l) as [[i x]|] eqn:E.
  - apply list_find_Some in E as (Hx & Hid & _).
    rewrite list_fmap_insert, <- Hid, list_insert_id; [done|].
    by rewrite list_lookup_fmap, Hx.
  - simpl. apply NoDup_cons. split; [|done].
    intros (x & Hid & Hx)%list_elem_of_fmap.
    apply list_find_None in E. rewrite Forall_forall in E.
    by apply (E x).
Qed.

Lemma saveItem_present (item : A) (l : list A) :
  NoDup (map id l) -> item ∈ l -> saveItem id item (Some l) = l.
Proof.
  intros Hnd Hin. unfold saveItem. simpl.
  destruct (list_find _ l) as [[i x]|] eqn:E.
  - apply list_find_Some in E as (Hx & Hid & _).
    apply list_insert_id.
    apply list_elem_of_lookup in Hin as [j Hj].
    assert (i = j) as ->; [|done].
    eapply NoDup_lookup; [exact Hnd| |];
      rewrite list_lookup_fmap; [by rewrite Hx|by rewrite Hj, Hid].
  - apply list_find_None in E. rewrite Forall_forall in E.
    by destruct (E item Hin).
Qed.

Lemma filter_ids (f : A -> bool) (l : list A) :
  NoDup (map id l) -> NoDup (map id (List.filter f l)).
Proof.
  induction l as [|x l IH]; [done|].
  intros [Hx Hnd]%NoDup_cons. simpl.
  destruct (f x); [|by apply IH].
  simpl. apply NoDup_cons. split; [|by apply IH].
  intros (y & Hid & Hy)%list_elem_of_fmap. apply Hx.
  apply list_elem_of_fmap. exists y. split; [done|].
  apply list_elem_of_In, filter_In in Hy as [Hy _].
  by apply list_elem_of_In.
Qed.
End Items.

End LibraryFacts.

Module LibraryRuns.
Import Library LibraryFacts.

Section Provider.
Context {Asset Mockup : Type} (assetId : Asset -> string) (mockupId : Mockup -> string).

(** Templates that are new to a library in step with its store. *)
Lemma load_fresh (demo : list Asset) : forall l : @Lib Asset Mockup,
  user l = true -> assets l = getList (storedAssets l) ->
  NoDup (map assetId (demo ++ assets l)) ->
  let l1 := loadTemplates assetId demo l in
  assets l1 = rev demo ++ assets l /\
  getList (storedAssets l1) = assets l1 /\ user l1 = true.
Proof.
  induction demo as [|a demo IH]; intros l Hu Hs Hnd; [done|].
  simpl in Hnd. apply NoDup_cons in Hnd as [Ha Hnd].
  rewrite fmap_app, elem_of_app in Ha.
  assert (saveItem assetId a (storedAssets l) = a :: assets l) as Hsave.
  { change (saveItem assetId a (storedAssets l))
      with (saveItem assetId a (Some (getList (storedAssets l)))).
    rewrite <- Hs. apply saveItem_fresh. tauto. }
  destruct (IH (addAsset assetId a l)) as (H1 & H2 & H3).
  - done.
  - unfold addAsset. simpl. by rewrite Hu, Hsave.
  - unfold addAsset, ADD_ASSET. simpl.
    rewrite fmap_app. simpl. rewrite <- Permutation_middle.
    apply NoDup_cons. rewrite <- fmap_app. split; [|done].
    rewrite fmap_app, elem_of_app. tauto.
  - simpl. split_and!; [|done|done].
    rewrite H1. unfold addAsset, ADD_ASSET. simpl.
    by rewrite <- app_assoc.
Qed.

(** Templates that the store already holds. *)
Lemma load_present (demo : list Asset) : forall l : @Lib Asset Mockup,
  user l = true ->
  NoDup (map assetId (getList (storedAssets l))) ->
  (forall a, a ∈ demo -> a ∈ getList (storedAssets l)) ->
  let l2 := loadTemplates assetId demo l in
  assets l2 = rev demo ++ assets l /\
  getList (storedAssets l2) = getList (storedAssets l).
Proof.
  induction demo as [|a demo IH]; intros l Hu Hnd Hin; [done|].
  assert (saveItem assetId a (storedAssets l) = getList (storedAssets l)) as Hsave.
  { change (saveItem assetId a (storedAssets l))
      with (saveItem assetId a (Some (getList (storedAssets l)))).
    apply saveItem_present; [done|]. apply Hin. by left. }
  destruct (IH (addAsset assetId a l)) as (H1 & H2).
  - done.
  - unfold addAsset. simpl. by rewrite Hu, Hsave.
  - intros b Hb. unfold addAsset. simpl. rewrite Hu, Hsave. simpl.
    apply Hin. by right.
  - simpl. split.
    + rewrite H1. unfold addAsset, ADD_ASSET. simpl. by rewrite <- app_assoc.
    + rewrite H2. unfold addAsset. simpl. by rewrite Hu, Hsave.
Qed.

Lemma call_in_step (l : @Lib Asset Mockup) (c : MockupCall) :
  user l = true ->
  savedMockups l = getList (storedMockups l) ->
  NoDup (map mockupId (savedMockups l)) ->
  let l' := call mockupId l c in
  user l' = true /\
  savedMockups l' = getList (storedMockups l') /\
  NoDup (map mockupId (savedMockups l')) /\
  assets l' = assets l /\ storedAssets l' = storedAssets l.
Proof.
  intros Hu Hs Hnd. destruct c as [m|i]; simpl; rewrite Hu; simpl.
  - change (saveItem mockupId m (storedMockups l))
      with (saveItem mockupId m (Some (getList (storedMockups l)))).
    rewrite <- Hs. rewrite ADD_MOCKUP_saveItem by done.
    split_and!; try done. by apply saveItem_ids.
  - unfold deleteItem, REMOVE_MOCKUP.
    change (default [] (storedMockups l)) with (getList (storedMockups l)).
    rewrite <- Hs. split_and!; try done. by apply filter_ids.
Qed.

End Provider.
End LibraryRuns.

(** Saved mockups stay in step with the store.  For a signed-in user
    whose list of saved mockups equals the stored list and holds no id
    twice, every run of [saveMockup] and [deleteMockup] leaves the two
    lists equal, entry for entry, and the ids distinct; the assets are
    not touched. *)
Theorem saved_mockups_stay_in_step
    (Asset Mockup : Type) (mockupId : Mockup -> string)
    (l : @Library.Lib Asset Mockup) (cs : list (@Library.MockupCall Mockup)) :
  Library.user l = true ->
  Library.savedMockups l = Library.getList (Library.storedMockups l) ->
  NoDup (map mockupId (Library.savedMockups l)) ->
  let l' := foldl (Library.call mockupId) l cs in
  Library.savedMockups l' = Library.getList (Library.storedMockups l') /\
  NoDup (map mockupId (Library.savedMockups l')) /\
  Library.assets l' = Library.assets l.
Proof.
  revert l. induction cs as [|c cs IH]; intros l Hu Hs Hnd; [done|].
  destruct (LibraryRuns.call_in_step mockupId l c Hu Hs Hnd)
    as (Hu' & Hs' & Hnd' & Ha & _).
  simpl. destruct (IH _ Hu' Hs' Hnd') as (H1 & H2 & H3).
  split_and!; try done. congruence.
Qed.

Lemma saved_mockups_stay_in_step_witness :
  let l := Library.mkLib ([] : list (string * string)) [("m1", "a"); ("m2", "b")]%string
             true None (Some [("m1", "a"); ("m2", "b")]%string) in
  let l' := foldl (Library.call fst) l
              [Library.SaveMockup ("m2", "c")%string;
               Library.DeleteMockup "m1";
               Library.SaveMockup ("m3", "d")%string] in
  Library.savedMockups l' = [("m3", "d"); ("m2", "c")]%string /\
  Library.savedMockups l' = Library.getList (Library.storedMockups l').
Proof.
  intros l l'. split; [reflexivity|].
  apply (saved_mockups_stay_in_step (string * string) (string * string) fst l);
    [reflexivity|reflexivity|].
  apply (bool_decide_unpack _). vm_compute. reflexivity.
Defined.

(** Templates loaded twice.  For a signed-in user whose assets equal
    the stored list, loading templates whose ids are new and distinct
    keeps the two lists equal.  Loading the same templates again puts
    each of them into the state a second time, while the store, which
    replaces an entry of the same id, stays as it was: the state then
    holds more assets than the store. *)
Theorem templates_loaded_twice
    (Asset Mockup : Type) (assetId : Asset -> string)
    (l : @Library.Lib Asset Mockup) (DEMO_ASSETS : list Asset) :
  Library.user l = true ->
  Library.assets l = Library.getList (Library.storedAssets l) ->
  NoDup (map assetId (DEMO_ASSETS ++ Library.assets l)) ->
  let l1 := Library.loadTemplates assetId DEMO_ASSETS l in
  let l2 := Library.loadTemplates assetId DEMO_ASSETS l1 in
  Library.assets l1 = rev DEMO_ASSETS ++ Library.assets l /\
  Library.getList (Library.storedAssets l1) = Library.assets l1 /\
  Library.assets l2 = rev DEMO_ASSETS ++ Library.assets l1 /\
  Library.getList (Library.storedAssets l2) = Library.assets l1.
Proof.
  intros Hu Hs Hnd l1 l2.
  destruct (LibraryRuns.load_fresh assetId DEMO_ASSETS l Hu Hs Hnd)
    as (H1 & H2 & H3). fold l1 in H1, H2, H3.
  destruct (LibraryRuns.load_present assetId DEMO_ASSETS l1 H3) as (H4 & H5).
  - rewrite H2, H1.
    assert (rev DEMO_ASSETS ++ Library.assets l ≡ₚ DEMO_ASSETS ++ Library.assets l)
      as -> by (by rewrite <- Permutation_rev).
    done.
  - intros a Ha. rewrite H2, H1. apply elem_of_app. left.
    by apply list_elem_of_In, in_rev, list_elem_of_In in Ha.
  - fold l2 in H4, H5. split_and!; try done. by rewrite H5.
Qed.

Lemma templates_loaded_twice_witness :
  let l := Library.mkLib [("a0", "mine")%string] ([] : list (string * string))
             true (Some [("a0", "mine")%string]) None in
  let demo := [("demo1", "shirt"); ("demo2", "logo")]%string in
  let l2 := Library.loadTemplates fst demo (Library.loadTemplates fst demo l) in
  length (Library.assets l2) = 5%nat /\
  length (Library.getList (Library.storedAssets l2)) = 3%nat.
Proof.
  intros l demo l2.
  destruct (templates_loaded_twice (string * string) (string * string) fst l demo
              eq_refl eq_refl) as (H1 & H2 & H3 & H4).
  { apply (bool_decide_unpack _). vm_compute. reflexivity. }
  fold l2 in H3, H4. rewrite H3, H4, H1. split; reflexivity.
Defined.

(** ** A pinch *)

(** A pinch session.  Two fingers put down on a layer start a pinch;
    a move with two fingers then sets the scale of that layer to its
    scale at the start times the ratio of the finger distances, kept
    between 0.1 and 5, and leaves its position, the other layers and the
    history alone; lifting the fingers commits the layers once. *)
Theorem pinch_session
    (getDist getAngle : Gestures.Point -> Gestures.Point -> Num.num)
    (h0 : Gestures.Hook) (id : string) (l0 : Studio.PlacedLayer)
    (rect : Gestures.Rect) (t1 t2 u1 u2 : Gestures.Point) (s0 d0 d : Q) :
  List.find (Studio.has_uid id) (Studio.layers (Gestures.studio h0)) = Some l0 ->
  Studio.scale l0 = Num.Fin s0 ->
  getDist t1 t2 = Num.Fin d0 -> ~ (d0 == 0)%Q ->
  getDist u1 u2 = Num.Fin d ->
  let env := Gestures.mkEnv (Some rect) false in
  exists h1 h2,
    Gestures.handlePointerDown getDist getAngle (Gestures.TouchEvent [t1; t2]) id env h0
    = Some h1 /\
    Gestures.handleMove getDist getAngle (Gestures.TouchEvent [u1; u2]) env h1
    = Some h2 /\
    (forall l, l ∈ Studio.layers (Gestures.studio h2) -> Studio.uid l = id ->
       exists (k : Q) (l' : Studio.PlacedLayer),
         l' ∈ Studio.layers (Gestures.studio h0) /\ Studio.uid l' = id /\
         Studio.scale l = Num.Fin k /\
         (k == Qmax 0.1 (Qmin 5 (s0 * (d / d0))) /\ 0.1 <= k /\ k <= 5)%Q /\
         Studio.x l = Studio.x l' /\ Studio.y l = Studio.y l') /\
    (forall l, l ∈ Studio.layers (Gestures.studio h2) -> Studio.uid l <> id ->
       l ∈ Studio.layers (Gestures.studio h0)) /\
    Studio.history (Gestures.studio h2) = Studio.history (Gestures.studio h0) /\
    Studio.historyIndex (Gestures.studio h2)
    = Studio.historyIndex (Gestures.studio h0) /\
    Gestures.handleUp h2
    = Gestures.mkHook
        (Studio.commit (Studio.layers (Gestures.studio h2)) (Gestures.studio h2))
        None.
Proof.
  intros Hf Hs Hd0 Hn Hd env.
  set (g := Gestures.mkGesture id Gestures.pinch (Num.Fin 0) (Num.Fin 0)
              (Studio.scale l0) (Studio.rotation l0) (Num.Fin 0) (Num.Fin 0)
              (getDist t1 t2) (getAngle t1 t2) false).
  exists (Gestures.mkHook (Studio.setActiveLayerId (Some id) (Gestures.studio h0))
            (Some g)).
  eexists. split_and!.
  - unfold Gestures.handlePointerDown. simpl. by rewrite Hf.
  - unfold Gestures.handleMove. simpl. reflexivity.
  - simpl. intros l Hl Hu.
    apply GestureFacts.on_layer_elem in Hl as (l' & Hl' & Hu' & ->);
      [|done|done].
    destruct (PinchFacts.pinch_scale_clamped g s0 d0 d (getAngle u1 u2) l')
      as (k & Hk & Hq & Hlo & Hhi); [done|done|done|].
    exists k, l'. rewrite Hd. by split_and!.
  - simpl. intros l Hl Hu. unfold Gestures.on_layer in Hl.
    apply list_elem_of_fmap in Hl as (l' & -> & Hl').
    destruct (Studio.has_uid id l') eqn:E; [|done].
    unfold Studio.has_uid in E. apply String.eqb_eq in E. by destruct Hu.
  - done.
  - done.
  - reflexivity.
Qed.

Lemma pinch_session_witness :
  let h0 := Gestures.mkHook (Studio.addLayer "u1" "logo" (Studio.init [])) None in
  let env := Gestures.mkEnv (Some (Gestures.mkRect (Num.Fin 800) (Num.Fin 600))) false in
  let pt := fun a b : Q => Gestures.mkPoint (Num.Fin a) (Num.Fin b) in
  exists h1 h2,
    Gestures.handlePointerDown Gestures.axisDist Gestures.axisAngle
      (Gestures.TouchEvent [pt 0 0; pt 100 0]%Q) "u1" env h0 = Some h1 /\
    Gestures.handleMove Gestures.axisDist Gestures.axisAngle
      (Gestures.TouchEvent [pt 0 0; pt 1000 0]%Q) env h1 = Some h2 /\
    (forall l, l ∈ Studio.layers (Gestures.studio h2) -> Studio.uid l = "u1"%string ->
       exists k : Q, Studio.scale l = Num.Fin k /\ (k == 5)%Q) /\
    length (Studio.history (Gestures.studio h2)) = 2%nat /\
    length (Studio.history (Gestures.studio (Gestures.handleUp h2))) = 3%nat.
Proof.
  intros h0 env pt.
  destruct (pinch_session Gestures.axisDist Gestures.axisAngle h0 "u1"
              (Studio.mkLayer "u1" "logo" (Num.Fin 50) (Num.Fin 50) (Num.Fin 1)
                 (Num.Fin 0) (Some Studio.normal))
              (Gestures.mkRect (Num.Fin 800) (Num.Fin 600))
              (pt 0 0)%Q (pt 100 0)%Q (pt 0 0)%Q (pt 1000 0)%Q 1%Q 100%Q 1000%Q
              eq_refl eq_refl eq_refl ltac:(discriminate) eq_refl)
    as (h1 & h2 & H1 & H2 & Hl & _ & Hh & Hx & Hup).
  exists h1, h2. split_and!; [exact H1|exact H2| | |].
  - intros l Hin Hu. destruct (Hl l Hin Hu) as (k & l' & _ & _ & Hk & (Hq & _) & _).
    exists k. split; [done|]. rewrite Hq. reflexivity.
  - by rewrite Hh.
  - rewrite Hup. cbn [Gestures.studio]. unfold Studio.commit. cbn [Studio.history].
    rewrite Hh, Hx. reflexivity.
Defined.

(** ** The status report of the pool *)

Module StatusFacts.
Import KeyPool.





End StatusFacts.


